(** * titlebot: the URL resolution engine of [titlebot.go]

    A shallow embedding of the parts of [titlebot.go] that decide what the
    bot does with the URLs of a chat message: the text scanner ([findURL]),
    the platform classifier ([extractBlueskyData]), the fetch policy
    ([domainMatch], [isGarbageJSDomain], [analyzeURL]), the admission
    controller ([tryAcquireSemaphore], [releaseSemaphore]), the two resolvers
    ([titleGeneric], [titleBluesky]), the time display
    ([displayTwitterTime], [humanReadableDuration]) and the dispatcher
    ([title], [titleAll]); then the callbacks of [newBot] that hand the
    messages of the server to them, with the owner's commands
    ([ownerMatches], [handleOwnerCommand]), [normalizeMessage] of the
    earlier revisions, and [ExtractMetaTags] of [htmlutil/utils.go].

    Go strings are byte strings: they are modelled as [string] (a list of
    [ascii], one per byte). *)

From Stdlib Require Import ZArith List String Ascii Bool Lia Arith.
From Stdlib Require Import Numbers.DecimalString.
Import ListNotations.

Open Scope string_scope.

(** ** The [strings] package *)

Module Strings.

(** [strings.HasSuffix(s, suffix)]:
    [len(s) >= len(suffix) && s[len(s)-len(suffix):] == suffix]. *)
Definition HasSuffix (s suffix : string) : bool :=
  (length suffix <=? length s)%nat &&
  (substring (length s - length suffix) (length suffix) s =? suffix).

(** [strings.TrimSuffix(s, suffix)]: [s] without the trailing [suffix], or
    [s] itself when it does not end with [suffix]. *)
Definition TrimSuffix (s suffix : string) : string :=
  if HasSuffix s suffix then substring 0 (length s - length suffix) s else s.

(** [strings.HasPrefix(s, prefix)]:
    [len(s) >= len(prefix) && s[:len(prefix)] == prefix]. *)
Definition HasPrefix (s prefix : string) : bool :=
  (length prefix <=? length s)%nat &&
  (substring 0 (length prefix) s =? prefix)%string.

(** [strings.TrimPrefix(s, prefix)]: [s] without the leading [prefix], or
    [s] itself when it does not begin with [prefix]. *)
Definition TrimPrefix (s prefix : string) : string :=
  if HasPrefix s prefix
  then substring (length prefix) (length s - length prefix) s
  else s.

(** [strings.Split(s, sep)] for a separator of one byte: the pieces of [s]
    between the separators, the empty ones too. *)
Fixpoint Split (s : string) (sep : ascii) : list string :=
  match s with
  | EmptyString => [EmptyString]
  | String c rest =>
      if (c =? sep)%char then EmptyString :: Split rest sep
      else match Split rest sep with
           | piece :: pieces => String c piece :: pieces
           | [] => [String c EmptyString]
           end
  end.

(** [strings.NewReplacer(oldnew...).Replace(s)], for old strings that are
    not empty and not all of one byte (the generic replacer): at each
    position of [s] from left to right, the first pair in argument order
    whose old string begins there is replaced, and the scan goes on after
    it; a byte where none begins is copied. *)
Fixpoint lookupReplacement (oldnew : list (string * string)) (s : string)
    : option (string * string) :=
  match oldnew with
  | [] => None
  | (old, new) :: rest =>
      if HasPrefix s old then Some (old, new) else lookupReplacement rest s
  end.

(** [skip] counts the bytes of a replaced old string still to pass. *)
Fixpoint Replace_from (oldnew : list (string * string)) (skip : nat)
    (s : string) : string :=
  match s with
  | EmptyString => EmptyString
  | String c rest =>
      match skip with
      | S skip' => Replace_from oldnew skip' rest
      | O =>
          match lookupReplacement oldnew s with
          | Some (old, new) =>
              new ++ Replace_from oldnew (length old - 1)%nat rest
          | None => String c (Replace_from oldnew 0 rest)
          end
      end
  end.

Definition Replace (oldnew : list (string * string)) (s : string) : string :=
  Replace_from oldnew 0 s.

End Strings.

(** ** Fetch policy: domain matching *)

(** [domainMatch] of [titlebot.go]: the host with the domain trimmed off its
    end differs from the host, and what is left is empty or ends in a dot. *)
Definition domainMatch (host domain : string) : bool :=
  let trimmed := Strings.TrimSuffix host domain in
  negb (host =? trimmed) &&
  ((trimmed =? "") || Strings.HasSuffix trimmed ".").

Definition garbageJSDomains : list string :=
  [ "amazon.com"; "amazon.ca"; "amzn.to"; "imdb.com"; "google.com";
    "goo.gl"; "github.com"; "youtube.com"; "youtu.be" ].

(** The [for ... range garbageJSDomains] loop of [isGarbageJSDomain]. *)
Fixpoint isGarbageJSDomain_loop (domains : list string) (host : string) : bool :=
  match domains with
  | [] => false
  | domain :: rest =>
      if domainMatch host domain then true else isGarbageJSDomain_loop rest host
  end.

Definition isGarbageJSDomain (host : string) : bool :=
  isGarbageJSDomain_loop garbageJSDomains host.

(** ** The [regexp] package, for the patterns of [titlebot.go]

    Go's [regexp] finds the leftmost match and, among the matches that start
    there, the one a backtracking search finds first.  The matcher below is
    that backtracking search, in continuation-passing style, for the
    operators the three patterns of [titlebot.go] use.  It reads bytes: the
    patterns delimit their matches by ASCII bytes only, and no byte of a
    multi-byte UTF-8 sequence is an ASCII byte, so matching bytes and
    matching runes find the same spans. *)

Module Regexp.

Inductive regex : Type :=
| Empty                                  (* the empty pattern *)
| Char (p : ascii -> bool)               (* one byte of a class *)
| Seq (r1 r2 : regex)                    (* r1 r2 *)
| Alt (r1 r2 : regex)                    (* r1|r2, r1 tried first *)
| Opt (r : regex)                        (* r?, greedy *)
| Star (p : ascii -> bool)               (* x*, greedy, x a class *)
| StarLazy (p : ascii -> bool)           (* x*?, x a class *)
| Group (n : nat) (r : regex)            (* the n-th capturing group *)
| WordBoundary                           (* \b, ASCII *)
| EndText.                               (* $ without the m flag *)

(** [x+], greedy. *)
Definition Plus (p : ascii -> bool) : regex := Seq (Char p) (Star p).

Fixpoint Cat (rs : list regex) : regex :=
  match rs with
  | [] => Empty
  | [r] => r
  | r :: rs' => Seq r (Cat rs')
  end.

(** Captures: the group's number with the start and end offsets of the text
    it matched last, newest first. *)
Definition Caps := list (nat * (nat * nat)).

(** Where a match attempt stands: the byte before the position (for [\b]),
    the offset, the text from there on, and the captures so far. *)
Record Pos := mkPos {
  posPrev : option ascii;
  posOff : nat;
  posRest : string;
  posCaps : Caps }.

Definition Cont := Pos -> option Pos.

Definition step (c : ascii) (s' : string) (x : Pos) : Pos :=
  mkPos (Some c) (S (posOff x)) s' (posCaps x).

(** [x*]: as many bytes of the class as the rest of the pattern allows,
    longest first. *)
Fixpoint starGreedy (p : ascii -> bool) (k : Cont)
    (prev : option ascii) (off : nat) (s : string) (caps : Caps) : option Pos :=
  match s with
  | String c s' =>
      if p c then
        match starGreedy p k (Some c) (S off) s' caps with
        | Some m => Some m
        | None => k (mkPos prev off s caps)
        end
      else k (mkPos prev off s caps)
  | EmptyString => k (mkPos prev off s caps)
  end.

(** [x*?]: as few bytes of the class as the rest of the pattern allows. *)
Fixpoint starLazy (p : ascii -> bool) (k : Cont)
    (prev : option ascii) (off : nat) (s : string) (caps : Caps) : option Pos :=
  match k (mkPos prev off s caps) with
  | Some m => Some m
  | None =>
      match s with
      | String c s' => if p c then starLazy p k (Some c) (S off) s' caps else None
      | EmptyString => None
      end
  end.

Definition isDigit (c : ascii) : bool :=
  (48 <=? nat_of_ascii c)%nat && (nat_of_ascii c <=? 57)%nat.
Definition isUpper (c : ascii) : bool :=
  (65 <=? nat_of_ascii c)%nat && (nat_of_ascii c <=? 90)%nat.
Definition isLower (c : ascii) : bool :=
  (97 <=? nat_of_ascii c)%nat && (nat_of_ascii c <=? 122)%nat.

(** [\w]: [[0-9A-Za-z_]]. *)
Definition isWord (c : ascii) : bool :=
  isDigit c || isUpper c || isLower c || (c =? "_")%char.

Definition isWordAt (c : option ascii) : bool :=
  match c with Some c => isWord c | None => false end.

Definition first (s : string) : option ascii :=
  match s with String c _ => Some c | EmptyString => None end.

(** [\s]: [[\t\n\f\r ]]. *)
Definition isSpace (c : ascii) : bool :=
  let n := nat_of_ascii c in
  (n =? 9)%nat || (n =? 10)%nat || (n =? 12)%nat || (n =? 13)%nat || (n =? 32)%nat.

(** The backtracking matcher: [run r k x] matches [r] at [x] and hands the
    position after it to [k]; when [k] fails there, the next way of matching
    [r] is tried. *)
Fixpoint run (r : regex) (k : Cont) (x : Pos) {struct r} : option Pos :=
  match r with
  | Empty => k x
  | Char p =>
      match posRest x with
      | String c s' => if p c then k (step c s' x) else None
      | EmptyString => None
      end
  | Seq r1 r2 => run r1 (run r2 k) x
  | Alt r1 r2 =>
      match run r1 k x with
      | Some m => Some m
      | None => run r2 k x
      end
  | Opt r1 =>
      match run r1 k x with
      | Some m => Some m
      | None => k x
      end
  | Star p => starGreedy p k (posPrev x) (posOff x) (posRest x) (posCaps x)
  | StarLazy p => starLazy p k (posPrev x) (posOff x) (posRest x) (posCaps x)
  | Group n r1 =>
      run r1
        (fun y => k (mkPos (posPrev y) (posOff y) (posRest y)
                           ((n, (posOff x, posOff y)) :: posCaps y)))
        x
  | WordBoundary =>
      if xorb (isWordAt (posPrev x)) (isWordAt (first (posRest x)))
      then k x else None
  | EndText =>
      match posRest x with
      | EmptyString => k x
      | String _ _ => None
      end
  end.

(** The leftmost match at or after a position: its start offset and the
    position where it ends. *)
Fixpoint search (r : regex) (prev : option ascii) (off : nat) (s : string)
  : option (nat * Pos) :=
  match run r Some (mkPos prev off s []) with
  | Some m => Some (off, m)
  | None =>
      match s with
      | String c s' => search r (Some c) (S off) s'
      | EmptyString => None
      end
  end.

Fixpoint numSubexp (r : regex) : nat :=
  match r with
  | Seq r1 r2 | Alt r1 r2 => numSubexp r1 + numSubexp r2
  | Opt r1 => numSubexp r1
  | Group _ r1 => S (numSubexp r1)
  | _ => 0
  end.

Fixpoint capture (n : nat) (caps : Caps) : option (nat * nat) :=
  match caps with
  | [] => None
  | (m, span) :: rest => if (m =? n)%nat then Some span else capture n rest
  end.

Definition slice (str : string) (span : nat * nat) : string :=
  substring (fst span) (snd span - fst span) str.

(** The submatches of a match as strings: the whole match, then each group
    (the empty string for a group that took no part). *)
Definition submatches (r : regex) (str : string) (start : nat) (m : Pos)
  : list string :=
  slice str (start, posOff m) ::
  map (fun n => match capture n (posCaps m) with
                | Some span => slice str span
                | None => ""
                end)
      (seq 1 (numSubexp r)).

(** [re.FindStringSubmatch(s)] (and [re.FindSubmatch] on bytes): [nil], here
    [[]], when there is no match. *)
Definition FindStringSubmatch (r : regex) (str : string) : list string :=
  match search r None 0 str with
  | Some (start, m) => submatches r str start m
  | None => []
  end.

(** The loop of [allMatches] in [regexp.go], which [FindAllStringSubmatch]
    runs with no bound on the number of matches: search from [pos]; after a
    match that is not empty go on from its end; after an empty match step
    over one byte (a rune in Go; no pattern of [titlebot.go] that is searched
    this way matches the empty string), and drop an empty match that starts
    where the previous match ended. *)
Fixpoint allMatches (fuel : nat) (r : regex) (str : string)
    (prev : option ascii) (pos : nat) (s : string) (prevMatchEnd : option nat)
  : list (list string) :=
  match fuel with
  | O => []
  | S fuel' =>
      match search r prev pos s with
      | None => []
      | Some (start, m) =>
          let sub := submatches r str start m in
          if (posOff m =? pos)%nat then
            let accept :=
              match prevMatchEnd with
              | Some e => negb (start =? e)%nat
              | None => true
              end in
            let rest :=
              match s with
              | String c s' =>
                  allMatches fuel' r str (Some c) (S pos) s' (Some (posOff m))
              | EmptyString => []
              end in
            if accept then sub :: rest else rest
          else
            sub :: allMatches fuel' r str (posPrev m) (posOff m) (posRest m)
                     (Some (posOff m))
      end
  end.

Definition FindAllStringSubmatch (r : regex) (str : string) : list (list string) :=
  allMatches (S (length str)) r str None 0 str None.

(** *** Building patterns *)

Definition byteIs (c : ascii) : ascii -> bool := fun x => (x =? c)%char.
Definition byteIsNot (c : ascii) : ascii -> bool := fun x => negb (x =? c)%char.
Definition anyByte : ascii -> bool := fun _ => true.
Definition LF : ascii := ascii_of_nat 10.

Definition toLowerASCII (c : ascii) : ascii :=
  if isUpper c then ascii_of_nat (nat_of_ascii c + 32) else c.

(** A literal byte. *)
Definition lit1 (c : ascii) : regex := Char (byteIs c).

(** A literal byte under the i flag.  Go folds case by Unicode simple
    folding: a letter matches its other case, and [s] and [k] also match
    U+017F (long s, bytes C5 BF) and U+212A (Kelvin sign, bytes E2 84 AA). *)
Definition fold1 (c : ascii) : regex :=
  let l := toLowerASCII c in
  let same := Char (fun x => (toLowerASCII x =? l)%char) in
  if (l =? "s")%char then
    Alt same (Seq (lit1 (ascii_of_nat 197)) (lit1 (ascii_of_nat 191)))
  else if (l =? "k")%char then
    Alt same (Seq (lit1 (ascii_of_nat 226))
                  (Seq (lit1 (ascii_of_nat 132)) (lit1 (ascii_of_nat 170))))
  else same.

Fixpoint chars (f : ascii -> regex) (s : string) : regex :=
  match s with
  | EmptyString => Empty
  | String c EmptyString => f c
  | String c s' => Seq (f c) (chars f s')
  end.

(** A literal string, and one under the i flag. *)
Definition lit : string -> regex := chars lit1.
Definition litFold : string -> regex := chars fold1.

End Regexp.

Import Regexp.

(** ** The patterns of [titlebot.go] *)

(** [urlRe = `\b(?i)(https?://.*?)(\s|$)`]: without the s flag the dot is
    any byte but a line feed. *)
Definition urlRe : regex :=
  Cat [ WordBoundary;
        Group 1 (Cat [ litFold "http"; Opt (fold1 "s"); lit "://";
                       StarLazy (byteIsNot LF) ]);
        Group 2 (Alt (Char isSpace) EndText) ].

(** [blueskyRe = `https://bsky\.app/profile/([^/]+)/post/([^/]+)`]. *)
Definition blueskyRe : regex :=
  Cat [ lit "https://bsky.app/profile/";
        Group 1 (Plus (byteIsNot "/"));
        lit "/post/";
        Group 2 (Plus (byteIsNot "/")) ].

(** [genericTitleRe = `(?is)<\s*title\b.*?>(.*?)<`]: with the s flag the dot
    is any byte. *)
Definition genericTitleRe : regex :=
  Cat [ lit1 "<"; Star isSpace; litFold "title"; WordBoundary;
        StarLazy anyByte; lit1 ">";
        Group 1 (StarLazy anyByte);
        lit1 "<" ].

(** ** Text scanner *)

(** The loop of [findURL] over the matches. *)
Fixpoint findURL_loop (matches : list (list string)) : list string :=
  match matches with
  | [] => []
  | submatch :: rest =>
      if (2 <? List.length submatch)%nat
      then nth 1 submatch "" :: findURL_loop rest
      else findURL_loop rest
  end.

Definition findURL (str : string) : list string :=
  findURL_loop (FindAllStringSubmatch urlRe str).

(** ** Platform classifier *)

Definition extractBlueskyData (url : string) : string * string :=
  let matches := FindStringSubmatch blueskyRe url in
  if (List.length matches =? 3)%nat
  then (nth 1 matches "", nth 2 matches "")
  else ("", "").


(** ** Constants of [titlebot.go] *)

Definition trustedReadLimit : nat := 1024 * 1024.
Definition genericTitleReadLimit : nat := 1024 * 64.
Definition titleCharLimit : nat := 400.
Definition maxUrlsPerMessage : nat := 4.
Definition concurrencyLimit : nat := 128.
Definition IRCv3TimestampFormat : string := "2006-01-02T15:04:05.000Z".
Definition replyTagName : string := "+draft/reply".
Definition blueskyAPIBase : string := "https://bsky.social/xrpc".
Definition StatusOK : Z := 200.

(** A line feed, as in the [\n] of a Go string literal. *)
Definition nl : string := String LF "".

(** [%d] of [fmt]. *)
Definition itoa (n : Z) : string := NilZero.string_of_int (Z.to_int n).

(** ** Time display

    A [time.Duration] is a number of nanoseconds (an [int64]; the division
    and remainder below are of a duration by a smaller positive one and
    cannot overflow). *)

Open Scope Z_scope.

Definition Millisecond : Z := 1000000.
Definition Second : Z := 1000 * Millisecond.
Definition Minute : Z := 60 * Second.
Definition Hour : Z := 60 * Minute.

Definition humanDurations : list (Z * string) :=
  [ (Hour * 24 * 365, "y"); (Hour * 24, "d"); (Hour, "h");
    (Minute, "m"); (Second, "s"); (Millisecond, "ms") ].

(** The loop of [humanReadableDuration] from index [i] on: [found] is the
    index of the first unit written ([-1] for none), [d] what is left of the
    duration, [out] the text so far. *)
Fixpoint humanReadableDuration_loop
    (units : list (Z * string)) (i found d : Z) (out : string) : string :=
  match units with
  | [] => out
  | (dur, name) :: rest =>
      if negb (found =? -1) && (i >? found + 1) then out
      else if d >? dur then
        let count := Z.quot d dur in
        humanReadableDuration_loop rest (i + 1)
          (if found =? -1 then i else found)
          (Z.rem d dur)
          (out ++ itoa count ++ name)
      else humanReadableDuration_loop rest (i + 1) found d out
  end.

Definition humanReadableDuration (d : Z) : string :=
  humanReadableDuration_loop humanDurations 0 (-1) d "".

(** ** The world around the program *)

(** Go [error] values: [io.ErrUnexpectedEOF], which [titleGeneric] compares
    against, and any other error, by its message. *)
Inductive error : Type :=
| io_ErrUnexpectedEOF
| errorString (msg : string).

(** The [Error()] method, which [%v] prints. *)
Definition Error (e : error) : string :=
  match e with
  | io_ErrUnexpectedEOF => "unexpected EOF"
  | errorString msg => msg
  end.

Inductive result (A : Type) : Type :=
| Ok (a : A)
| Err (e : error).
Arguments Ok {A} a.
Arguments Err {A} e.

Record Request := mkRequest {
  Method : string;
  URL : string;
  Header : list (string * list string) }.

(** An HTTP response: the bytes the body delivers, and the error that ends
    the body after them ([None] for a plain end of file). *)
Record Response := mkResponse {
  StatusCode : Z;
  Body : string;
  BodyErr : option error }.

(** What a call of the HTTP client comes to: a response, an error value, or
    a run-time panic inside the call. *)
Inductive HttpResult : Type :=
| HttpResp (resp : Response)
| HttpErr (e : error)
| HttpPanic (v : string).

Record BlueskyPostRecord := mkRecord {
  Text : string;
  CreatedAt : string }.

Record GetRecordResponse := mkGetRecordResponse {
  URI : string;
  CID : string;
  Value : BlueskyPostRecord }.

(** The library functions [titlebot.go] calls and this development does not
    define: the clock and [time], the HTTP client, [encoding/json], [html],
    [net], [net/url], [strings] beyond what [Strings] has, and
    [ircutils.SanitizeText]. *)
Class Lib : Type := {
  GoTime : Type;
  time_Now : GoTime;
  (* time.Since(t), in nanoseconds *)
  time_Since : GoTime -> Z;
  (* time.Parse(layout, value) *)
  time_Parse : string -> string -> result GoTime;
  (* t.Format(layout) *)
  time_Format : GoTime -> string -> string;
  (* Duration.String(), which %v prints *)
  Duration_String : Z -> string;
  debug_Stack : string;
  (* httpClient.Do(req) *)
  httpClient_Do : Request -> HttpResult;
  (* url.Parse(s), by the Host of the parsed URL *)
  url_Parse : string -> result string;
  (* net.SplitHostPort(hostport) *)
  net_SplitHostPort : string -> result (string * string);
  (* json.NewDecoder(r).Decode(&result), by the bytes r delivers; for a
     ResolveHandleResponse the Did of the decoded value *)
  json_Decode_ResolveHandleResponse : string -> result string;
  json_Decode_GetRecordResponse : string -> result GetRecordResponse;
  html_UnescapeString : string -> string;
  strings_TrimSpace : string -> string;
  strings_ToLower : string -> string;
  (* ircutils.SanitizeText(message, limit) *)
  ircutils_SanitizeText : string -> nat -> string }.

(** An IRC line the bot sends. *)
Record Message := mkMessage {
  Tags : list (string * string);
  Command : string;
  Params : list string }.

(** What the bot does that others can see: operations on the semaphore,
    lines written to the log, lines sent to the server. *)
Inductive Event : Type :=
| EvTryAcquire (acquired : bool)
| EvRelease
| EvLog (line : string)
| EvSend (m : Message).

(** The state the bot works on: the number of values in the buffered channel
    [irc.semaphore], and what has happened so far, newest first. *)
Record World := mkWorld {
  semaphore : nat;
  history : list Event }.

(** The configuration in [Bot] that the resolution reads. *)
Record Bot := mkBot {
  Nick : string;
  Owner : string;
  userAgent : string;
  Debug : bool }.

(** How a call ends: it returns, it panics, or it blocks for ever on the
    channel. *)
Inductive Outcome (A : Type) : Type :=
| Returned (a : A)
| Panicking (v : string)
| Blocked.
Arguments Returned {A} a.
Arguments Panicking {A} v.
Arguments Blocked {A}.

Definition M (A : Type) : Type := World -> Outcome A * World.

Definition ret {A} (a : A) : M A := fun w => (Returned a, w).

Definition bind {A B} (m : M A) (f : A -> M B) : M B :=
  fun w =>
    match m w with
    | (Returned a, w') => f a w'
    | (Panicking v, w') => (Panicking v, w')
    | (Blocked, w') => (Blocked, w')
    end.

Notation "x <- m ;; f" := (bind m (fun x => f))
  (at level 61, m at next level, right associativity).
Notation "m ;; f" := (bind m (fun _ => f))
  (at level 61, right associativity).

Definition panic {A} (v : string) : M A := fun w => (Panicking v, w).

Definition emit (e : Event) : M unit :=
  fun w => (Returned tt, mkWorld (semaphore w) (e :: history w)).

(** [defer d; body]: [d] runs when [body] returns and when it panics; the
    panic goes on afterwards, unless [d] panics itself. *)
Definition defer {A} (d : M unit) (body : M A) : M A :=
  fun w =>
    match body w with
    | (Blocked, w1) => (Blocked, w1)
    | (r, w1) =>
        match d w1 with
        | (Returned _, w2) => (r, w2)
        | (Panicking v, w2) => (Panicking v, w2)
        | (Blocked, w2) => (Blocked, w2)
        end
    end.

(** [defer func() { if r := recover(); r != nil { handler(r) } }(); body]:
    a panic of [body] stops here, [handler] runs on its value, and the
    function returns normally. *)
Definition deferRecover (handler : string -> M unit) (body : M unit) : M unit :=
  fun w =>
    match body w with
    | (Panicking v, w1) => handler v w1
    | other => other
    end.

(** ** Admission controller *)

(** [select { case b.semaphore <- empty{}: return true; default: return false }]
    on a channel with room for [concurrencyLimit] values. *)
Definition tryAcquireSemaphore : M bool :=
  fun w =>
    if (semaphore w <? concurrencyLimit)%nat
    then (Returned true, mkWorld (S (semaphore w)) (EvTryAcquire true :: history w))
    else (Returned false, mkWorld (semaphore w) (EvTryAcquire false :: history w)).

(** [<-b.semaphore]: blocks while the channel is empty. *)
Definition releaseSemaphore : M unit :=
  fun w =>
    match semaphore w with
    | O => (Blocked, w)
    | S n => (Returned tt, mkWorld n (EvRelease :: history w))
    end.

(** [irc.Log.Printf], by the formatted line. *)
Definition Log_Printf (line : string) : M unit := emit (EvLog line).

Definition Notice (target text : string) : M unit :=
  emit (EvSend (mkMessage [] "NOTICE" [target; text])).

Definition SendWithTags (tags : list (string * string)) (command : string)
    (params : list string) : M unit :=
  emit (EvSend (mkMessage tags command params)).

(** ** The resolvers and the dispatcher *)

Section Resolution.

Context {lib : Lib}.
Variable irc : Bot.

Definition displayTwitterTime (then_ : GoTime) : string :=
  let elapsed := time_Since then_ in
  if elapsed >? 7 * 24 * Hour
  then time_Format then_ "2006-01-02"
  else humanReadableDuration elapsed ++ " ago".

Definition checkErr (err : option error) (message : string) : M bool :=
  match err with
  | Some e => Log_Printf (message ++ ": " ++ Error e) ;; ret true
  | None => ret false
  end.

Definition sendReplyNotice (target msgid text : string) : M unit :=
  if (msgid =? "")%string
  then Notice target text
  else SendWithTags [(replyTagName, msgid)] "NOTICE" [target; text].

(** [http.NewRequest(method, url, nil)] for the method [GET]: it fails when
    the URL does not parse. *)
Definition http_NewRequest (method url : string) : result Request :=
  match url_Parse url with
  | Ok _ => Ok (mkRequest method url [])
  | Err e => Err e
  end.

(** [httpClient.Get(url)]. *)
Definition httpClient_Get (url : string) : HttpResult :=
  match http_NewRequest "GET" url with
  | Ok req => httpClient_Do req
  | Err e => HttpErr e
  end.

(** What a reader of [io.LimitedReader{R: resp.Body, N: limit}] is given. *)
Definition limited (resp : Response) (limit : nat) : string :=
  substring 0 limit (Body resp).

(** [io.ReadAll] of that reader: the error that ends the body is met only
    when the body is shorter than the limit. *)
Definition ReadAll_limited (resp : Response) (limit : nat)
  : string * option error :=
  if (String.length (Body resp) <? limit)%nat
  then (Body resp, BodyErr resp)
  else (limited resp limit, None).

(** The URL [resolveBlueskyHandle] builds with [fmt.Sprintf]. *)
Definition resolveHandleURL (handle : string) : string :=
  blueskyAPIBase ++ "/com.atproto.identity.resolveHandle?handle=" ++ handle.

(** The URL [getBlueskyPost] builds with [fmt.Sprintf]. *)
Definition getRecordURL (did postID : string) : string :=
  blueskyAPIBase ++ "/com.atproto.repo.getRecord?repo=" ++ did
  ++ "&collection=app.bsky.feed.post&rkey=" ++ postID.

Definition resolveBlueskyHandle (handle : string) : M string :=
  let url := resolveHandleURL handle in
  match httpClient_Get url with
  | HttpPanic v => panic v
  | HttpErr e =>
      _ <- checkErr (Some e) "can't get resolve bluesky handle" ;; ret ""
  | HttpResp resp =>
      if negb (StatusCode resp =? StatusOK) then
        Log_Printf ("Can't resolve bsky handle " ++ handle ++ " : HTTP code "
                    ++ itoa (StatusCode resp) ++ nl) ;;
        ret ""
      else
        match json_Decode_ResolveHandleResponse (limited resp trustedReadLimit) with
        | Err e =>
            _ <- checkErr (Some e) "Invalid JSON from bsky handle resolve" ;;
            ret ""
        | Ok did => ret did
        end
  end.

Definition zeroRecord : BlueskyPostRecord := mkRecord "" "".

(** [getBlueskyPost]: the results are named, [record] and [err], and [err]
    is the one [httpClient.Get] assigned.  After a response that is not 200,
    and after JSON that does not decode, the function returns the zero
    record with that [err], which is [nil]. *)
Definition getBlueskyPost (did postID : string)
  : M (BlueskyPostRecord * option error) :=
  let url := getRecordURL did postID in
  match httpClient_Get url with
  | HttpPanic v => panic v
  | HttpErr e => ret (zeroRecord, Some e)
  | HttpResp resp =>
      if negb (StatusCode resp =? StatusOK) then
        Log_Printf ("Can't resolve bsky handle " ++ did ++ " : HTTP code "
                    ++ itoa (StatusCode resp) ++ nl) ;;
        ret (zeroRecord, None)
      else
        match json_Decode_GetRecordResponse (limited resp trustedReadLimit) with
        | Err e =>
            _ <- checkErr (Some e) "Invalid JSON from bsky post lookup" ;;
            Log_Printf ("Invalid JSON from bsky getRecord: " ++ "<nil>") ;;
            ret (zeroRecord, None)
        | Ok decoded => ret (Value decoded, None)
        end
  end.

Definition titleBluesky (target msgid handle postid : string) : M unit :=
  did <- resolveBlueskyHandle handle ;;
  if (did =? "")%string then ret tt
  else
    r <- getBlueskyPost did postid ;;
    let '(record, err) := r in
    match err with
    | Some _ => ret tt
    | None =>
        match time_Parse IRCv3TimestampFormat (CreatedAt record) with
        | Err e =>
            _ <- checkErr (Some e) "invalid time created in bsky post" ;; ret tt
        | Ok ts =>
            let timeStr := displayTwitterTime ts in
            let safeText := ircutils_SanitizeText (Text record) titleCharLimit in
            let message := "(@" ++ handle ++ ", " ++ timeStr ++ ") " ++ safeText in
            sendReplyNotice target msgid message
        end
    end.

Definition analyzeURL (urlStr : string) : result (nat * regex) :=
  match url_Parse urlStr with
  | Err e => Err e
  | Ok host =>
      let host := match net_SplitHostPort host with
                  | Ok (splitHost, _) => splitHost
                  | Err _ => host
                  end in
      let hostLower := strings_ToLower host in
      if isGarbageJSDomain hostLower
      then Ok (trustedReadLimit, genericTitleRe)
      else Ok (genericTitleReadLimit, genericTitleRe)
  end.

(** The part of [titleGeneric] that works on the body read: match the title
    pattern, unescape, trim, sanitize, and send what is left if anything. *)
Definition titleGeneric_body (target msgid url : string) (titleRe : regex)
    (body : string) : M unit :=
  let titleMatch := FindStringSubmatch titleRe body in
  success <-
    (if (List.length titleMatch =? 2)%nat then
       let title := nth 1 titleMatch "" in
       let title := html_UnescapeString title in
       let title := strings_TrimSpace title in
       let title := ircutils_SanitizeText title titleCharLimit in
       if negb (String.length title =? 0)%nat
       then sendReplyNotice target msgid title ;; ret true
       else ret false
     else ret false) ;;
  if negb success && Debug irc
  then Log_Printf ("Can't title " ++ url ++ " : title not found" ++ nl)
  else ret tt.

Definition titleGeneric (target msgid url : string) : M unit :=
  match analyzeURL url with
  | Err e => _ <- checkErr (Some e) "invalid URL" ;; ret tt
  | Ok (byteLimit, titleRe) =>
      match http_NewRequest "GET" url with
      | Err e => _ <- checkErr (Some e) "NewRequest error in titleTwitter" ;; ret tt
      | Ok req =>
          let req := mkRequest (Method req) (URL req)
                       [("User-Agent", [userAgent irc])] in
          match httpClient_Do req with
          | HttpPanic v => panic v
          | HttpErr e => _ <- checkErr (Some e) "http error in titleGeneric" ;; ret tt
          | HttpResp resp =>
              if negb (StatusCode resp =? StatusOK) then
                if Debug irc
                then Log_Printf ("Can't title " ++ url ++ " : HTTP code "
                                 ++ itoa (StatusCode resp) ++ nl)
                else ret tt
              else
                match ReadAll_limited resp byteLimit with
                | (body, None) | (body, Some io_ErrUnexpectedEOF) =>
                    titleGeneric_body target msgid url titleRe body
                | (_, Some err) =>
                    Log_Printf ("couldn't read in titleGeneric: "
                                ++ Error err ++ nl)
                end
          end
      end
  end.

(** The choice of resolver at the end of [title]. *)
Definition resolve (target msgid url : string) : M unit :=
  let '(handle, postid) := extractBlueskyData url in
  if negb (handle =? "")%string
  then titleBluesky target msgid handle postid
  else titleGeneric target msgid url.

(** [title]: the three deferred calls run in the reverse of the order they
    were deferred in: the debug line, the recovery, the release. *)
Definition title (target msgid url : string) : M unit :=
  acquired <- tryAcquireSemaphore ;;
  if negb acquired then
    Log_Printf ("concurrency limit exceeded, not titling " ++ url ++ nl)
  else
    defer releaseSemaphore
      (deferRecover
         (fun r => Log_Printf ("Caught panic in callback: " ++ r ++ nl
                               ++ debug_Stack))
         (let start := time_Now in
          defer
            (if Debug irc
             then Log_Printf ("Titled " ++ url ++ " in "
                              ++ Duration_String (time_Since start) ++ nl)
             else ret tt)
            (resolve target msgid url))).

Fixpoint titleAll_loop (target msgid : string) (urls : list string) : M unit :=
  match urls with
  | [] => ret tt
  | url :: rest => title target msgid url ;; titleAll_loop target msgid rest
  end.

Definition titleAll (target msgid : string) (urls : list string) : M unit :=
  let urls := if (maxUrlsPerMessage <? List.length urls)%nat
              then firstn maxUrlsPerMessage urls
              else urls in
  titleAll_loop target msgid urls.

End Resolution.

(** ** Making a title safe for IRC (in the revisions of [titlebot.go] that
    do not yet call [ircutils.SanitizeText]) *)

Definition oneByte (n : nat) : string := String (ascii_of_nat n) "".

(** [normalizeReplacer]: NUL and [\r] are dropped; [\t], [\v], [\f],
    U+0085 and U+00A0 (two bytes each in UTF-8) become a space; [\n]
    becomes two spaces. *)
Definition normalizeReplacer : list (string * string) :=
  [ (oneByte 0, ""); (oneByte 13, ""); (oneByte 9, " "); (oneByte 11, " ");
    (oneByte 12, " "); (oneByte 194 ++ oneByte 133, " ");
    (oneByte 194 ++ oneByte 160, " "); (oneByte 10, "  ") ].

Definition normalizeMessage (message : string) : string :=
  Strings.Replace normalizeReplacer message.

(** ** Messages from the server: the callbacks of [newBot] *)

(** [e.GetTag(name)] of [ircmsg]: whether the tag is there, and its value. *)
Fixpoint lookupTag (tags : list (string * string)) (tagName : string)
    : bool * string :=
  match tags with
  | [] => (false, "")
  | (k, v) :: rest =>
      if (k =? tagName)%string then (true, v) else lookupTag rest tagName
  end.

Definition GetTag (e : Message) (tagName : string) : bool * string :=
  lookupTag (Tags e) tagName.

Definition ownerMatches (e : Message) (owner : string) : bool :=
  if (owner =? "")%string then false
  else
    let (present, account) := GetTag e "account" in
    if present && (account =? owner)%string then true else false.

(** [irc.Send(command, params...)] of [ircevent], and the calls that send
    one line: [irc.Privmsg], [irc.Join]. *)
Definition Send (command : string) (params : list string) : M unit :=
  emit (EvSend (mkMessage [] command params)).

Definition Privmsg (target message : string) : M unit :=
  Send "PRIVMSG" [target; message].

Definition Join (channel : string) : M unit := Send "JOIN" [channel].

(** The value of a panic on [a[i]] outside a slice of length [n]. *)
Definition indexOutOfRange (i n : nat) : string :=
  "runtime error: index out of range [" ++ itoa (Z.of_nat i)
  ++ "] with length " ++ itoa (Z.of_nat n).

Section Callbacks.

Context {lib : Lib}.
Variable irc : Bot.

(** [strings.Fields]. *)
Variable strings_Fields : string -> list string.

(** [irc.QuitMessage], [irc.CurrentNick()], [irc.ISupport()] (the empty
    string where it has no value) and the environment variable
    [TITLEBOT_CHANNELS]. *)
Variable QuitMessage : string.
Variable CurrentNick : string.
Variable ISupport : string -> string.
Variable channels : string.

(** [irc.Quit()], by the line it sends. *)
Definition Quit : M unit := Send "QUIT" [QuitMessage].

Definition handleOwnerCommand (target command : string) : M unit :=
  if negb (Strings.HasPrefix command (Nick irc)) then ret tt
  else
    let command := Strings.TrimPrefix command (Nick irc) in
    let command := Strings.TrimPrefix command ":" in
    let f := strings_Fields command in
    match f with
    | [] => ret tt
    | f0 :: f' =>
        if (strings_ToLower f0 =? "abuse")%string then
          match f' with
          | f1 :: _ => Privmsg target (f1 ++ " isn't a real programmer")
          | [] => ret tt
          end
        else if (strings_ToLower f0 =? "quit")%string then Quit
        else ret tt
    end.

(** The loop of the connect callback over the pieces of [channels]. *)
Fixpoint onConnect_loop (pieces : list string) : M unit :=
  match pieces with
  | [] => ret tt
  | channel :: rest =>
      Join (strings_TrimSpace channel) ;; onConnect_loop rest
  end.

(** The callback of [irc.AddConnectCallback]. *)
Definition onConnect (e : Message) : M unit :=
  let botMode := ISupport "BOT" in
  (if negb (botMode =? "")%string
   then Send "MODE" [CurrentNick; "+" ++ botMode]
   else ret tt) ;;
  onConnect_loop (Strings.Split channels ",").

(** The callback for [PRIVMSG]. It returns the arguments of the call of
    [irc.titleAll] that it starts with [go], if it starts one. [findURL]
    returns [nil] exactly when it returns no URL: every match of [urlRe]
    has three elements. *)
Definition onPrivmsg (e : Message)
    : M (option (string * string * list string)) :=
  match Params e with
  | [] => panic (indexOutOfRange 0 0)
  | [_] => panic (indexOutOfRange 1 1)
  | target :: message :: _ =>
      let msgid := snd (GetTag e "msgid") in
      let fromOwner := ownerMatches e (Owner irc) in
      if negb (Strings.HasPrefix target "#") && negb fromOwner then ret None
      else
        let urls := findURL message in
        let started :=
          match urls with
          | [] => None
          | _ :: _ => Some (target, msgid, urls)
          end in
        (if fromOwner then handleOwnerCommand target message
         else if Strings.HasPrefix message (Nick irc)
              then sendReplyNotice target msgid "don't @ me, mortal"
              else ret tt) ;;
        ret started
  end.

(** The callback for [INVITE]. *)
Definition onInvite (e : Message) : M unit :=
  let fromOwner := ownerMatches e (Owner irc) in
  if fromOwner then
    match nth_error (Params e) 1 with
    | Some channel => Join channel
    | None => panic (indexOutOfRange 1 (List.length (Params e)))
    end
  else ret tt.

End Callbacks.

(** ** The meta tags of a page: [htmlutil/utils.go] *)

Module htmlutil.

Record MetaTag := mkMetaTag {
  Name : string;
  Property : string;
  Content : string;
  HttpEquiv : string;
  Charset : string }.

(** The tokens of [golang.org/x/net/html], but for [ErrorToken], which ends
    the stream. *)
Inductive TokenType : Type :=
| TextToken
| StartTagToken
| EndTagToken
| SelfClosingTagToken
| CommentToken
| DoctypeToken.

Record Attribute := mkAttribute {
  Key : string;
  Val : string }.

Record Token := mkToken {
  Type_ : TokenType;
  Data : string;
  Attr : list Attribute }.

(** What [tokenizer.Err()] returns after [ErrorToken]: [io.EOF], or what
    went wrong. *)
Inductive tokenizerErr : Type :=
| io_EOF
| readError (e : error).

Section ExtractMetaTags.

Context {lib : Lib}.

(** The body of the loop over the attributes of a token. *)
Definition setAttr (metaTag : MetaTag) (attr : Attribute) : MetaTag :=
  let key := strings_ToLower (Key attr) in
  if (key =? "name")%string then
    mkMetaTag (Val attr) (Property metaTag) (Content metaTag)
              (HttpEquiv metaTag) (Charset metaTag)
  else if (key =? "property")%string then
    mkMetaTag (Name metaTag) (Val attr) (Content metaTag)
              (HttpEquiv metaTag) (Charset metaTag)
  else if (key =? "content")%string then
    mkMetaTag (Name metaTag) (Property metaTag) (Val attr)
              (HttpEquiv metaTag) (Charset metaTag)
  else if (key =? "http-equiv")%string then
    mkMetaTag (Name metaTag) (Property metaTag) (Content metaTag)
              (Val attr) (Charset metaTag)
  else if (key =? "charset")%string then
    mkMetaTag (Name metaTag) (Property metaTag) (Content metaTag)
              (HttpEquiv metaTag) (Val attr)
  else metaTag.

Definition zero : MetaTag := mkMetaTag "" "" "" "" "".

(** [metaTag != zero]. *)
Definition notZero (metaTag : MetaTag) : bool :=
  negb ((Name metaTag =? "")%string && (Property metaTag =? "")%string &&
        (Content metaTag =? "")%string && (HttpEquiv metaTag =? "")%string &&
        (Charset metaTag =? "")%string).

Definition isStartTag (t : TokenType) : bool :=
  match t with
  | StartTagToken | SelfClosingTagToken => true
  | _ => false
  end.

(** The loop of [ExtractMetaTags] over the tokens before [ErrorToken]. *)
Fixpoint ExtractMetaTags_loop (tokens : list Token) (metaTags : list MetaTag)
    : list MetaTag :=
  match tokens with
  | [] => metaTags
  | token :: rest =>
      if isStartTag (Type_ token) then
        if (Data token =? "meta")%string then
          let metaTag := fold_left setAttr (Attr token) zero in
          if notZero metaTag
          then ExtractMetaTags_loop rest (metaTags ++ [metaTag])
          else ExtractMetaTags_loop rest metaTags
        else ExtractMetaTags_loop rest metaTags
      else ExtractMetaTags_loop rest metaTags
  end.

(** [ExtractMetaTags(r)], by the tokens that the tokenizer makes of [r] and
    the error that ends them. *)
Definition ExtractMetaTags (tokens : list Token) (err : tokenizerErr)
    : list MetaTag * option error :=
  (ExtractMetaTags_loop tokens [],
   match err with
   | io_EOF => None
   | readError e => Some e
   end).

End ExtractMetaTags.

End htmlutil.

(** * Vocabulary of the properties *)

(** ** Time display *)

(** What the loop writes after the first unit: at most the next one. *)
Definition secondUnit (r : Z) (post : list (Z * string)) : string :=
  match post with
  | [] => ""
  | (dur, name) :: _ => if r >? dur then itoa (Z.quot r dur) ++ name else ""
  end.

(** ** Histories *)

(** The events that are no operations on the semaphore. *)
Definition isOutput (e : Event) : bool :=
  match e with
  | EvLog _ | EvSend _ => true
  | EvTryAcquire _ | EvRelease => false
  end.

(** The world after the events [evs] (newest first) that leave the
    semaphore alone. *)
Definition after (evs : list Event) (w : World) : World :=
  mkWorld (semaphore w) (evs ++ history w)%list.

(** [m] leaves the semaphore alone: it does not block, and all it adds to
    the history are log lines and sent lines. *)
Definition quiet {A} (m : M A) : Prop :=
  forall w, exists evs,
    snd (m w) = after evs w /\ forallb isOutput evs = true /\ fst (m w) <> Blocked.

(** Successful acquires, releases and acquire attempts in a history. *)
Fixpoint acquires (h : list Event) : nat :=
  match h with
  | [] => 0
  | EvTryAcquire true :: h' => S (acquires h')
  | _ :: h' => acquires h'
  end.

Fixpoint releases (h : list Event) : nat :=
  match h with
  | [] => 0
  | EvRelease :: h' => S (releases h')
  | _ :: h' => releases h'
  end.

Fixpoint attempts (h : list Event) : nat :=
  match h with
  | [] => 0
  | EvTryAcquire _ :: h' => S (attempts h')
  | _ :: h' => attempts h'
  end.

(** Slots held: successful acquires minus releases. *)
Definition outstanding (w : World) : Z :=
  Z.of_nat (acquires (history w)) - Z.of_nat (releases (history w)).

(** The bot starts with an empty channel ([make(chan empty, concurrencyLimit)]
    in [newBot]). *)
Definition initialWorld : World := mkWorld 0 [].

(** The states of the admission controller that goroutines running in any
    interleaving can bring about: each step is one goroutine's operation on
    the channel, or a line it logs or sends. *)
Inductive reachable : World -> Prop :=
| reach_init : reachable initialWorld
| reach_tryAcquire w : reachable w -> reachable (snd (tryAcquireSemaphore w))
| reach_release w w' :
    reachable w -> releaseSemaphore w = (Returned tt, w') -> reachable w'
| reach_output w e :
    reachable w -> isOutput e = true -> reachable (snd (emit e w)).

(** ** Matches of a pattern *)

(** The bytes between the positions [x] and [y] are all of the class [p]. *)
Inductive starRel (p : ascii -> bool) : Pos -> Pos -> Prop :=
| star_done x : starRel p x x
| star_more x c s' y :
    posRest x = String c s' -> p c = true ->
    starRel p (step c s' x) y -> starRel p x y.

(** The pattern [r] matches the text between the positions [x] and [y]
    (with no regard to which match a search would prefer). *)
Fixpoint matches (r : regex) (x y : Pos) : Prop :=
  match r with
  | Empty => y = x
  | Char p =>
      exists c s', posRest x = String c s' /\ p c = true /\ y = step c s' x
  | Seq r1 r2 => exists z, matches r1 x z /\ matches r2 z y
  | Alt r1 r2 => matches r1 x y \/ matches r2 x y
  | Opt r1 => matches r1 x y \/ y = x
  | Star p | StarLazy p => starRel p x y
  | Group n r1 =>
      exists z, matches r1 x z /\
                y = mkPos (posPrev z) (posOff z) (posRest z)
                          ((n, (posOff x, posOff z)) :: posCaps z)
  | WordBoundary =>
      xorb (isWordAt (posPrev x)) (isWordAt (first (posRest x))) = true /\ y = x
  | EndText => posRest x = "" /\ y = x
  end.

(** The text [t] lies between the positions [x] and [y]. *)
Definition consumed (x y : Pos) (t : string) : Prop :=
  posRest x = t ++ posRest y /\ (posOff y = posOff x + String.length t)%nat.

(** [x] is a position of [str]. *)
Definition located (str : string) (x : Pos) : Prop :=
  exists pre, str = pre ++ posRest x /\ String.length pre = posOff x.

(** ** A library to run the program against

    One way the world can answer, for the examples: a clock whose times are
    their own age, and a network with five addresses. *)

(** The network of the examples. *)
Definition exampleDo (req : Request) : HttpResult :=
  if (URL req =? resolveHandleURL "gone.example")%string then
    HttpResp (mkResponse 404 "" None)
  else if (URL req =? resolveHandleURL "alice.example")%string then
    HttpResp (mkResponse 200 "did:plc:alice" None)
  else if (URL req =? getRecordURL "did:plc:alice" "3k")%string then
    HttpResp (mkResponse 200 "hello" None)
  else if (URL req =? "http://page.example/")%string then
    HttpResp (mkResponse 200
                "<html><head><title>  Hello &amp; World  </title></head>" None)
  else if (URL req =? "http://panic.example/")%string then
    HttpPanic "runtime error: invalid memory address"
  else HttpErr (errorString "no such host").

Definition exampleLib : Lib := {|
  GoTime := Z;
  time_Now := 0;
  time_Since := fun t => t;
  time_Parse := fun _ value =>
    if (value =? "")%string then Err (errorString "cannot parse") else Ok 0;
  time_Format := fun _ _ => "2024-01-01";
  Duration_String := fun d => itoa d ++ "ns";
  debug_Stack := "goroutine 1 [running]";
  httpClient_Do := exampleDo;
  url_Parse := fun _ => Ok "page.example";
  net_SplitHostPort := fun _ => Err (errorString "missing port in address");
  json_Decode_ResolveHandleResponse := fun body =>
    if (body =? "")%string then Err (errorString "EOF") else Ok body;
  json_Decode_GetRecordResponse := fun body =>
    if (body =? "")%string then Err (errorString "EOF")
    else Ok (mkGetRecordResponse "" "" (mkRecord body "2024-01-01T00:00:00.000Z"));
  html_UnescapeString := fun s =>
    if (s =? "  Hello &amp; World  ")%string then "  Hello & World  " else s;
  strings_TrimSpace := fun s =>
    if (s =? "  Hello & World  ")%string then "Hello & World" else s;
  strings_ToLower := fun s => s;
  ircutils_SanitizeText := fun s n => substring 0 n s |}.

Definition exampleBot : Bot := mkBot "titlebot" "" "Mozilla/5.0" false.

(** A world with every slot held. *)
Definition fullWorld : World :=
  mkWorld concurrencyLimit (repeat (EvTryAcquire true) concurrencyLimit).

(** ** The text scanner in the words of the specification *)

(** U+017F, the long s, in UTF-8. *)
Definition longS : string :=
  String (ascii_of_nat 197) (String (ascii_of_nat 191) "").

(** [s] begins with [p], its letters compared without regard to their ASCII
    case ([p] is in lower case). *)
Fixpoint hasPrefixFold (p s : string) : bool :=
  match p, s with
  | EmptyString, _ => true
  | String l p', String c s' => (toLowerASCII c =? l)%char && hasPrefixFold p' s'
  | String _ _, EmptyString => false
  end.

(** [s] begins with [http://] or [https://] in either case; under Go's case
    folding the long s is an s too. *)
Definition startsWithScheme (s : string) : bool :=
  hasPrefixFold "http://" s || hasPrefixFold "https://" s ||
  hasPrefixFold ("http" ++ longS ++ "://") s.

(** A URL starts at [s], which follows the byte [prev]: [s] begins with the
    scheme, and [prev] is no word byte ([\b] before the [h]). *)
Definition isURLStart (prev : option ascii) (s : string) : bool :=
  negb (isWordAt prev) && startsWithScheme s.

(** The scanner: outside a URL ([url] is [None]), a URL starts where
    [isURLStart] holds; a URL extends to the next white space byte (of
    [\s], that is [isSpace]), which is not part of it, or to the end of the
    text.  [url] is the URL read so far. *)
Fixpoint scanURLs (prev : option ascii) (url : option string) (s : string)
  : list string :=
  match s with
  | EmptyString =>
      match url with
      | Some u => [u]
      | None => []
      end
  | String c s' =>
      match url with
      | Some u =>
          if isSpace c then u :: scanURLs (Some c) None s'
          else scanURLs (Some c) (Some (u ++ String c "")) s'
      | None =>
          if isURLStart prev s
          then scanURLs (Some c) (Some (String c "")) s'
          else scanURLs (Some c) None s'
      end
  end.

(** The scheme of [urlRe]: [(?i)https?://]. *)
Definition schemeRe : regex :=
  Seq (litFold "http") (Seq (Opt (fold1 "s")) (lit "://")).

(** No byte of [t] is white space. *)
Definition noSpace (t : string) : bool :=
  forallb (fun c => negb (isSpace c)) (list_ascii_of_string t).

(** What follows the first group of [urlRe]: the second group, [(\s|$)],
    with the first group's span recorded from [start]. *)
Definition urlRest (start : nat) : Cont :=
  fun y =>
    run (Group 2 (Alt (Char isSpace) EndText)) Some
      (mkPos (posPrev y) (posOff y) (posRest y)
             ((1, (start, posOff y)) :: posCaps y))%nat.

(** Some stretch of [s] begins with the scheme. *)
Fixpoint containsScheme (s : string) : bool :=
  startsWithScheme s ||
  match s with
  | String _ s' => containsScheme s'
  | EmptyString => false
  end.

(** ** The resolvers *)

Section Vocabulary.

Context {lib : Lib}.
Variable irc : Bot.

(** The line the recovery in [title] logs for a panic with value [v]. *)
Definition panicLine (v : string) : Event :=
  EvLog ("Caught panic in callback: " ++ v ++ nl ++ debug_Stack).

(** The line [sendReplyNotice] sends: a notice, tagged as a reply when
    there is a message id. *)
Definition replyNotice (target msgid text : string) : Message :=
  if (msgid =? "")%string
  then mkMessage [] "NOTICE" [target; text]
  else mkMessage [(replyTagName, msgid)] "NOTICE" [target; text].

(** The identity call answers 200 with JSON that decodes, to [did]. *)
Definition identityResolved (handle did : string) : Prop :=
  exists resp,
    httpClient_Get (resolveHandleURL handle) = HttpResp resp /\
    StatusCode resp = StatusOK /\
    json_Decode_ResolveHandleResponse (limited resp trustedReadLimit) = Ok did.

(** The record call answers 200 with JSON that decodes, to [record]. *)
Definition recordFound (did postid : string) (record : BlueskyPostRecord) : Prop :=
  exists resp decoded,
    httpClient_Get (getRecordURL did postid) = HttpResp resp /\
    StatusCode resp = StatusOK /\
    json_Decode_GetRecordResponse (limited resp trustedReadLimit) = Ok decoded /\
    Value decoded = record.

(** The failures of a social resolution: a status other than 200 or JSON
    that does not decode, from the identity call or from the record call,
    or a creation time that does not parse. *)
Inductive blueskyFailure (handle postid : string) : Prop :=
| identity_not_200 resp :
    httpClient_Get (resolveHandleURL handle) = HttpResp resp ->
    StatusCode resp <> StatusOK ->
    blueskyFailure handle postid
| identity_bad_json resp e :
    httpClient_Get (resolveHandleURL handle) = HttpResp resp ->
    StatusCode resp = StatusOK ->
    json_Decode_ResolveHandleResponse (limited resp trustedReadLimit) = Err e ->
    blueskyFailure handle postid
| record_not_200 did resp :
    identityResolved handle did -> did <> "" ->
    httpClient_Get (getRecordURL did postid) = HttpResp resp ->
    StatusCode resp <> StatusOK ->
    blueskyFailure handle postid
| record_bad_json did resp e :
    identityResolved handle did -> did <> "" ->
    httpClient_Get (getRecordURL did postid) = HttpResp resp ->
    StatusCode resp = StatusOK ->
    json_Decode_GetRecordResponse (limited resp trustedReadLimit) = Err e ->
    blueskyFailure handle postid
| timestamp_bad did record e :
    identityResolved handle did -> did <> "" ->
    recordFound did postid record ->
    time_Parse IRCv3TimestampFormat (CreatedAt record) = Err e ->
    blueskyFailure handle postid.

(** The text [titleBluesky] sends for a post. *)
Definition blueskyLine (handle : string) (ts : GoTime)
    (record : BlueskyPostRecord) : string :=
  "(@" ++ handle ++ ", " ++ displayTwitterTime ts ++ ") "
  ++ ircutils_SanitizeText (Text record) titleCharLimit.

(** The request [titleGeneric] sends. *)
Definition genericRequest (url : string) : Request :=
  mkRequest "GET" url [("User-Agent", [userAgent irc])].

(** The title as sent: unescaped, then trimmed, then sanitized and cut. *)
Definition sanitizedTitle (raw : string) : string :=
  ircutils_SanitizeText (strings_TrimSpace (html_UnescapeString raw))
    titleCharLimit.

(** What [titleGeneric_body] adds to the history: a function of its
    arguments, not of the world. *)
Definition titleEvents (target msgid url : string) (titleRe : regex)
    (body : string) : list Event :=
  let notFound :=
    if Debug irc
    then [EvLog ("Can't title " ++ url ++ " : title not found" ++ nl)]
    else [] in
  match FindStringSubmatch titleRe body with
  | [_; raw] =>
      if (String.length (sanitizedTitle raw) =? 0)%nat then notFound
      else [EvSend (replyNotice target msgid (sanitizedTitle raw))]
  | _ => notFound
  end.

End Vocabulary.

(** ** Lines sent, domains, links and tags *)

(** The lines sent, among events. *)
Fixpoint sends (evs : list Event) : list Message :=
  match evs with
  | [] => []
  | EvSend m :: rest => m :: sends rest
  | _ :: rest => sends rest
  end.

(** The lines logged, among events. *)
Fixpoint logged (evs : list Event) : list string :=
  match evs with
  | [] => []
  | EvLog line :: rest => line :: logged rest
  | _ :: rest => logged rest
  end.

(** [host] is [d] or a subdomain of [d]. *)
Definition inDomain (host d : string) : Prop :=
  host = d \/ exists p, host = p ++ "." ++ d.

(** What a full channel makes of the URLs of a message, newest first. *)
Fixpoint rejections (urls : list string) : list Event :=
  match urls with
  | [] => []
  | url :: rest =>
      (rejections rest
       ++ [EvLog ("concurrency limit exceeded, not titling " ++ url ++ nl);
           EvTryAcquire false])%list
  end.

(** The host [analyzeURL] looks up: without its port, if it has one. *)
Definition stripPort {lib : Lib} (host : string) : string :=
  match net_SplitHostPort host with
  | Ok (splitHost, _) => splitHost
  | Err _ => host
  end.

(** [m] leaves the semaphore alone, and the lines it sends satisfy [P]. *)
Definition sendsOnly (P : list Message -> Prop) {A} (m : M A) : Prop :=
  forall w, exists o evs,
    m w = (o, after evs w) /\ forallb isOutput evs = true /\
    o <> Blocked /\ P (sends evs).

(** [m] sends nothing. *)
Definition silent {A} (m : M A) : Prop := sendsOnly (fun l => l = []) m.

(** Nothing, or one notice in reply, with some text that is not empty. *)
Definition oneReply (target msgid : string) (l : list Message) : Prop :=
  l = [] \/ exists text, text <> "" /\ l = [replyNotice target msgid text].

(** [u] is a URL of [str]: it begins with the scheme, has no white space
    in it, and stands in [str] before a white space byte or at the end. *)
Definition isURLOf (str u : string) : Prop :=
  startsWithScheme u = true /\ noSpace u = true /\
  exists pre post,
    str = pre ++ u ++ post /\
    (post = "" \/ exists c r, post = String c r /\ isSpace c = true).

(** The occurrences of the byte [sep] in [s]. *)
Fixpoint countByte (sep : ascii) (s : string) : nat :=
  match s with
  | EmptyString => 0
  | String c rest =>
      ((if (c =? sep)%char then 1 else 0) + countByte sep rest)%nat
  end.

(** The lines an owner command sends to [target]: the abuse of somebody,
    or the quit line. *)
Definition ownerLine (QuitMessage target : string) (l : Message) : Prop :=
  (exists who,
     l = mkMessage [] "PRIVMSG" [target; who ++ " isn't a real programmer"])
  \/ l = mkMessage [] "QUIT" [QuitMessage].

(** The line the bot sends to those who address it. *)
Definition mortalNotice (target msgid : string) : Message :=
  replyNotice target msgid "don't @ me, mortal".

(** No byte of [s] is [c]. *)
Definition lacks (c : ascii) (s : string) : bool :=
  forallb (byteIsNot c) (list_ascii_of_string s).

(** The link to a post, as [blueskyRe] reads it. *)
Definition blueskyLink (handle postid : string) : string :=
  "https://bsky.app/profile/" ++ handle ++ "/post/" ++ postid.

(** [s] is empty or begins with the byte [c]. *)
Definition endsAt (c : ascii) (s : string) : Prop :=
  s = "" \/ exists r, s = String c r.

(** The values of a meta tag. *)
Definition fields (metaTag : htmlutil.MetaTag) : list string :=
  [ htmlutil.Name metaTag; htmlutil.Property metaTag;
    htmlutil.Content metaTag; htmlutil.HttpEquiv metaTag;
    htmlutil.Charset metaTag ].

(** [token] is a start tag or a self-closing tag of a [meta] element. *)
Definition isMeta (token : htmlutil.Token) : bool :=
  htmlutil.isStartTag (htmlutil.Type_ token) &&
  (htmlutil.Data token =? "meta")%string.

(** * Properties *)

(** ** Facts about strings *)

Module StringFacts.

Import Strings.

Lemma length_app (a b : string) : length (a ++ b) = (length a + length b)%nat.
Proof. induction a as [|c a IH]; simpl; [reflexivity | now rewrite IH]. Qed.

Lemma app_empty_r (a : string) : a ++ "" = a.
Proof. induction a as [|c a IH]; simpl; [reflexivity | now rewrite IH]. Qed.

Lemma app_assoc (a b c : string) : (a ++ b) ++ c = a ++ b ++ c.
Proof. induction a as [|x a IH]; simpl; [reflexivity | now rewrite IH]. Qed.

Lemma substring_0_all (s : string) : substring 0 (length s) s = s.
Proof. induction s as [|c s IH]; simpl; [reflexivity | now rewrite IH]. Qed.

Lemma substring_0_0 (s : string) : substring 0 0 s = "".
Proof. destruct s; reflexivity. Qed.

Lemma substring_0_app (a b : string) : substring 0 (length a) (a ++ b) = a.
Proof.
  induction a as [|c a IH]; simpl.
  - apply substring_0_0.
  - now rewrite IH.
Qed.

Lemma substring_skip_app (a b : string) (n : nat) :
  substring (length a) n (a ++ b) = substring 0 n b.
Proof. induction a as [|c a IH]; simpl; [reflexivity | exact IH]. Qed.

(** Cutting a string at an index inside it. *)
Lemma substring_split (s : string) (n : nat) :
  (n <= length s)%nat ->
  s = substring 0 n s ++ substring n (length s - n) s.
Proof.
  revert n; induction s as [|c s IH]; intros n Hn; simpl in *.
  - assert (n = 0%nat) by lia; subst; reflexivity.
  - destruct n as [|n]; simpl.
    + now rewrite substring_0_all.
    + rewrite <- IH by lia; reflexivity.
Qed.

Lemma length_substring_0 (s : string) (n : nat) :
  (n <= length s)%nat -> length (substring 0 n s) = n.
Proof.
  revert n; induction s as [|c s IH]; intros n Hn; simpl in *.
  - assert (n = 0%nat) by lia; subst; reflexivity.
  - destruct n as [|n]; simpl; [reflexivity | rewrite IH; lia].
Qed.

Lemma HasSuffix_app (p suffix : string) : HasSuffix (p ++ suffix) suffix = true.
Proof.
  unfold HasSuffix; rewrite length_app.
  replace (length p + length suffix - length suffix)%nat with (length p) by lia.
  rewrite substring_skip_app, substring_0_all, String.eqb_refl.
  rewrite andb_true_r; apply Nat.leb_le; lia.
Qed.

Lemma HasSuffix_inv (s suffix : string) :
  HasSuffix s suffix = true ->
  s = substring 0 (length s - length suffix) s ++ suffix.
Proof.
  unfold HasSuffix; intros H.
  apply andb_true_iff in H as [Hlen Heq].
  apply Nat.leb_le in Hlen; apply String.eqb_eq in Heq.
  rewrite (substring_split s (length s - length suffix)) at 1 by lia.
  replace (length s - (length s - length suffix))%nat with (length suffix) by lia.
  now rewrite Heq.
Qed.

Lemma HasSuffix_iff (s suffix : string) :
  HasSuffix s suffix = true <-> exists p, s = p ++ suffix.
Proof.
  split.
  - intros H; eexists; apply HasSuffix_inv, H.
  - intros [p ->]; apply HasSuffix_app.
Qed.

Lemma TrimSuffix_app (p suffix : string) : TrimSuffix (p ++ suffix) suffix = p.
Proof.
  unfold TrimSuffix; rewrite HasSuffix_app, length_app.
  replace (length p + length suffix - length suffix)%nat with (length p) by lia.
  apply substring_0_app.
Qed.

Lemma TrimSuffix_none (s suffix : string) :
  HasSuffix s suffix = false -> TrimSuffix s suffix = s.
Proof. unfold TrimSuffix; now intros ->. Qed.

End StringFacts.

(** ** Fetch policy: domain matching *)

Lemma app_neq_self (p d : string) : d <> "" -> p ++ d <> p.
Proof.
  intros Hd Heq.
  assert (Hl : length (p ++ d) = length p) by now rewrite Heq.
  rewrite StringFacts.length_app in Hl.
  destruct d; [now apply Hd | simpl in Hl; lia].
Qed.

Lemma domainMatch_iff (h d : string) :
  d <> "" ->
  domainMatch h d = true <-> h = d \/ exists p, h = p ++ "." ++ d.
Proof.
  intros Hd; unfold domainMatch; cbv zeta.
  rewrite andb_true_iff, negb_true_iff, orb_true_iff, String.eqb_neq, String.eqb_eq.
  split.
  - intros [Hne Ht].
    destruct (Strings.HasSuffix h d) eqn:Hs.
    + apply StringFacts.HasSuffix_iff in Hs as [p ->].
      rewrite StringFacts.TrimSuffix_app in *.
      destruct Ht as [-> | Ht]; [now left | right].
      apply StringFacts.HasSuffix_iff in Ht as [q ->].
      exists q; now rewrite StringFacts.app_assoc.
    + rewrite StringFacts.TrimSuffix_none in Hne by assumption; now elim Hne.
  - intros [-> | [p ->]].
    + pose proof (StringFacts.TrimSuffix_app "" d) as E; simpl in E; rewrite E.
      split; [assumption | now left].
    + rewrite <- StringFacts.app_assoc, StringFacts.TrimSuffix_app.
      split; [now apply app_neq_self | right; apply StringFacts.HasSuffix_app].
Qed.

(** C1 (as amended): for every host [h] and every non-empty domain [d],
    [domainMatch h d] holds exactly when [h] is [d] or ends with ["." ++ d];
    ["www.google.com"] matches ["google.com"], and ["evilgoogle.com"] and the
    unrelated ["www.bing.com"] do not, nor are they on the list of domains
    with the extended budget. *)
Theorem domainMatch_spec (h d : string) :
  d <> "" ->
  (domainMatch h d = true <-> h = d \/ exists p, h = p ++ "." ++ d) /\
  domainMatch "www.google.com" "google.com" = true /\
  domainMatch "google.com" "google.com" = true /\
  domainMatch "evilgoogle.com" "google.com" = false /\
  domainMatch "www.bing.com" "google.com" = false /\
  isGarbageJSDomain "evilgoogle.com" = false /\
  isGarbageJSDomain "www.google.com" = true.
Proof.
  intros Hd; split; [exact (domainMatch_iff h d Hd) | repeat split; reflexivity].
Qed.

(** C1 at the host ["www.google.com"] and the domain ["google.com"]. *)
Lemma domainMatch_spec_witness :
  "google.com" <> "" /\
  (domainMatch "www.google.com" "google.com" = true <->
   "www.google.com" = "google.com" \/
   exists p, "www.google.com" = p ++ "." ++ "google.com").
Proof.
  split; [discriminate|].
  exact (proj1 (domainMatch_spec "www.google.com" "google.com"
                  ltac:(discriminate))).
Defined.

(** C1, the claim as written fails for the empty domain: the empty host
    equals the empty domain, and ["a."] ends with ["." ++ ""], yet neither is
    matched. *)
Lemma domainMatch_empty_domain :
  ("" = "" /\ domainMatch "" "" = false) /\
  ("a." = "a" ++ "." ++ "" /\ domainMatch "a." "" = false).
Proof. repeat split; reflexivity. Qed.

(** ** Time display *)

Lemma humanReadableDuration_loop_skip (pre rest : list (Z * string))
    (i d : Z) (out : string) :
  (forall x, In x pre -> d <= fst x) ->
  humanReadableDuration_loop (pre ++ rest)%list i (-1) d out
  = humanReadableDuration_loop rest (i + Z.of_nat (List.length pre)) (-1) d out.
Proof.
  revert i; induction pre as [|[dur name] pre IH]; intros i Hle.
  - simpl; f_equal; lia.
  - cbn [app humanReadableDuration_loop].
    assert (Hd : d <= dur) by exact (Hle _ (or_introl eq_refl)).
    replace (d >? dur) with false by (symmetry; rewrite Z.gtb_ltb; apply Z.ltb_ge, Hd).
    rewrite Z.eqb_refl; cbn [negb andb].
    rewrite IH by (intros x Hx; apply Hle; now right).
    f_equal; cbn [List.length]; lia.
Qed.

(** Two places after the first unit written, the loop breaks. *)
Lemma humanReadableDuration_loop_break (units : list (Z * string))
    (i found d : Z) (out : string) :
  0 <= found -> found + 1 < i ->
  humanReadableDuration_loop units i found d out = out.
Proof.
  intros Hf Hi; destruct units as [|[dur name] rest]; [reflexivity|].
  cbn [humanReadableDuration_loop].
  replace (found =? -1) with false by (symmetry; apply Z.eqb_neq; lia).
  replace (i >? found + 1) with true by (symmetry; rewrite Z.gtb_ltb; apply Z.ltb_lt, Hi).
  reflexivity.
Qed.

Lemma humanReadableDuration_two_units (pre post : list (Z * string))
    (u : Z) (n : string) (d : Z) :
  humanDurations = (pre ++ (u, n) :: post)%list ->
  (forall x, In x pre -> d <= fst x) ->
  u < d ->
  humanReadableDuration d
  = (itoa (Z.quot d u) ++ n) ++ secondUnit (Z.rem d u) post.
Proof.
  intros Hsplit Hpre Hu; unfold humanReadableDuration.
  rewrite Hsplit, humanReadableDuration_loop_skip by assumption.
  cbn [humanReadableDuration_loop]; rewrite Z.eqb_refl; cbn [negb andb].
  replace (d >? u) with true by (symmetry; rewrite Z.gtb_ltb; apply Z.ltb_lt, Hu).
  cbn [append]; set (i := 0 + Z.of_nat (List.length pre)).
  assert (Hi : 0 <= i) by (subst i; lia).
  destruct post as [|[dur name] rest]; cbn [humanReadableDuration_loop secondUnit].
  - now rewrite StringFacts.app_empty_r.
  - replace (i =? -1) with false by (symmetry; apply Z.eqb_neq; lia).
    replace (i + 1 >? i + 1) with false
      by (symmetry; rewrite Z.gtb_ltb; apply Z.ltb_ge; lia).
    cbn [negb andb].
    destruct (Z.rem d u >? dur).
    + apply humanReadableDuration_loop_break; lia.
    + rewrite StringFacts.app_empty_r; apply humanReadableDuration_loop_break; lia.
Qed.

Lemma humanReadableDuration_small (d : Z) :
  d <= Millisecond -> humanReadableDuration d = "".
Proof.
  intros Hd; unfold humanReadableDuration.
  rewrite <- (app_nil_r humanDurations).
  rewrite humanReadableDuration_loop_skip; [reflexivity|].
  intros x Hx; unfold humanDurations in Hx; cbn [In] in Hx.
  unfold Hour, Minute, Second, Millisecond in *.
  repeat (destruct Hx as [<- | Hx]; [cbn [fst]; lia|]); contradiction.
Qed.

(** ** What a computation adds to the world *)

Lemma after_nil (w : World) : after [] w = w.
Proof. now destruct w. Qed.

Lemma after_after (evs1 evs2 : list Event) (w : World) :
  after evs2 (after evs1 w) = after (evs2 ++ evs1) w.
Proof. unfold after; cbn [semaphore history]; now rewrite <- List.app_assoc. Qed.

Lemma quiet_ret {A} (a : A) : quiet (ret a).
Proof. intros w; exists []; rewrite after_nil; repeat split; discriminate. Qed.

Lemma quiet_panic {A} (v : string) : quiet (@panic A v).
Proof. intros w; exists []; rewrite after_nil; repeat split; discriminate. Qed.

Lemma quiet_emit (e : Event) : isOutput e = true -> quiet (emit e).
Proof.
  intros He w; exists [e]; cbn [forallb]; rewrite He.
  repeat split; discriminate.
Qed.

Lemma quiet_bind {A B} (m : M A) (f : A -> M B) :
  quiet m -> (forall a, quiet (f a)) -> quiet (bind m f).
Proof.
  intros Hm Hf w; unfold bind.
  destruct (Hm w) as (evs1 & Hw1 & Ho1 & Hb1).
  destruct (m w) as [[a|v|] w1]; cbn [fst snd] in *; subst w1.
  - destruct (Hf a (after evs1 w)) as (evs2 & Hw2 & Ho2 & Hb2).
    exists (evs2 ++ evs1)%list; rewrite Hw2, after_after, forallb_app, Ho1, Ho2.
    repeat split; assumption.
  - exists evs1; repeat split; [assumption | discriminate].
  - now elim Hb1.
Qed.

Lemma quiet_Log_Printf (line : string) : quiet (Log_Printf line).
Proof. now apply quiet_emit. Qed.

Lemma quiet_Notice (target text : string) : quiet (Notice target text).
Proof. now apply quiet_emit. Qed.

Lemma quiet_SendWithTags tags command params :
  quiet (SendWithTags tags command params).
Proof. now apply quiet_emit. Qed.

Create HintDb quiet.
#[export] Hint Resolve quiet_ret quiet_panic quiet_Log_Printf quiet_Notice
  quiet_SendWithTags : quiet.

(** Takes a computation apart along its binds and case distinctions. *)
Ltac quiet_step :=
  match goal with
  | |- quiet (bind _ _) => apply quiet_bind; [|intros]
  | |- quiet (match ?x with _ => _ end) => destruct x
  | |- quiet (let '(_, _) := ?x in _) => destruct x
  | |- quiet _ => solve [auto with quiet]
  end.

Section ResolutionQuiet.

Context {lib : Lib}.
Variable irc : Bot.

Lemma quiet_checkErr err message : quiet (checkErr err message).
Proof. unfold checkErr; repeat quiet_step. Qed.

Lemma quiet_sendReplyNotice target msgid text :
  quiet (sendReplyNotice target msgid text).
Proof. unfold sendReplyNotice; repeat quiet_step. Qed.

Hint Resolve quiet_checkErr quiet_sendReplyNotice : quiet.

Lemma quiet_resolveBlueskyHandle handle : quiet (resolveBlueskyHandle handle).
Proof. unfold resolveBlueskyHandle; cbv zeta; repeat quiet_step. Qed.

Lemma quiet_getBlueskyPost did postID : quiet (getBlueskyPost did postID).
Proof. unfold getBlueskyPost; cbv zeta; repeat quiet_step. Qed.

Hint Resolve quiet_resolveBlueskyHandle quiet_getBlueskyPost : quiet.

Lemma quiet_titleBluesky target msgid handle postid :
  quiet (titleBluesky target msgid handle postid).
Proof. unfold titleBluesky; cbv zeta; repeat quiet_step. Qed.

Lemma quiet_titleGeneric_body target msgid url titleRe body :
  quiet (titleGeneric_body irc target msgid url titleRe body).
Proof. unfold titleGeneric_body; cbv zeta; repeat quiet_step. Qed.

Hint Resolve quiet_titleBluesky quiet_titleGeneric_body : quiet.

Lemma quiet_titleGeneric target msgid url :
  quiet (titleGeneric irc target msgid url).
Proof. unfold titleGeneric; cbv zeta; repeat quiet_step. Qed.

Hint Resolve quiet_titleGeneric : quiet.

Lemma quiet_resolve target msgid url : quiet (resolve irc target msgid url).
Proof. unfold resolve; repeat quiet_step. Qed.

End ResolutionQuiet.

(** ** Admission controller and dispatcher *)

Lemma acquires_outputs (evs h : list Event) :
  forallb isOutput evs = true -> acquires (evs ++ h) = acquires h.
Proof.
  induction evs as [|e evs IH]; [reflexivity|]; cbn [forallb].
  intros Ho; apply andb_true_iff in Ho as [He Ho].
  destruct e as [b| | |]; try discriminate; cbn; auto.
Qed.

Lemma releases_outputs (evs h : list Event) :
  forallb isOutput evs = true -> releases (evs ++ h) = releases h.
Proof.
  induction evs as [|e evs IH]; [reflexivity|]; cbn [forallb].
  intros Ho; apply andb_true_iff in Ho as [He Ho].
  destruct e as [b| | |]; try discriminate; cbn; auto.
Qed.

Lemma attempts_outputs (evs h : list Event) :
  forallb isOutput evs = true -> attempts (evs ++ h) = attempts h.
Proof.
  induction evs as [|e evs IH]; [reflexivity|]; cbn [forallb].
  intros Ho; apply andb_true_iff in Ho as [He Ho].
  destruct e as [b| | |]; try discriminate; cbn; auto.
Qed.

Lemma reachable_after (evs : list Event) (w : World) :
  forallb isOutput evs = true -> reachable w -> reachable (after evs w).
Proof.
  induction evs as [|e evs IH]; intros Ho Hr.
  - now rewrite after_nil.
  - cbn [forallb] in Ho; apply andb_true_iff in Ho as [He Ho].
    exact (reach_output (after evs w) e (IH Ho Hr) He).
Qed.

(** The channel holds one value per slot held, and never more than its
    capacity. *)
Lemma reachable_invariant (w : World) :
  reachable w ->
  (acquires (history w) = releases (history w) + semaphore w)%nat /\
  (semaphore w <= concurrencyLimit)%nat.
Proof.
  induction 1 as [|w Hr [IHa IHb]|w w' Hr [IHa IHb] Hrel|w e Hr [IHa IHb] He].
  - split; [reflexivity | unfold concurrencyLimit; cbn; lia].
  - unfold tryAcquireSemaphore.
    destruct (semaphore w <? concurrencyLimit)%nat eqn:Hlt; cbn.
    + apply Nat.ltb_lt in Hlt; lia.
    + lia.
  - unfold releaseSemaphore in Hrel.
    destruct (semaphore w) as [|n] eqn:Hs; [discriminate|].
    injection Hrel as <-; cbn; lia.
  - destruct e; try discriminate; cbn; lia.
Qed.

Lemma many_acquired (n : nat) :
  (n <= concurrencyLimit)%nat ->
  reachable (mkWorld n (repeat (EvTryAcquire true) n)).
Proof.
  induction n as [|n IH]; intros Hn; [exact reach_init|].
  pose proof (reach_tryAcquire _ (IH ltac:(lia))) as Hr.
  unfold tryAcquireSemaphore in Hr; cbn [semaphore history] in Hr.
  replace (n <? concurrencyLimit)%nat with true in Hr
    by (symmetry; apply Nat.ltb_lt; lia).
  exact Hr.
Qed.

Section Dispatch.

Context {lib : Lib}.
Variable irc : Bot.

(** A pipeline that finds the channel full logs and ends. *)
Lemma title_rejected (target msgid url : string) (w : World) :
  semaphore w = concurrencyLimit ->
  title irc target msgid url w
  = (Returned tt,
     after [EvLog ("concurrency limit exceeded, not titling " ++ url ++ nl);
            EvTryAcquire false] w).
Proof.
  intros Hfull; unfold title, bind, tryAcquireSemaphore.
  rewrite Hfull, Nat.ltb_irrefl; cbn [negb].
  unfold Log_Printf, emit, after; cbn [semaphore history app].
  now rewrite Hfull.
Qed.

(** A pipeline that is admitted: it returns, whatever the resolution does;
    its last step is the one release; what lies between the acquire and the
    release are log lines and sent lines, among them the recovery's line
    when the resolution panics. *)
Lemma title_admitted (target msgid url : string) (w : World) :
  (semaphore w < concurrencyLimit)%nat ->
  exists evs,
    title irc target msgid url w
    = (Returned tt, after (EvRelease :: evs ++ [EvTryAcquire true]) w) /\
    forallb isOutput evs = true /\
    (forall v w2,
        resolve irc target msgid url
          (mkWorld (S (semaphore w)) (EvTryAcquire true :: history w))
        = (Panicking v, w2) ->
        In (panicLine v) evs).
Proof.
  intros Hroom; unfold title, bind, tryAcquireSemaphore.
  apply Nat.ltb_lt in Hroom; rewrite Hroom; cbn [negb].
  set (w1 := mkWorld (S (semaphore w)) (EvTryAcquire true :: history w)).
  destruct (quiet_resolve irc target msgid url w1) as (evs & Hw2 & Ho & Hb).
  unfold defer at 1, deferRecover, defer.
  destruct (resolve irc target msgid url w1) as [[[]|v|] w2]; cbn [fst snd] in *;
    subst w2; [| |now elim Hb].
  - (* the resolution returns *)
    destruct (Debug irc).
    + eexists (EvLog _ :: evs); split; [|split].
      * unfold Log_Printf, emit, releaseSemaphore, after, w1.
        cbn [semaphore history app]. rewrite <- List.app_assoc. reflexivity.
      * exact Ho.
      * discriminate.
    + exists evs; split; [|split].
      * unfold ret, releaseSemaphore, after, w1.
        cbn [semaphore history app]. rewrite <- List.app_assoc. reflexivity.
      * exact Ho.
      * discriminate.
  - (* the resolution panics *)
    destruct (Debug irc).
    + eexists (panicLine v :: EvLog _ :: evs); split; [|split].
      * unfold Log_Printf, emit, releaseSemaphore, after, w1, panicLine.
        cbn [semaphore history app]. rewrite <- List.app_assoc. reflexivity.
      * exact Ho.
      * intros v' w2' [= <- _]; now left.
    + exists (panicLine v :: evs); split; [|split].
      * unfold Log_Printf, emit, ret, releaseSemaphore, after, w1, panicLine.
        cbn [semaphore history app]. rewrite <- List.app_assoc. reflexivity.
      * exact Ho.
      * intros v' w2' [= <- _]; now left.
Qed.

(** Whatever the state, a pipeline returns, makes one acquire attempt, and
    leaves the channel as it found it. *)
Lemma title_returns (target msgid url : string) (w : World) :
  exists w',
    title irc target msgid url w = (Returned tt, w') /\
    semaphore w' = semaphore w /\
    attempts (history w') = S (attempts (history w)) /\
    (reachable w -> reachable w').
Proof.
  destruct (Nat.ltb_spec (semaphore w) concurrencyLimit) as [Hroom|Hfull].
  - destruct (title_admitted target msgid url w Hroom) as (evs & -> & Ho & _).
    eexists; split; [reflexivity|]; split; [reflexivity|]; split.
    + unfold after; cbn [history app]; rewrite <- List.app_assoc.
      cbn [attempts]; rewrite attempts_outputs by assumption; reflexivity.
    + intros Hr.
      pose proof (reach_tryAcquire w Hr) as Hr1.
      unfold tryAcquireSemaphore in Hr1.
      apply Nat.ltb_lt in Hroom; rewrite Hroom in Hr1; cbn [snd] in Hr1.
      pose proof (reachable_after evs _ Ho Hr1) as Hr2.
      eapply reach_release; [exact Hr2|].
      unfold releaseSemaphore, after; cbn [semaphore history app].
      now rewrite <- List.app_assoc.
  - unfold title, bind, tryAcquireSemaphore.
    replace (semaphore w <? concurrencyLimit)%nat with false
      by (symmetry; apply Nat.ltb_ge, Hfull).
    cbn [negb]; eexists; split; [reflexivity|].
    split; [reflexivity|]; split; [reflexivity|].
    intros Hr.
    pose proof (reach_tryAcquire w Hr) as Hr1.
    unfold tryAcquireSemaphore in Hr1.
    replace (semaphore w <? concurrencyLimit)%nat with false in Hr1
      by (symmetry; apply Nat.ltb_ge, Hfull).
    exact (reach_output _ (EvLog _) Hr1 eq_refl).
Qed.

Lemma titleAll_loop_returns (target msgid : string) (urls : list string)
    (w : World) :
  exists w',
    titleAll_loop irc target msgid urls w = (Returned tt, w') /\
    semaphore w' = semaphore w /\
    attempts (history w') = (List.length urls + attempts (history w))%nat /\
    (reachable w -> reachable w').
Proof.
  revert w; induction urls as [|url rest IH]; intros w.
  - exists w; repeat split; auto.
  - destruct (title_returns target msgid url w) as (w1 & Ht & Hs1 & Ha1 & Hr1).
    destruct (IH w1) as (w2 & Hl & Hs2 & Ha2 & Hr2).
    exists w2; cbn [titleAll_loop]; unfold bind; rewrite Ht, Hl.
    repeat split; [congruence | cbn [List.length]; lia | auto].
Qed.

Lemma titleAll_firstn (target msgid : string) (urls : list string) :
  titleAll irc target msgid urls
  = titleAll_loop irc target msgid (firstn maxUrlsPerMessage urls).
Proof.
  unfold titleAll.
  destruct (Nat.ltb_spec maxUrlsPerMessage (List.length urls)) as [Hgt|Hle].
  - reflexivity.
  - now rewrite firstn_all2.
Qed.

End Dispatch.

(** ** The matcher finds matches

    [matches r x y]: the pattern [r] matches the text between the positions
    [x] and [y].  Whatever [run] hands to its continuation is such a [y]. *)

Lemma starGreedy_sound (p : ascii -> bool) (k : Cont) (s : string) :
  forall prev off caps m,
    starGreedy p k prev off s caps = Some m ->
    exists y, starRel p (mkPos prev off s caps) y /\ k y = Some m.
Proof.
  induction s as [|c s' IH]; intros prev off caps m; cbn [starGreedy].
  - intros Hk; eexists; split; [apply star_done | exact Hk].
  - destruct (p c) eqn:Hp.
    + destruct (starGreedy p k (Some c) (S off) s' caps) as [m'|] eqn:Hrec.
      * intros [= <-]; destruct (IH _ _ _ _ Hrec) as (y & Hy & Hk).
        exists y; split; [|exact Hk].
        eapply star_more; [reflexivity | exact Hp | exact Hy].
      * intros Hk; eexists; split; [apply star_done | exact Hk].
    + intros Hk; eexists; split; [apply star_done | exact Hk].
Qed.

Lemma starLazy_sound (p : ascii -> bool) (k : Cont) (s : string) :
  forall prev off caps m,
    starLazy p k prev off s caps = Some m ->
    exists y, starRel p (mkPos prev off s caps) y /\ k y = Some m.
Proof.
  induction s as [|c s' IH]; intros prev off caps m; cbn [starLazy].
  - destruct (k (mkPos prev off "" caps)) as [m'|] eqn:Hk; [|discriminate].
    intros [= <-]; eexists; split; [apply star_done | exact Hk].
  - destruct (k (mkPos prev off (String c s') caps)) as [m'|] eqn:Hk.
    + intros [= <-]; eexists; split; [apply star_done | exact Hk].
    + destruct (p c) eqn:Hp; [|discriminate].
      intros Hrec; destruct (IH _ _ _ _ Hrec) as (y & Hy & Hk').
      exists y; split; [|exact Hk'].
      eapply star_more; [reflexivity | exact Hp | exact Hy].
Qed.

Lemma run_sound (r : regex) :
  forall (k : Cont) (x m : Pos),
    run r k x = Some m -> exists y, matches r x y /\ k y = Some m.
Proof.
  induction r as [|p|r1 IH1 r2 IH2|r1 IH1 r2 IH2|r1 IH1|p|p|n r1 IH1| |];
    intros k x m; cbn [run matches].
  - intros Hk; now exists x.
  - destruct (posRest x) as [|c s'] eqn:Hs; [discriminate|].
    destruct (p c) eqn:Hp; [|discriminate].
    intros Hk; exists (step c s' x); split; [|exact Hk].
    now exists c, s'.
  - intros H; destruct (IH1 _ _ _ H) as (z & Hz & H2).
    destruct (IH2 _ _ _ H2) as (y & Hy & Hk).
    exists y; split; [now exists z | exact Hk].
  - destruct (run r1 k x) as [m'|] eqn:H1.
    + intros [= <-]; destruct (IH1 _ _ _ H1) as (y & Hy & Hk).
      exists y; split; [now left | exact Hk].
    + intros H2; destruct (IH2 _ _ _ H2) as (y & Hy & Hk).
      exists y; split; [now right | exact Hk].
  - destruct (run r1 k x) as [m'|] eqn:H1.
    + intros [= <-]; destruct (IH1 _ _ _ H1) as (y & Hy & Hk).
      exists y; split; [now left | exact Hk].
    + intros Hk; exists x; split; [now right | exact Hk].
  - intros H; destruct x as [prev off s caps]; exact (starGreedy_sound _ _ _ _ _ _ _ H).
  - intros H; destruct x as [prev off s caps]; exact (starLazy_sound _ _ _ _ _ _ _ H).
  - intros H; destruct (IH1 _ _ _ H) as (z & Hz & Hk).
    eexists; split; [exists z; split; [exact Hz | reflexivity] | exact Hk].
  - destruct (xorb _ _) eqn:Hb; [|discriminate].
    intros Hk; now exists x.
  - destruct (posRest x) eqn:Hs; [|discriminate].
    intros Hk; now exists x.
Qed.

Lemma consumed_refl (x : Pos) : consumed x x "".
Proof. split; [reflexivity | cbn; lia]. Qed.

Lemma consumed_trans (x y z : Pos) (t u : string) :
  consumed x y t -> consumed y z u -> consumed x z (t ++ u).
Proof.
  intros [Hr1 Ho1] [Hr2 Ho2]; split.
  - now rewrite Hr1, Hr2, StringFacts.app_assoc.
  - rewrite StringFacts.length_app; lia.
Qed.

Lemma consumed_step (x : Pos) (c : ascii) (s' : string) :
  posRest x = String c s' -> consumed x (step c s' x) (String c "").
Proof. intros Hs; split; [exact Hs | cbn; lia]. Qed.

Lemma starRel_consumed (p : ascii -> bool) (x y : Pos) :
  starRel p x y -> exists t, consumed x y t.
Proof.
  induction 1 as [x|x c s' y Hs Hp Hrel [t Ht]].
  - exists ""; apply consumed_refl.
  - eexists; eapply consumed_trans; [apply consumed_step, Hs | exact Ht].
Qed.

Lemma matches_consumed (r : regex) :
  forall x y, matches r x y -> exists t, consumed x y t.
Proof.
  induction r as [|p|r1 IH1 r2 IH2|r1 IH1 r2 IH2|r1 IH1|p|p|n r1 IH1| |];
    intros x y; cbn [matches].
  - intros ->; exists ""; apply consumed_refl.
  - intros (c & s' & Hs & _ & ->); eexists; apply consumed_step, Hs.
  - intros (z & H1 & H2).
    destruct (IH1 _ _ H1) as [t Ht], (IH2 _ _ H2) as [u Hu].
    eexists; eapply consumed_trans; eassumption.
  - intros [H|H]; eauto.
  - intros [H| ->]; [eauto | exists ""; apply consumed_refl].
  - apply starRel_consumed.
  - apply starRel_consumed.
  - intros (z & H1 & ->); destruct (IH1 _ _ H1) as [t Ht]; exists t; exact Ht.
  - intros [_ ->]; exists ""; apply consumed_refl.
  - intros [_ ->]; exists ""; apply consumed_refl.
Qed.

Lemma starRel_caps (p : ascii -> bool) (x y : Pos) :
  starRel p x y -> posCaps y = posCaps x.
Proof. induction 1 as [x|x c s' y Hs Hp Hrel IH]; [reflexivity | exact IH]. Qed.

(** A pattern without groups leaves the captures as they are. *)
Lemma matches_caps (r : regex) :
  numSubexp r = 0%nat -> forall x y, matches r x y -> posCaps y = posCaps x.
Proof.
  induction r as [|p|r1 IH1 r2 IH2|r1 IH1 r2 IH2|r1 IH1|p|p|n r1 IH1| |];
    cbn [numSubexp matches]; intros Hn x y.
  - now intros ->.
  - now intros (c & s' & _ & _ & ->).
  - intros (z & H1 & H2).
    rewrite (IH2 ltac:(lia) _ _ H2); apply IH1; [lia | exact H1].
  - intros [H|H]; [apply IH1 | apply IH2]; solve [lia | exact H].
  - intros [H| ->]; [now apply IH1 | reflexivity].
  - apply starRel_caps.
  - apply starRel_caps.
  - discriminate.
  - now intros [_ ->].
  - now intros [_ ->].
Qed.

Lemma located_consumed (str : string) (x y : Pos) (t : string) :
  located str x -> consumed x y t -> located str y.
Proof.
  intros (pre & Hstr & Hlen) [Hr Ho]; exists (pre ++ t); split.
  - now rewrite StringFacts.app_assoc, <- Hr.
  - rewrite StringFacts.length_app; lia.
Qed.

Lemma slice_consumed (str : string) (x y : Pos) (t : string) :
  located str x -> consumed x y t -> slice str (posOff x, posOff y) = t.
Proof.
  intros (pre & Hstr & Hlen) [Hr Ho]; unfold slice; cbn [fst snd].
  rewrite Hstr, Hr, <- Hlen, StringFacts.substring_skip_app.
  replace (posOff y - String.length pre)%nat with (String.length t) by lia.
  apply StringFacts.substring_0_app.
Qed.

Lemma search_found (r : regex) (s : string) :
  forall prev off start m,
    search r prev off s = Some (start, m) ->
    exists prev' s' skipped,
      run r Some (mkPos prev' start s' []) = Some m /\
      s = skipped ++ s' /\ (start = off + String.length skipped)%nat.
Proof.
  induction s as [|c s IH]; intros prev off start m; cbn [search].
  - destruct (run r Some (mkPos prev off "" [])) as [m'|] eqn:Hrun; [|discriminate].
    intros [= <- <-]; exists prev, "", ""; repeat split; [exact Hrun | cbn; lia].
  - destruct (run r Some (mkPos prev off (String c s) [])) as [m'|] eqn:Hrun.
    + intros [= <- <-]; exists prev, (String c s), "".
      repeat split; [exact Hrun | cbn; lia].
    + intros H; destruct (IH _ _ _ _ H) as (prev' & s' & skipped & Hr & -> & ->).
      exists prev', s', (String c skipped); repeat split; [exact Hr | cbn; lia].
Qed.

(** ** Platform classifier *)

Lemma matches_Plus (p : ascii -> bool) (x y : Pos) :
  matches (Plus p) x y ->
  posCaps y = posCaps x /\ exists t, consumed x y t /\ t <> "".
Proof.
  cbn [Plus matches]; intros (z & (c & s' & Hs & Hp & ->) & Hstar).
  split; [exact (starRel_caps _ _ _ Hstar)|].
  destruct (starRel_consumed _ _ _ Hstar) as [t Ht].
  exists (String c "" ++ t); split; [|discriminate].
  eapply consumed_trans; [apply consumed_step, Hs | exact Ht].
Qed.

Lemma numSubexp_chars (f : ascii -> regex) (s : string) :
  (forall c, numSubexp (f c) = 0%nat) -> numSubexp (chars f s) = 0%nat.
Proof.
  intros Hf; induction s as [|c [|c' s'] IH]; cbn [chars numSubexp]; auto.
  rewrite Hf; exact IH.
Qed.

Lemma numSubexp_lit (s : string) : numSubexp (lit s) = 0%nat.
Proof. now apply numSubexp_chars. Qed.

(** A capturing group around a pattern that matches no empty text. *)
Lemma matches_Group_Plus (n : nat) (p : ascii -> bool) (x y : Pos) :
  matches (Group n (Plus p)) x y ->
  exists z t,
    consumed x z t /\ t <> "" /\
    posRest y = posRest z /\ posOff y = posOff z /\
    posCaps y = (n, (posOff x, posOff z)) :: posCaps x.
Proof.
  cbn [matches]; intros (z & Hz & ->).
  destruct (matches_Plus _ _ _ Hz) as (Hcaps & t & Ht & Hne).
  exists z, t; cbn [posRest posOff posCaps]; rewrite Hcaps; auto.
Qed.

(** When [blueskyRe] matches, both groups hold text. *)
Lemma blueskyRe_groups (url : string) (x m : Pos) :
  located url x ->
  run blueskyRe Some x = Some m ->
  exists handle postid,
    handle <> "" /\ postid <> "" /\
    capture 1 (posCaps m) = Some (posOff x + 25, posOff x + 25 + String.length handle)%nat /\
    slice url (posOff x + 25, posOff x + 25 + String.length handle)%nat = handle /\
    exists span2, capture 2 (posCaps m) = Some span2 /\ slice url span2 = postid.
Proof.
  intros Hloc Hrun.
  destruct (run_sound _ _ _ _ Hrun) as (y & Hm & [= ->]).
  change blueskyRe with
    (Seq (lit "https://bsky.app/profile/")
       (Seq (Group 1 (Plus (byteIsNot "/")))
          (Seq (lit "/post/") (Group 2 (Plus (byteIsNot "/")))))) in Hm.
  cbn [matches] in Hm.
  destruct Hm as (z1 & H1 & z2 & H2 & z3 & H3 & H4).
  fold (matches (Plus (byteIsNot "/"))) in H2, H4.
  assert (G2 : matches (Group 1 (Plus (byteIsNot "/"))) z1 z2) by exact H2.
  assert (G4 : matches (Group 2 (Plus (byteIsNot "/"))) z3 m) by exact H4.
  clear H2 H4.
  destruct (matches_Group_Plus _ _ _ _ G2) as (a & t1 & Ca & Ne1 & Ra & Oa & Capa).
  destruct (matches_Group_Plus _ _ _ _ G4) as (b & t2 & Cb & Ne2 & Rb & Ob & Capb).
  destruct (matches_consumed _ _ _ H1) as [l1 C1].
  destruct (matches_consumed _ _ _ H3) as [l2 C3].
  pose proof (matches_caps _ (numSubexp_lit _) _ _ H3) as Cap3.
  pose proof (located_consumed _ _ _ _ Hloc C1) as Loc1.
  assert (Loc3 : located url z3).
  { eapply located_consumed; [|exact C3].
    destruct (located_consumed _ _ _ _ Loc1 Ca) as (pre & Hpre & Hlen).
    exists pre; rewrite Ra, Oa; auto. }
  assert (Hoff1 : (posOff z1 = posOff x + 25)%nat).
  { clear - H1. cbn [lit chars matches lit1] in H1.
    repeat match goal with
           | H : exists _, _ |- _ => destruct H
           | H : _ /\ _ |- _ => destruct H
           end.
    subst; cbn [step posOff]; lia. }
  exists t1, t2; split; [exact Ne1|]; split; [exact Ne2|].
  pose proof (slice_consumed _ _ _ _ Loc1 Ca) as S1.
  pose proof (slice_consumed _ _ _ _ Loc3 Cb) as S2.
  destruct Ca as [_ Oa'].
  rewrite <- Hoff1, <- Oa'.
  split; [|split; [exact S1|]].
  - rewrite Capb, Cap3, Capa; reflexivity.
  - exists (posOff z3, posOff b); split; [|exact S2].
    rewrite Capb; reflexivity.
Qed.

Lemma extractBlueskyData_cases (url : string) :
  extractBlueskyData url = ("", "") \/
  exists handle postid,
    extractBlueskyData url = (handle, postid) /\ handle <> "" /\ postid <> "".
Proof.
  unfold extractBlueskyData, FindStringSubmatch; cbv zeta.
  destruct (search blueskyRe None 0 url) as [[start m]|] eqn:Hsearch.
  - right.
    destruct (search_found _ _ _ _ _ _ Hsearch) as (prev & s' & skipped & Hrun & Hs & Hst).
    assert (Hloc : located url (mkPos prev start s' [])).
    { exists skipped; split; [exact Hs | cbn; lia]. }
    destruct (blueskyRe_groups url _ _ Hloc Hrun)
      as (handle & postid & Hh & Hp & Hc1 & Hs1 & span2 & Hc2 & Hs2).
    exists handle, postid; split; [|now split].
    unfold submatches.
    change (numSubexp blueskyRe) with 2%nat; cbn [seq map List.length Nat.eqb nth].
    cbn [posOff] in Hc1, Hs1; rewrite Hc1, Hc2, Hs1, Hs2; reflexivity.
  - now left.
Qed.

(** ** Social resolver *)

Section Social.

Context {lib : Lib}.

Lemma sendReplyNotice_sends (target msgid text : string) (w : World) :
  sendReplyNotice target msgid text w
  = (Returned tt, after [EvSend (replyNotice target msgid text)] w).
Proof.
  unfold sendReplyNotice, replyNotice; destruct (msgid =? "")%string; reflexivity.
Qed.

Lemma resolveBlueskyHandle_resolved (handle did : string) (w : World) :
  identityResolved handle did ->
  resolveBlueskyHandle handle w = (Returned did, w).
Proof.
  intros (resp & Hget & Hst & Hjson); unfold resolveBlueskyHandle; cbv zeta.
  rewrite Hget, Hst, Hjson; reflexivity.
Qed.

Lemma getBlueskyPost_found (did postid : string) (record : BlueskyPostRecord)
    (w : World) :
  recordFound did postid record ->
  getBlueskyPost did postid w = (Returned (record, None), w).
Proof.
  intros (resp & decoded & Hget & Hst & Hjson & <-).
  unfold getBlueskyPost; cbv zeta.
  rewrite Hget, Hst, Hjson; reflexivity.
Qed.

Lemma titleBluesky_success (target msgid handle postid did : string)
    (record : BlueskyPostRecord) (ts : GoTime) (w : World) :
  identityResolved handle did -> did <> "" ->
  recordFound did postid record ->
  time_Parse IRCv3TimestampFormat (CreatedAt record) = Ok ts ->
  titleBluesky target msgid handle postid w
  = (Returned tt,
     after [EvSend (replyNotice target msgid (blueskyLine handle ts record))] w).
Proof.
  intros Hid Hdid Hrec Hts; unfold titleBluesky, bind.
  rewrite (resolveBlueskyHandle_resolved _ _ _ Hid).
  apply String.eqb_neq in Hdid; rewrite Hdid.
  rewrite (getBlueskyPost_found _ _ _ _ Hrec), Hts; cbv zeta.
  apply sendReplyNotice_sends.
Qed.

Lemma StatusOK_eqb (resp : Response) :
  StatusCode resp <> StatusOK -> (StatusCode resp =? StatusOK) = false.
Proof. apply Z.eqb_neq. Qed.

Lemma titleBluesky_failure (target msgid handle postid : string) :
  (forall ts, time_Parse IRCv3TimestampFormat "" <> Ok ts) ->
  blueskyFailure handle postid ->
  forall w, exists line lines,
    titleBluesky target msgid handle postid w
    = (Returned tt, after (map EvLog (line :: lines)) w).
Proof.
  intros Hempty Hfail w.
  assert (Hzero : exists e, time_Parse IRCv3TimestampFormat "" = Err e).
  { destruct (time_Parse IRCv3TimestampFormat "") as [ts|e] eqn:Hp;
      [now elim (Hempty ts) | now exists e]. }
  destruct Hzero as [e0 Hzero].
  destruct Hfail as [resp Hget Hst|resp e Hget Hst Hjson
                    |did resp Hid Hdid Hget Hst|did resp e Hid Hdid Hget Hst Hjson
                    |did record e Hid Hdid Hrec Hts];
    unfold titleBluesky, bind.
  - unfold resolveBlueskyHandle; cbv zeta.
    rewrite Hget, (StatusOK_eqb _ Hst); cbn.
    eexists _, []; reflexivity.
  - unfold resolveBlueskyHandle; cbv zeta.
    rewrite Hget, Hst, Hjson; cbn.
    eexists _, []; reflexivity.
  - rewrite (resolveBlueskyHandle_resolved _ _ _ Hid).
    apply String.eqb_neq in Hdid; rewrite Hdid.
    unfold getBlueskyPost; cbv zeta.
    rewrite Hget, (StatusOK_eqb _ Hst); cbn.
    rewrite Hzero; cbn.
    eexists _, [_]; reflexivity.
  - rewrite (resolveBlueskyHandle_resolved _ _ _ Hid).
    apply String.eqb_neq in Hdid; rewrite Hdid.
    unfold getBlueskyPost; cbv zeta.
    rewrite Hget, Hst, Hjson; cbn.
    rewrite Hzero; cbn.
    eexists _, [_; _]; reflexivity.
  - rewrite (resolveBlueskyHandle_resolved _ _ _ Hid).
    apply String.eqb_neq in Hdid; rewrite Hdid.
    rewrite (getBlueskyPost_found _ _ _ _ Hrec), Hts; cbn.
    eexists _, []; reflexivity.
Qed.

(** Every run either adds nothing but log lines, or finds every step
    succeed and sends one line. *)
Lemma titleBluesky_outcomes (target msgid handle postid : string) :
  (forall ts, time_Parse IRCv3TimestampFormat "" <> Ok ts) ->
  forall w,
    (exists o lines,
        titleBluesky target msgid handle postid w = (o, after (map EvLog lines) w)) \/
    (exists did record ts,
        identityResolved handle did /\ did <> "" /\
        recordFound did postid record /\
        time_Parse IRCv3TimestampFormat (CreatedAt record) = Ok ts /\
        titleBluesky target msgid handle postid w
        = (Returned tt,
           after [EvSend (replyNotice target msgid (blueskyLine handle ts record))] w)).
Proof.
  intros Hempty w.
  assert (Hzero : exists e, time_Parse IRCv3TimestampFormat "" = Err e).
  { destruct (time_Parse IRCv3TimestampFormat "") as [ts|e] eqn:Hp;
      [now elim (Hempty ts) | now exists e]. }
  destruct Hzero as [e0 Hzero].
  assert (Hnone : forall o : Outcome unit, (o, w) = (o, after (map EvLog []) w))
    by (intros o; now rewrite after_nil).
  destruct (httpClient_Get (resolveHandleURL handle)) as [resp|e|v] eqn:Hget.
  2: { left; unfold titleBluesky, bind, resolveBlueskyHandle; cbv zeta.
       rewrite Hget; cbn. eexists _, [_]; reflexivity. }
  2: { left; unfold titleBluesky, bind, resolveBlueskyHandle; cbv zeta.
       rewrite Hget; cbn. eexists _, []; apply Hnone. }
  destruct (Z.eq_dec (StatusCode resp) StatusOK) as [Hst|Hst].
  2: { left; unfold titleBluesky, bind, resolveBlueskyHandle; cbv zeta.
       rewrite Hget, (StatusOK_eqb _ Hst); cbn. eexists _, [_]; reflexivity. }
  destruct (json_Decode_ResolveHandleResponse (limited resp trustedReadLimit))
    as [did|e] eqn:Hjson.
  2: { left; unfold titleBluesky, bind, resolveBlueskyHandle; cbv zeta.
       rewrite Hget, Hst, Hjson; cbn. eexists _, [_]; reflexivity. }
  assert (Hid : identityResolved handle did) by (exists resp; auto).
  unfold titleBluesky, bind; rewrite (resolveBlueskyHandle_resolved _ _ _ Hid).
  destruct (did =? "")%string eqn:Hdid.
  { left; eexists _, []; apply Hnone. }
  apply String.eqb_neq in Hdid.
  destruct (httpClient_Get (getRecordURL did postid)) as [resp2|e|v] eqn:Hget2.
  2: { left; unfold getBlueskyPost; cbv zeta.
       rewrite Hget2; cbn. eexists _, []; apply Hnone. }
  2: { left; unfold getBlueskyPost; cbv zeta.
       rewrite Hget2; cbn. eexists _, []; apply Hnone. }
  destruct (Z.eq_dec (StatusCode resp2) StatusOK) as [Hst2|Hst2].
  2: { left; unfold getBlueskyPost; cbv zeta.
       rewrite Hget2, (StatusOK_eqb _ Hst2); cbn. rewrite Hzero; cbn.
       eexists _, [_; _]; reflexivity. }
  destruct (json_Decode_GetRecordResponse (limited resp2 trustedReadLimit))
    as [decoded|e] eqn:Hjson2.
  2: { left; unfold getBlueskyPost; cbv zeta.
       rewrite Hget2, Hst2, Hjson2; cbn. rewrite Hzero; cbn.
       eexists _, [_; _; _]; reflexivity. }
  assert (Hrec : recordFound did postid (Value decoded))
    by (exists resp2, decoded; auto).
  rewrite (getBlueskyPost_found _ _ _ _ Hrec).
  destruct (time_Parse IRCv3TimestampFormat (CreatedAt (Value decoded)))
    as [ts|e] eqn:Hts.
  - right; exists did, (Value decoded), ts.
    repeat split; try assumption.
    cbv zeta; apply sendReplyNotice_sends.
  - left; cbn. eexists _, [_]; reflexivity.
Qed.

End Social.

(** ** Generic resolver *)

Section Generic.

Context {lib : Lib}.
Variable irc : Bot.

Lemma titleGeneric_body_events (target msgid url : string) (titleRe : regex)
    (body : string) (w : World) :
  titleGeneric_body irc target msgid url titleRe body w
  = (Returned tt, after (titleEvents irc target msgid url titleRe body) w).
Proof.
  unfold titleGeneric_body, titleEvents, bind; cbv zeta.
  assert (Hnot : forall w0,
    (if negb false && Debug irc
     then Log_Printf ("Can't title " ++ url ++ " : title not found" ++ nl)
     else ret tt) w0
    = (Returned tt,
       after (if Debug irc
              then [EvLog ("Can't title " ++ url ++ " : title not found" ++ nl)]
              else []) w0)).
  { intros w0; cbn [negb andb]; destruct (Debug irc);
      [reflexivity | unfold ret; now rewrite after_nil]. }
  destruct (FindStringSubmatch titleRe body) as [|whole [|raw [|x rest]]];
    cbn [List.length Nat.eqb nth]; unfold ret at 1; try apply Hnot.
  fold (sanitizedTitle raw).
  destruct (String.length (sanitizedTitle raw) =? 0)%nat; cbn [negb].
  - unfold ret at 1; apply Hnot.
  - rewrite sendReplyNotice_sends; reflexivity.
Qed.

Lemma analyzeURL_Ok (url : string) (byteLimit : nat) (titleRe : regex) :
  analyzeURL url = Ok (byteLimit, titleRe) ->
  titleRe = genericTitleRe /\
  (byteLimit = trustedReadLimit \/ byteLimit = genericTitleReadLimit) /\
  exists host, url_Parse url = Ok host.
Proof.
  unfold analyzeURL; destruct (url_Parse url) as [host|e]; [|discriminate].
  cbv zeta; destruct (isGarbageJSDomain _); intros [= <- <-]; eauto.
Qed.

(** A fetch that returns 200 and a body that reads to its end, or to the
    limit, or breaks off with [io.ErrUnexpectedEOF], goes on to the title
    extraction. *)
Lemma titleGeneric_fetched (target msgid url : string) (byteLimit : nat)
    (titleRe : regex) (resp : Response) (body : string) (err : option error) :
  analyzeURL url = Ok (byteLimit, titleRe) ->
  httpClient_Do (genericRequest irc url) = HttpResp resp ->
  StatusCode resp = StatusOK ->
  ReadAll_limited resp byteLimit = (body, err) ->
  err = None \/ err = Some io_ErrUnexpectedEOF ->
  titleGeneric irc target msgid url
  = titleGeneric_body irc target msgid url titleRe body.
Proof.
  intros Han Hdo Hst Hread Herr.
  destruct (analyzeURL_Ok _ _ _ Han) as (_ & _ & host & Hparse).
  unfold titleGeneric, http_NewRequest; rewrite Han, Hparse.
  cbn [Method URL]; fold (genericRequest irc url); rewrite Hdo, Hst.
  rewrite Z.eqb_refl; cbn [negb]; rewrite Hread.
  destruct Herr as [-> | ->]; reflexivity.
Qed.

Lemma genericTitleRe_hello (rest : string) :
  FindStringSubmatch genericTitleRe
    ("<html><head><title>  Hello &amp; World  </title></head>" ++ rest)
  = ["<title>  Hello &amp; World  <"; "  Hello &amp; World  "].
Proof. reflexivity. Qed.

End Generic.

(** ** The time display, the admission controller, the dispatcher and the
    resolvers *)

(** C2 (as amended): the time display is the absolute date
    ([then.Format("2006-01-02")]) exactly when more than 7 days have passed.
    Otherwise it is [humanReadableDuration] of the elapsed time followed by
    [" ago"], and for an elapsed time that lies strictly between the units
    it is compared with, that duration is the whole count of the largest
    unit below the elapsed time, followed by the count of the next smaller
    unit when what is left is above that unit, and by nothing more (a unit
    further down is never written).  90 minutes gives ["1h30m ago"], 1 day
    and 3 hours ["1d3h ago"], 8 days the absolute date. *)
Theorem displayTwitterTime_spec {lib : Lib} (then_ : GoTime) :
  let e := time_Since then_ in
  (7 * 24 * Hour < e ->
   displayTwitterTime then_ = time_Format then_ "2006-01-02") /\
  (e <= 7 * 24 * Hour ->
   displayTwitterTime then_ = humanReadableDuration e ++ " ago") /\
  (forall pre u n post,
      humanDurations = (pre ++ (u, n) :: post)%list ->
      (forall x, In x pre -> e < fst x) ->
      u < e ->
      (forall u' n' rest, post = (u', n') :: rest -> Z.rem e u <> u') ->
      humanReadableDuration e
      = (itoa (Z.quot e u) ++ n) ++ secondUnit (Z.rem e u) post) /\
  (e = 90 * Minute -> displayTwitterTime then_ = "1h30m ago") /\
  (e = 24 * Hour + 3 * Hour -> displayTwitterTime then_ = "1d3h ago") /\
  (e = 8 * 24 * Hour ->
   displayTwitterTime then_ = time_Format then_ "2006-01-02").
Proof.
  cbv zeta; unfold displayTwitterTime; cbv zeta.
  split; [|split; [|split; [|split; [|split]]]].
  - intros He.
    replace (time_Since then_ >? 7 * 24 * Hour) with true
      by (symmetry; rewrite Z.gtb_ltb; now apply Z.ltb_lt).
    reflexivity.
  - intros He.
    replace (time_Since then_ >? 7 * 24 * Hour) with false
      by (symmetry; rewrite Z.gtb_ltb; now apply Z.ltb_ge).
    reflexivity.
  - intros pre u n post Hsplit Hpre Hu _.
    apply (humanReadableDuration_two_units pre post u n); auto.
    intros x Hx; apply Z.lt_le_incl; auto.
  - intros ->; reflexivity.
  - intros ->; reflexivity.
  - intros ->; reflexivity.
Qed.

(** C2 at 90 minutes: the hour is the first unit written, the minute the
    next. *)
Lemma displayTwitterTime_spec_witness :
  humanDurations
  = ([(Hour * 24 * 365, "y"); (Hour * 24, "d")] ++ (Hour, "h")
     :: [(Minute, "m"); (Second, "s"); (Millisecond, "ms")])%list /\
  Hour < 90 * Minute /\
  humanReadableDuration (90 * Minute)
  = (itoa (Z.quot (90 * Minute) Hour) ++ "h")
    ++ secondUnit (Z.rem (90 * Minute) Hour)
         [(Minute, "m"); (Second, "s"); (Millisecond, "ms")].
Proof.
  split; [reflexivity|]; split; [reflexivity|].
  refine (proj1 (proj2 (proj2 (@displayTwitterTime_spec exampleLib (90 * Minute))))
            [(Hour * 24 * 365, "y"); (Hour * 24, "d")] Hour "h"
            [(Minute, "m"); (Second, "s"); (Millisecond, "ms")]
            eq_refl _ eq_refl _).
  - intros x [<- | [<- | []]]; reflexivity.
  - intros u' n' rest [= <- _ _]; discriminate.
Defined.

(** C2, the claim as written fails: 25 hours are rendered ["1d ago"], not
    ["1d1h ago"] (what is left after the day is exactly one hour, and the
    comparison with the unit is strict), and 1 hour and 30 seconds are
    rendered ["1h ago"], not with their two largest non-zero units (only the
    unit next to the first is looked at). *)
Lemma displayTwitterTime_25_hours :
  @displayTwitterTime exampleLib (25 * Hour) = "1d ago" /\
  @displayTwitterTime exampleLib (25 * Hour) <> "1d1h ago" /\
  @displayTwitterTime exampleLib (Hour + 30 * Second) = "1h ago".
Proof.
  split; [reflexivity | split; [discriminate | reflexivity]].
Qed.

(** C10: an elapsed time of at most one millisecond (zero and negative ones
    too) has the empty string for its duration, so the time display is
    [" ago"] alone, and a post that resolves is sent with that time field. *)
Theorem displayTwitterTime_small {lib : Lib} (then_ : GoTime) :
  time_Since then_ <= Millisecond ->
  humanReadableDuration (time_Since then_) = "" /\
  displayTwitterTime then_ = " ago" /\
  forall target msgid handle postid did record w,
    identityResolved handle did -> did <> "" ->
    recordFound did postid record ->
    time_Parse IRCv3TimestampFormat (CreatedAt record) = Ok then_ ->
    titleBluesky target msgid handle postid w
    = (Returned tt,
       after [EvSend (replyNotice target msgid
                        ("(@" ++ handle ++ ", " ++ " ago" ++ ") "
                         ++ ircutils_SanitizeText (Text record) titleCharLimit))]
             w).
Proof.
  intros Hsmall.
  pose proof (humanReadableDuration_small _ Hsmall) as Hd.
  assert (Hdisp : displayTwitterTime then_ = " ago").
  { unfold displayTwitterTime; cbv zeta; rewrite Hd.
    replace (time_Since then_ >? 7 * 24 * Hour) with false; [reflexivity|].
    symmetry; rewrite Z.gtb_ltb; apply Z.ltb_ge.
    unfold Hour, Minute, Second, Millisecond in *; lia. }
  split; [exact Hd|]; split; [exact Hdisp|].
  intros target msgid handle postid did record w Hid Hdid Hrec Hts.
  rewrite (titleBluesky_success target msgid handle postid did record then_ w)
    by assumption.
  unfold blueskyLine; now rewrite Hdisp.
Qed.

(** C10 at a time that is no time ago. *)
Lemma displayTwitterTime_small_witness :
  0 <= Millisecond /\ @displayTwitterTime exampleLib 0 = " ago".
Proof.
  split; [discriminate|].
  exact (proj1 (proj2 (@displayTwitterTime_small exampleLib 0
                         ltac:(discriminate)))).
Defined.

(** C3: in every state the goroutines can reach, the slots held (successful
    acquires minus releases) are the values in the channel and at most 128;
    [tryAcquireSemaphore] returns, with one answer or the other; with 128
    slots held the answer is no, and the pipeline of [title] ends there with
    one log line and nothing sent; and a pipeline leaves a reachable state.*)
Theorem admission_bounded {lib : Lib} (irc : Bot) (w : World) :
  reachable w ->
  outstanding w = Z.of_nat (semaphore w) /\
  outstanding w <= 128 /\
  (exists acquired w',
      tryAcquireSemaphore w = (Returned acquired, w') /\ reachable w') /\
  (outstanding w = 128 ->
   fst (tryAcquireSemaphore w) = Returned false /\
   forall target msgid url,
     title irc target msgid url w
     = (Returned tt,
        after [EvLog ("concurrency limit exceeded, not titling " ++ url ++ nl);
               EvTryAcquire false] w)) /\
  (forall target msgid url,
      reachable (snd (title irc target msgid url w))).
Proof.
  intros Hr; destruct (reachable_invariant w Hr) as [Hcount Hcap].
  assert (Hout : outstanding w = Z.of_nat (semaphore w))
    by (unfold outstanding; lia).
  split; [exact Hout|]; split; [|split; [|split]].
  - rewrite Hout; unfold concurrencyLimit in Hcap; lia.
  - pose proof (reach_tryAcquire w Hr) as Hr'.
    destruct (tryAcquireSemaphore w) as [[b| |] w'] eqn:Htry;
      try (unfold tryAcquireSemaphore in Htry;
           destruct (semaphore w <? concurrencyLimit)%nat; discriminate).
    now exists b, w'.
  - intros Hfull.
    assert (Hsem : semaphore w = concurrencyLimit)
      by (unfold concurrencyLimit; lia).
    split; [|intros; now apply title_rejected].
    unfold tryAcquireSemaphore; now rewrite Hsem, Nat.ltb_irrefl.
  - intros target msgid url.
    destruct (title_returns irc target msgid url w) as (w' & -> & _ & _ & Hr').
    exact (Hr' Hr).
Qed.

(** C3 at the world with every slot held. *)
Lemma admission_bounded_witness :
  reachable fullWorld /\
  outstanding fullWorld = 128 /\
  @title exampleLib exampleBot "#chat" "" "http://page.example/" fullWorld
  = (Returned tt,
     after [EvLog ("concurrency limit exceeded, not titling "
                   ++ "http://page.example/" ++ nl);
            EvTryAcquire false] fullWorld).
Proof.
  split; [exact (many_acquired concurrencyLimit (le_n _))|].
  split; [reflexivity|].
  exact (proj2 (proj1 (proj2 (proj2 (proj2
           (@admission_bounded exampleLib exampleBot fullWorld
              (many_acquired concurrencyLimit (le_n _))))))
           eq_refl)
         "#chat" "" "http://page.example/").
Defined.

(** C4: a pipeline that is admitted returns, whatever its resolution does;
    the release is its last step and the only one (one more release in the
    history than before, the channel as it was found); between the acquire
    and the release there are only log lines and sent lines; and when the
    resolution panics, the recovery's line with the panic value and the
    stack is among them.  No pipeline, admitted or not, ends in a panic. *)
Theorem title_releases_once {lib : Lib} (irc : Bot)
    (target msgid url : string) (w : World) :
  (semaphore w < concurrencyLimit)%nat ->
  (exists evs,
      title irc target msgid url w
      = (Returned tt, after (EvRelease :: evs ++ [EvTryAcquire true]) w) /\
      forallb isOutput evs = true /\
      (forall v w2,
          resolve irc target msgid url
            (mkWorld (S (semaphore w)) (EvTryAcquire true :: history w))
          = (Panicking v, w2) ->
          In (panicLine v) evs)) /\
  releases (history (snd (title irc target msgid url w)))
  = S (releases (history w)) /\
  semaphore (snd (title irc target msgid url w)) = semaphore w /\
  (forall w0, fst (title irc target msgid url w0) = Returned tt).
Proof.
  intros Hroom.
  destruct (title_admitted irc target msgid url w Hroom) as (evs & Ht & Ho & Hp).
  split; [now exists evs|]; rewrite Ht; cbn [snd].
  split; [|split; [reflexivity|]].
  - unfold after; cbn [history app releases]; rewrite <- List.app_assoc.
    now rewrite releases_outputs.
  - intros w0; destruct (title_returns irc target msgid url w0) as (w' & -> & _).
    reflexivity.
Qed.

(** C4 at a resolution that panics in the HTTP client. *)
Lemma title_releases_once_witness :
  (semaphore initialWorld < concurrencyLimit)%nat /\
  @title exampleLib exampleBot "#chat" "" "http://panic.example/" initialWorld
  = (Returned tt,
     after [EvRelease;
            EvLog ("Caught panic in callback: "
                   ++ "runtime error: invalid memory address" ++ nl
                   ++ "goroutine 1 [running]");
            EvTryAcquire true] initialWorld) /\
  releases (history (snd (@title exampleLib exampleBot "#chat" ""
                            "http://panic.example/" initialWorld)))
  = S (releases (history initialWorld)).
Proof.
  split; [apply Nat.ltb_lt; reflexivity|].
  split; [vm_compute; reflexivity|].
  exact (proj1 (proj2 (@title_releases_once exampleLib exampleBot "#chat" ""
                         "http://panic.example/" initialWorld
                         (proj1 (Nat.ltb_lt 0 concurrencyLimit) eq_refl)))).
Defined.

(** C9: the dispatcher runs the pipelines of the first 4 URLs, one after the
    other in their order, and of no other: the URLs beyond the fourth are
    dropped before the first pipeline starts.  Every pipeline makes one
    acquire attempt, so a message with 6 URLs leads to 4 attempts. *)
Theorem titleAll_truncates {lib : Lib} (irc : Bot) (target msgid : string)
    (urls : list string) (w : World) :
  titleAll irc target msgid urls
  = titleAll_loop irc target msgid (firstn 4 urls) /\
  titleAll irc target msgid urls = titleAll irc target msgid (firstn 4 urls) /\
  (exists w',
      titleAll irc target msgid urls w = (Returned tt, w') /\
      attempts (history w')
      = (Nat.min 4 (List.length urls) + attempts (history w))%nat) /\
  (forall u1 u2 u3 u4 u5 u6,
      titleAll irc target msgid [u1; u2; u3; u4; u5; u6]
      = (title irc target msgid u1 ;; title irc target msgid u2 ;;
         title irc target msgid u3 ;; title irc target msgid u4 ;; ret tt) /\
      exists w',
        titleAll irc target msgid [u1; u2; u3; u4; u5; u6] w = (Returned tt, w') /\
        attempts (history w') = (4 + attempts (history w))%nat).
Proof.
  pose proof (titleAll_firstn irc target msgid) as Hfirst.
  change maxUrlsPerMessage with 4%nat in Hfirst.
  split; [apply Hfirst|]; split; [|split].
  - rewrite (Hfirst urls), (Hfirst (firstn 4 urls)).
    now rewrite firstn_firstn, Nat.min_id.
  - rewrite (Hfirst urls).
    destruct (titleAll_loop_returns irc target msgid (firstn 4 urls) w)
      as (w' & Hl & _ & Ha & _).
    exists w'; split; [exact Hl|]; now rewrite Ha, length_firstn.
  - intros u1 u2 u3 u4 u5 u6; split; [now rewrite Hfirst|].
    rewrite Hfirst; cbn [firstn].
    destruct (titleAll_loop_returns irc target msgid [u1; u2; u3; u4] w)
      as (w' & Hl & _ & Ha & _).
    exists w'; split; [exact Hl | exact Ha].
Qed.

(** C8: the classifier is a function of the URL with two outcomes.  Either
    it finds no post ([extractBlueskyData] gives two empty strings) and the
    URL goes to the generic resolver, or it finds a handle and a post id,
    both non-empty, and the URL goes to the social resolver.  A profile URL
    without a post segment goes to the generic resolver. *)
Theorem classification_total {lib : Lib} (irc : Bot)
    (target msgid url : string) :
  ((extractBlueskyData url = ("", "") /\
    resolve irc target msgid url = titleGeneric irc target msgid url) \/
   (exists handle postid,
       extractBlueskyData url = (handle, postid) /\
       handle <> "" /\ postid <> "" /\
       resolve irc target msgid url
       = titleBluesky target msgid handle postid)) /\
  extractBlueskyData "https://bsky.app/profile/alice.bsky.social" = ("", "") /\
  resolve irc target msgid "https://bsky.app/profile/alice.bsky.social"
  = titleGeneric irc target msgid "https://bsky.app/profile/alice.bsky.social" /\
  extractBlueskyData "https://bsky.app/profile/alice.bsky.social/post/3kabc"
  = ("alice.bsky.social", "3kabc").
Proof.
  split; [|repeat split; reflexivity].
  unfold resolve.
  destruct (extractBlueskyData_cases url) as [-> | (handle & postid & -> & Hh & Hp)].
  - left; split; reflexivity.
  - right; exists handle, postid; repeat split; try assumption.
    apply String.eqb_neq in Hh; now rewrite Hh.
Qed.

(** C6: after a fetch that returns 200, with the body read through the
    budget (to its end, to the limit, or up to [io.ErrUnexpectedEOF]) and
    matched by the title pattern, the title sent is the first group
    unescaped, then trimmed, then sanitized and cut at 400; when that is
    empty nothing is sent.  A body that starts with
    [<html><head><title>  Hello &amp; World  </title></head>] and lies
    within the budget leads to one notice, with the text [Hello & World]
    (given what the three library functions make of that text).  What the
    extraction adds to the history is a function of the body. *)
Theorem titleGeneric_title {lib : Lib} (irc : Bot)
    (target msgid url : string) (byteLimit : nat) (titleRe : regex)
    (resp : Response) (w : World) :
  analyzeURL url = Ok (byteLimit, titleRe) ->
  httpClient_Do (genericRequest irc url) = HttpResp resp ->
  StatusCode resp = StatusOK ->
  titleRe = genericTitleRe /\
  (forall body err whole raw,
      ReadAll_limited resp byteLimit = (body, err) ->
      err = None \/ err = Some io_ErrUnexpectedEOF ->
      FindStringSubmatch genericTitleRe body = [whole; raw] ->
      let title :=
        ircutils_SanitizeText (strings_TrimSpace (html_UnescapeString raw))
          titleCharLimit in
      (title <> "" ->
       titleGeneric irc target msgid url w
       = (Returned tt, after [EvSend (replyNotice target msgid title)] w)) /\
      (title = "" ->
       exists lines,
         titleGeneric irc target msgid url w
         = (Returned tt, after (map EvLog lines) w))) /\
  (forall rest,
      Body resp
      = "<html><head><title>  Hello &amp; World  </title></head>" ++ rest ->
      (String.length (Body resp) < byteLimit)%nat ->
      BodyErr resp = None ->
      html_UnescapeString "  Hello &amp; World  " = "  Hello & World  " ->
      strings_TrimSpace "  Hello & World  " = "Hello & World" ->
      ircutils_SanitizeText "Hello & World" titleCharLimit = "Hello & World" ->
      titleGeneric irc target msgid url w
      = (Returned tt,
         after [EvSend (replyNotice target msgid "Hello & World")] w)) /\
  (forall body, exists evs, forall w',
      titleGeneric_body irc target msgid url titleRe body w'
      = (Returned tt, after evs w')).
Proof.
  intros Han Hdo Hst.
  destruct (analyzeURL_Ok _ _ _ Han) as (Hre & _ & _).
  split; [exact Hre|]; split; [|split].
  - intros body err whole raw Hread Herr Hmatch title.
    rewrite (titleGeneric_fetched irc target msgid url byteLimit titleRe resp
               body err Han Hdo Hst Hread Herr).
    rewrite titleGeneric_body_events; unfold titleEvents; cbv zeta.
    rewrite Hre, Hmatch; fold (sanitizedTitle raw); fold title.
    change (sanitizedTitle raw) with title.
    split; intros Ht.
    + destruct title as [|c t]; [now elim Ht | reflexivity].
    + rewrite Ht; cbn [String.length Nat.eqb].
      destruct (Debug irc); [eexists [_] | exists []]; reflexivity.
  - intros rest Hbody Hlen Herr Hun Htrim Hsan.
    assert (Hread : ReadAll_limited resp byteLimit = (Body resp, None)).
    { unfold ReadAll_limited; apply Nat.ltb_lt in Hlen; now rewrite Hlen, Herr. }
    rewrite (titleGeneric_fetched irc target msgid url byteLimit titleRe resp
               _ _ Han Hdo Hst Hread (or_introl eq_refl)).
    rewrite titleGeneric_body_events; unfold titleEvents; cbv zeta.
    rewrite Hre, Hbody, genericTitleRe_hello.
    unfold sanitizedTitle; rewrite Hun, Htrim, Hsan; reflexivity.
  - intros body; eexists; intros w'; apply titleGeneric_body_events.
Qed.

(** C6 at the page of the example library. *)
Lemma titleGeneric_title_witness :
  @analyzeURL exampleLib "http://page.example/"
  = Ok (genericTitleReadLimit, genericTitleRe) /\
  @titleGeneric exampleLib exampleBot "#chat" "" "http://page.example/"
    initialWorld
  = (Returned tt,
     after [EvSend (mkMessage [] "NOTICE" ["#chat"; "Hello & World"])]
       initialWorld).
Proof.
  split; [reflexivity|].
  exact (proj1 (proj2 (proj2
           (@titleGeneric_title exampleLib exampleBot "#chat" ""
              "http://page.example/" genericTitleReadLimit genericTitleRe
              (mkResponse 200
                 "<html><head><title>  Hello &amp; World  </title></head>" None)
              initialWorld eq_refl eq_refl eq_refl)))
           "" eq_refl (proj1 (Nat.ltb_lt 55 genericTitleReadLimit) eq_refl)
           eq_refl eq_refl eq_refl eq_refl).
Defined.

(** C7: when the identity call or the record call answers with a status
    other than 200 or with JSON that does not decode, or the creation time
    does not parse under [IRCv3TimestampFormat], the social resolver returns
    with one log line or more and nothing sent; so it does for a 404 from
    the identity call, with one log line.  Whenever it sends a line, the
    identity call, the record call and the parse of the creation time have
    all succeeded.  (After a failed record call the resolver goes on with
    the zero record, whose empty creation time [time.Parse] rejects.) *)
Theorem titleBluesky_aborts {lib : Lib} (target msgid handle postid : string) :
  (forall ts, time_Parse IRCv3TimestampFormat "" <> Ok ts) ->
  (blueskyFailure handle postid ->
   forall w, exists line lines,
     titleBluesky target msgid handle postid w
     = (Returned tt, after (map EvLog (line :: lines)) w)) /\
  (forall resp,
      httpClient_Get (resolveHandleURL handle) = HttpResp resp ->
      StatusCode resp = 404 ->
      forall w, exists line,
        titleBluesky target msgid handle postid w
        = (Returned tt, after [EvLog line] w)) /\
  (forall w,
      (exists o lines,
          titleBluesky target msgid handle postid w
          = (o, after (map EvLog lines) w)) \/
      (exists did record ts,
          identityResolved handle did /\ did <> "" /\
          recordFound did postid record /\
          time_Parse IRCv3TimestampFormat (CreatedAt record) = Ok ts /\
          titleBluesky target msgid handle postid w
          = (Returned tt,
             after [EvSend (replyNotice target msgid
                              (blueskyLine handle ts record))] w))).
Proof.
  intros Hempty; split; [|split].
  - now apply titleBluesky_failure.
  - intros resp Hget Hst w.
    unfold titleBluesky, bind, resolveBlueskyHandle; cbv zeta.
    rewrite Hget, Hst; cbn.
    eexists; reflexivity.
  - now apply titleBluesky_outcomes.
Qed.

(** C7 at a handle whose identity call answers 404. *)
Lemma titleBluesky_aborts_witness :
  (forall ts, @time_Parse exampleLib IRCv3TimestampFormat "" <> Ok ts) /\
  @httpClient_Get exampleLib (resolveHandleURL "gone.example")
  = HttpResp (mkResponse 404 "" None) /\
  exists line,
    @titleBluesky exampleLib "#chat" "" "gone.example" "3k" initialWorld
    = (Returned tt, after [EvLog line] initialWorld).
Proof.
  split; [intros ts; discriminate|].
  split; [reflexivity|].
  exact (proj1 (proj2 (@titleBluesky_aborts exampleLib "#chat" ""
                         "gone.example" "3k"
                         (fun ts => ltac:(discriminate))))
           (mkResponse 404 "" None) eq_refl eq_refl initialWorld).
Defined.

(** ** Text scanner *)

Ltac each_byte c := destruct c as [[] [] [] [] [] [] [] []].

Lemma isSpace_toLower (c : ascii) : isSpace c = true -> toLowerASCII c = c.
Proof. each_byte c; intros H; try reflexivity; discriminate H. Qed.

Lemma fold_not_space (c l : ascii) :
  (toLowerASCII c =? l)%char = true -> isSpace l = false -> isSpace c = false.
Proof.
  intros Heq Hl; destruct (isSpace c) eqn:Hc; [|reflexivity].
  apply Ascii.eqb_eq in Heq; rewrite (isSpace_toLower c Hc) in Heq; congruence.
Qed.

Lemma toLower_colon (c : ascii) : (toLowerASCII c =? ":")%char = (c =? ":")%char.
Proof. each_byte c; reflexivity. Qed.

Lemma toLower_slash (c : ascii) : (toLowerASCII c =? "/")%char = (c =? "/")%char.
Proof. each_byte c; reflexivity. Qed.

Lemma toLower_197 (c : ascii) :
  (toLowerASCII c =? "197")%char = (c =? "197")%char.
Proof. each_byte c; reflexivity. Qed.

Lemma toLower_191 (c : ascii) :
  (toLowerASCII c =? "191")%char = (c =? "191")%char.
Proof. each_byte c; reflexivity. Qed.

Lemma fold_h_word (c : ascii) :
  (toLowerASCII c =? "h")%char = true -> isWord c = true.
Proof. each_byte c; intros H; try reflexivity; discriminate H. Qed.

(** The byte after [http]: an s, the first byte of a long s, a colon, or
    none of these. *)
Lemma after_http_cases (c : ascii) :
  ((toLowerASCII c =? "s")%char = true /\ (c =? "197")%char = false /\
   (c =? ":")%char = false) \/
  ((toLowerASCII c =? "s")%char = false /\ c = "197"%char) \/
  ((toLowerASCII c =? "s")%char = false /\ c = ":"%char) \/
  ((toLowerASCII c =? "s")%char = false /\ (c =? "197")%char = false /\
   (c =? ":")%char = false).
Proof. each_byte c; vm_compute; auto 10. Qed.

Ltac fold_test :=
  match goal with
  | |- context [(toLowerASCII ?c =? ?l)%char] =>
      is_var c;
      let E := fresh "E" in
      destruct (toLowerASCII c =? l)%char eqn:E
  | |- context [(?c =? ?l)%char] =>
      is_var c;
      let E := fresh "E" in
      destruct (c =? l)%char eqn:E; [apply Ascii.eqb_eq in E; subst c|]
  end.

Ltac no_space :=
  unfold noSpace; cbn [list_ascii_of_string forallb];
  repeat match goal with
         | E : (toLowerASCII ?c =? ?l)%char = true |- context [isSpace ?c] =>
             rewrite (fold_not_space c l E eq_refl)
         end;
  reflexivity.

Ltac scheme_finish :=
  split; [reflexivity|]; split; [no_space|]; split; [discriminate|];
  unfold step; cbn [posOff posCaps posRest posPrev String.length Nat.add];
  match goal with
  | |- context [match ?k ?p with Some _ => _ | None => _ end] =>
      destruct (k p); reflexivity
  | |- _ => reflexivity
  end.

Ltac scheme_done :=
  match goal with
  | |- exists t rest,
        String ?c1 (String ?c2 (String ?c3 (String ?c4 (String ?c5
          (String ?c6 (String ?c7 ?r)))))) = _ /\ _ =>
      first
        [ exists (String c1 (String c2 (String c3 (String c4 (String c5
                   (String c6 (String c7 ""))))))), r;
          scheme_finish
        | match r with
          | String ?c8 ?r8 =>
              first
                [ exists (String c1 (String c2 (String c3 (String c4 (String c5
                           (String c6 (String c7 (String c8 "")))))))), r8;
                  scheme_finish
                | match r8 with
                  | String ?c9 ?r9 =>
                      exists (String c1 (String c2 (String c3 (String c4
                                (String c5 (String c6 (String c7 (String c8
                                   (String c9 ""))))))))), r9;
                      scheme_finish
                  end ]
          end ]
  end.

Ltac scheme_walk :=
  cbn -[toLowerASCII];
  rewrite ?toLower_colon, ?toLower_slash, ?toLower_197, ?toLower_191;
  first
    [ reflexivity
    | scheme_done
    | match goal with
      | |- context [match ?s with EmptyString => _ | String _ _ => _ end] =>
          is_var s; destruct s as [|? ?]; scheme_walk
      end
    | fold_test; scheme_walk ].

Lemma run_scheme (k : Cont) (x : Pos) :
  if startsWithScheme (posRest x)
  then exists t rest,
      posRest x = t ++ rest /\ noSpace t = true /\ t <> "" /\
      run schemeRe k x
      = k (mkPos (Some "/"%char) (String.length t + posOff x) rest (posCaps x))
  else run schemeRe k x = None.
Proof.
  destruct x as [prev off s caps]; cbn [posRest posOff posCaps].
  unfold startsWithScheme, schemeRe, litFold, lit, longS; cbn [chars].
  change (fold1 "h") with (Char (fun x => (toLowerASCII x =? "h")%char)).
  change (fold1 "t") with (Char (fun x => (toLowerASCII x =? "t")%char)).
  change (fold1 "p") with (Char (fun x => (toLowerASCII x =? "p")%char)).
  change (fold1 "s") with
    (Alt (Char (fun x => (toLowerASCII x =? "s")%char))
         (Seq (lit1 "197") (lit1 "191"))).
  unfold lit1, byteIs.
  destruct s as [|c1 s]; [reflexivity|].
  cbn -[toLowerASCII]; fold_test; [|reflexivity].
  destruct s as [|c2 s]; [reflexivity|].
  cbn -[toLowerASCII]; fold_test; [|reflexivity].
  destruct s as [|c3 s]; [reflexivity|].
  cbn -[toLowerASCII]; fold_test; [|reflexivity].
  destruct s as [|c4 s]; [reflexivity|].
  cbn -[toLowerASCII]; fold_test; [|reflexivity].
  destruct s as [|c5 s]; [reflexivity|].
  cbn -[toLowerASCII].
  rewrite ?toLower_colon, ?toLower_slash, ?toLower_197, ?toLower_191.
  destruct (after_http_cases c5) as [(A & B & C)|[(A & ->)|[(A & ->)|(A & B & C)]]].
  - rewrite A, B, C. scheme_walk.
  - rewrite A. scheme_walk.
  - rewrite A. scheme_walk.
  - rewrite A, B, C. scheme_walk.
Qed.

Lemma startsWithScheme_first (s : string) :
  startsWithScheme s = true ->
  exists c s', s = String c s' /\ isWord c = true.
Proof.
  destruct s as [|c s']; [discriminate|].
  unfold startsWithScheme, longS; cbn -[toLowerASCII].
  destruct (toLowerASCII c =? "h")%char eqn:E; [|discriminate].
  intros _; exists c, s'; split; [reflexivity | now apply fold_h_word].
Qed.

Lemma isSpace_not_LF (c : ascii) : isSpace c = false -> byteIsNot LF c = true.
Proof. each_byte c; intros H; try reflexivity; discriminate H. Qed.

Lemma noSpace_app (t u : string) :
  noSpace (t ++ u) = noSpace t && noSpace u.
Proof.
  unfold noSpace; induction t as [|c t IH]; [reflexivity|].
  cbn [append list_ascii_of_string forallb]; now rewrite IH, andb_assoc.
Qed.

(** Inside a URL the scanner passes over text without white space. *)
Lemma scanURLs_noSpace (t rest : string) :
  noSpace t = true ->
  forall p u, exists p',
    scanURLs p (Some u) (t ++ rest) = scanURLs p' (Some (u ++ t)) rest /\
    (t = "" -> p' = p).
Proof.
  induction t as [|c t IH]; intros Hns p u.
  - exists p; now rewrite StringFacts.app_empty_r.
  - unfold noSpace in Hns; cbn [list_ascii_of_string forallb] in Hns.
    apply andb_true_iff in Hns as [Hc Ht]; apply negb_true_iff in Hc.
    destruct (IH Ht (Some c) (u ++ String c "")) as (p' & Hp' & _).
    exists p'; split; [|discriminate].
    cbn [append scanURLs]; rewrite Hc, Hp'.
    now rewrite StringFacts.app_assoc.
Qed.

(** The lazy [.*?] of [urlRe] runs to the first white space or to the end:
    [t] is the text it takes, [m] where the match ends. *)
Lemma starLazy_urlRest (start : nat) (s : string) :
  forall prev off caps, exists m t,
    starLazy (byteIsNot LF) (urlRest start) prev off s caps = Some m /\
    capture 1 (posCaps m) = Some (start, off + String.length t)%nat /\
    (exists t', s = t' ++ posRest m /\
                (posOff m = off + String.length t')%nat /\
                (off + String.length t <= posOff m)%nat) /\
    (exists r, s = t ++ r) /\
    (forall p u,
        scanURLs p (Some u) s
        = (u ++ t) :: scanURLs (posPrev m) None (posRest m)).
Proof.
  induction s as [|c s IH]; intros prev off caps.
  - eexists; exists ""; cbn; split; [reflexivity|].
    split; [now rewrite Nat.add_0_r|]; split; [|split].
    + exists ""; cbn; repeat split; lia.
    + now exists "".
    + intros p u; now rewrite StringFacts.app_empty_r.
  - cbn [starLazy]; unfold urlRest at 1; cbn [run posRest posPrev posOff posCaps].
    destruct (isSpace c) eqn:Hc.
    + eexists; exists ""; split; [reflexivity|]; cbn [posCaps posRest posOff posPrev].
      split; [cbn; now rewrite Nat.add_0_r|]; split; [|split].
      * exists (String c ""); cbn; repeat split; lia.
      * now exists (String c s).
      * intros p u; cbn [scanURLs]; now rewrite Hc, StringFacts.app_empty_r.
    + rewrite (isSpace_not_LF c Hc).
      destruct (IH (Some c) (S off) caps) as (m & t & Hrun & Hcap & Hloc & Hpre & Hscan).
      exists m, (String c t); split; [exact Hrun|].
      split; [rewrite Hcap; cbn [String.length]; do 2 f_equal; lia|].
      split; [|split].
      * destruct Hloc as (t' & Hs & Ho & Hle).
        exists (String c t'); cbn [append String.length]; rewrite <- Hs.
        repeat split; lia.
      * destruct Hpre as [r ->]; now exists r.
      * intros p u; cbn [scanURLs]; rewrite Hc, Hscan.
        now rewrite StringFacts.app_assoc.
Qed.

Lemma run_urlRe_unfold (prev : option ascii) (off : nat) (s : string) :
  run urlRe Some (mkPos prev off s [])
  = if xorb (isWordAt prev) (isWordAt (first s))
    then run schemeRe (run (StarLazy (byteIsNot LF)) (urlRest off))
           (mkPos prev off s [])
    else None.
Proof. reflexivity. Qed.

(** A match attempt of [urlRe] at one position: it succeeds exactly where a
    URL starts; [t] is the URL (the first group), [m] where the match ends
    (after the white space that ends the URL, if there is one). *)
Lemma run_urlRe (prev : option ascii) (off : nat) (s : string) :
  if isURLStart prev s
  then exists m t,
      run urlRe Some (mkPos prev off s []) = Some m /\
      capture 1 (posCaps m) = Some (off, off + String.length t)%nat /\
      (exists t', s = t' ++ posRest m /\
                  (posOff m = off + String.length t')%nat /\ t' <> "") /\
      (exists r, s = t ++ r) /\
      scanURLs prev None s = t :: scanURLs (posPrev m) None (posRest m)
  else run urlRe Some (mkPos prev off s []) = None.
Proof.
  rewrite run_urlRe_unfold; unfold isURLStart.
  pose proof (run_scheme (run (StarLazy (byteIsNot LF)) (urlRest off))
                (mkPos prev off s [])) as Hs.
  cbn [posRest posOff posCaps] in Hs.
  destruct (startsWithScheme s) eqn:Hscheme.
  2: { rewrite andb_false_r, Hs; now destruct (xorb _ _). }
  destruct (startsWithScheme_first s Hscheme) as (c & s' & -> & Hword).
  cbn [first isWordAt]; rewrite Hword, xorb_true_r, andb_true_r.
  destruct (isWordAt prev) eqn:Hprev; cbn [negb]; [reflexivity|].
  destruct Hs as (t0 & rest & Hsplit & Hns & Hne & ->); cbn [run].
  cbn [posPrev posOff posRest posCaps].
  destruct (starLazy_urlRest off rest (Some "/"%char)
              (String.length t0 + off) [])
    as (m & t1 & Hrun & Hcap & (t' & Hrest & Hoff & Hle) & (r & Hr) & Hscan).
  exists m, (t0 ++ t1); split; [exact Hrun|].
  split; [rewrite Hcap, StringFacts.length_app; do 2 f_equal; lia|].
  split; [|split].
  - exists (t0 ++ t'); rewrite StringFacts.app_assoc, <- Hrest.
    split; [exact Hsplit|]; split.
    + rewrite StringFacts.length_app; lia.
    + destruct t0; [now elim Hne | discriminate].
  - exists r; now rewrite StringFacts.app_assoc, <- Hr.
  - destruct t0 as [|c0 t0]; [now elim Hne|].
    cbn [append] in Hsplit; injection Hsplit as <- ->.
    cbn [scanURLs]; unfold isURLStart.
    rewrite Hprev, Hscheme; cbn [negb andb].
    assert (Hns' : noSpace t0 = true).
    { unfold noSpace in *; cbn [list_ascii_of_string forallb] in Hns.
      now apply andb_true_iff in Hns. }
    destruct (scanURLs_noSpace t0 rest Hns' (Some c) (String c "")) as (p' & -> & _).
    rewrite Hscan; reflexivity.
Qed.

(** A match of [urlRe] found by the search is not empty. *)
Lemma search_urlRe_nonempty (s : string) (prev : option ascii)
    (pos start : nat) (m : Pos) :
  search urlRe prev pos s = Some (start, m) ->
  (pos <= start /\ start < posOff m)%nat.
Proof.
  intros H; destruct (search_found _ _ _ _ _ _ H)
    as (prev' & s' & skipped & Hrun & _ & ->).
  pose proof (run_urlRe prev' (pos + String.length skipped) s') as Hu.
  destruct (isURLStart prev' s'); [|congruence].
  destruct Hu as (m' & t & Hrun' & _ & (t' & _ & Hoff & Hne) & _).
  assert (m' = m) by congruence; subst m'.
  destruct t'; [now elim Hne|]; cbn [String.length] in Hoff; lia.
Qed.

Lemma allMatches_urlRe_step (fuel : nat) (str : string) (prev : option ascii)
    (pos : nat) (s : string) (pme : option nat) :
  allMatches (S fuel) urlRe str prev pos s pme
  = match search urlRe prev pos s with
    | None => []
    | Some (start, m) =>
        submatches urlRe str start m
        :: allMatches fuel urlRe str (posPrev m) (posOff m) (posRest m)
             (Some (posOff m))
    end.
Proof.
  cbn [allMatches].
  destruct (search urlRe prev pos s) as [[start m]|] eqn:Hsearch; [|reflexivity].
  destruct (search_urlRe_nonempty _ _ _ _ _ Hsearch) as [Hle Hlt].
  replace (posOff m =? pos)%nat with false
    by (symmetry; apply Nat.eqb_neq; lia).
  reflexivity.
Qed.

Lemma submatches_urlRe (str : string) (start : nat) (m : Pos) (span : nat * nat) :
  capture 1 (posCaps m) = Some span ->
  exists whole g2, submatches urlRe str start m = [whole; slice str span; g2].
Proof.
  intros Hcap; unfold submatches.
  change (numSubexp urlRe) with 2%nat; cbn [seq map]; rewrite Hcap.
  eexists _, _; reflexivity.
Qed.

Lemma allMatches_urlRe (str : string) (fuel : nat) :
  forall (s pre : string) (prev : option ascii) (pme : option nat),
    str = pre ++ s ->
    (String.length s < fuel)%nat ->
    findURL_loop (allMatches fuel urlRe str prev (String.length pre) s pme)
    = scanURLs prev None s.
Proof.
  induction fuel as [|fuel IHfuel]; [intros; lia|].
  induction s as [|c s IHs]; intros pre prev pme Hstr Hlen;
    rewrite allMatches_urlRe_step; cbn [search];
    pose proof (run_urlRe prev (String.length pre)) as Hrun.
  - specialize (Hrun "").
    replace (isURLStart prev "") with false in Hrun
      by (symmetry; exact (andb_false_r _)).
    now rewrite Hrun.
  - specialize (Hrun (String c s)).
    destruct (isURLStart prev (String c s)) eqn:Hstart.
    + destruct Hrun as (m & t & -> & Hcap & (t' & Hs & Hoff & Hne) & (r & Hr) & ->).
      destruct (submatches_urlRe str (String.length pre) m _ Hcap)
        as (whole & g2 & ->).
      cbn [findURL_loop List.length Nat.ltb Nat.leb nth].
      f_equal.
      * unfold slice; cbn [fst snd].
        rewrite Hstr, Hr, StringFacts.substring_skip_app.
        replace (String.length pre + String.length t - String.length pre)%nat
          with (String.length t) by lia.
        apply StringFacts.substring_0_app.
      * replace (posOff m) with (String.length (pre ++ t'))
          by (rewrite StringFacts.length_app; lia).
        apply IHfuel.
        -- now rewrite StringFacts.app_assoc, <- Hs.
        -- assert (String.length (String c s)
                   = (String.length t' + String.length (posRest m))%nat)
             by (rewrite Hs at 1; apply StringFacts.length_app).
           destruct t'; [now elim Hne|]; cbn [String.length] in *; lia.
    + rewrite Hrun.
      specialize (IHs (pre ++ String c "") (Some c) pme).
      rewrite allMatches_urlRe_step in IHs.
      replace (String.length (pre ++ String c "")) with (S (String.length pre)) in IHs
        by (rewrite StringFacts.length_app; cbn; lia).
      rewrite IHs.
      * cbn [scanURLs]; now rewrite Hstart.
      * now rewrite StringFacts.app_assoc.
      * cbn [String.length] in Hlen; lia.
Qed.

Lemma scanURLs_no_scheme (s : string) :
  containsScheme s = false -> forall prev, scanURLs prev None s = [].
Proof.
  induction s as [|c s IH]; intros Hno prev; [reflexivity|].
  cbn [containsScheme] in Hno; apply orb_false_iff in Hno as [Hhere Hlater].
  cbn [scanURLs]; unfold isURLStart; rewrite Hhere, andb_false_r.
  now apply IH.
Qed.

(** C5 (as amended): [findURL] returns what the scanner [scanURLs] returns:
    in the order of the text, the stretches that begin, after a byte that is
    no word byte or at the start of the text, with [http://] or [https://] in
    either case, and extend to the next white space byte ([\t], [\n], [\f],
    [\r], space), which they exclude, or to the end of the text; a stretch
    does not start inside another.  (Under Go's case folding the long s,
    U+017F, counts as an s of the scheme.)  The example of the specification
    yields its two URLs; a text in which no stretch begins with the scheme
    yields none. *)
Theorem findURL_spec (str : string) :
  findURL str = scanURLs None None str /\
  findURL "check https://a.example/x and https://b.example/y"
  = ["https://a.example/x"; "https://b.example/y"] /\
  (containsScheme str = false -> findURL str = []).
Proof.
  assert (Hscan : findURL str = scanURLs None None str).
  { unfold findURL, FindAllStringSubmatch.
    apply (allMatches_urlRe str (S (String.length str)) str "");
      [reflexivity | lia]. }
  split; [exact Hscan|]; split; [reflexivity|].
  intros Hno; rewrite Hscan; now apply scanURLs_no_scheme.
Qed.

(** C5 at a text without a scheme. *)
Lemma findURL_spec_witness :
  containsScheme "no address in this message" = false /\
  findURL "no address in this message" = [].
Proof.
  split; [reflexivity|].
  exact (proj2 (proj2 (findURL_spec "no address in this message")) eq_refl).
Defined.

(** C5, the claim as written fails: [http://a.example/] begins with
    [http://] and extends to the end of ["xhttp://a.example/"], but it
    follows a word byte and is not returned. *)
Lemma findURL_after_word_byte :
  findURL "xhttp://a.example/" = [] /\
  "xhttp://a.example/" = "x" ++ "http://a.example/".
Proof. split; reflexivity. Qed.

(** * Further properties *)

(** ** Fetch policy *)

Lemma isGarbageJSDomain_loop_iff (domains : list string) (host : string) :
  isGarbageJSDomain_loop domains host = true <->
  exists d, In d domains /\ domainMatch host d = true.
Proof.
  induction domains as [|d rest IH]; cbn [isGarbageJSDomain_loop In].
  - split; [discriminate | now intros (d & [] & _)].
  - destruct (domainMatch host d) eqn:Hd.
    + split; [intros _; exists d; auto | reflexivity].
    + rewrite IH; split.
      * intros (d' & Hin & Hm); exists d'; auto.
      * intros (d' & [<- | Hin] & Hm); [congruence | exists d'; auto].
Qed.

Lemma garbageJSDomains_nonempty (d : string) :
  In d garbageJSDomains -> d <> "".
Proof.
  intros Hin; unfold garbageJSDomains in Hin; cbn [In] in Hin.
  repeat (destruct Hin as [<- | Hin]; [discriminate|]); contradiction.
Qed.

Lemma isGarbageJSDomain_inDomain (host : string) :
  isGarbageJSDomain host = true <->
  exists d, In d garbageJSDomains /\ inDomain host d.
Proof.
  unfold isGarbageJSDomain; rewrite isGarbageJSDomain_loop_iff.
  split; intros (d & Hin & H); exists d; (split; [exact Hin|]).
  - now apply (domainMatch_iff host d (garbageJSDomains_nonempty d Hin)).
  - now apply (domainMatch_iff host d (garbageJSDomains_nonempty d Hin)).
Qed.

(** X1: a host is on the list of script-heavy domains exactly when it is one
    of the nine domains or ends with a dot and one of them. *)
Theorem isGarbageJSDomain_iff (host : string) :
  isGarbageJSDomain host = true <->
  exists d, In d garbageJSDomains /\ inDomain host d.
Proof.
  unfold isGarbageJSDomain; rewrite isGarbageJSDomain_loop_iff.
  split; intros (d & Hin & H); exists d; (split; [exact Hin|]).
  - now apply (domainMatch_iff host d (garbageJSDomains_nonempty d Hin)).
  - now apply (domainMatch_iff host d (garbageJSDomains_nonempty d Hin)).
Qed.

Lemma limits_differ : trustedReadLimit <> genericTitleReadLimit.
Proof.
  intros H; apply (f_equal (fun n => (n <=? genericTitleReadLimit)%nat)) in H.
  vm_compute in H; discriminate.
Qed.

(** X2: [analyzeURL] fails exactly when the URL does not parse; otherwise
    the pattern is the title pattern and the budget is one of the two.  It
    is the extended one exactly when the host, without its port and in
    lower case, is one of the nine domains or a subdomain of one. *)
Theorem analyzeURL_policy {lib : Lib} (url : string) :
  (forall e, analyzeURL url = Err e <-> url_Parse url = Err e) /\
  (forall byteLimit titleRe,
      analyzeURL url = Ok (byteLimit, titleRe) ->
      titleRe = genericTitleRe /\
      (byteLimit = trustedReadLimit \/ byteLimit = genericTitleReadLimit)) /\
  (forall titleRe,
      analyzeURL url = Ok (trustedReadLimit, titleRe) <->
      titleRe = genericTitleRe /\
      exists host d,
        url_Parse url = Ok host /\ In d garbageJSDomains /\
        inDomain (strings_ToLower (stripPort host)) d).
Proof.
  unfold analyzeURL, stripPort.
  pose proof limits_differ as Hdiff; revert Hdiff.
  generalize trustedReadLimit as T, genericTitleReadLimit as G; intros T G Hdiff.
  destruct (url_Parse url) as [host|e0]; cbv zeta.
  2: { split; [|split].
       - intros e; split; congruence.
       - discriminate.
       - intros re; split; [discriminate | now intros (_ & h & d & [=] & _)]. }
  set (h := strings_ToLower _).
  pose proof (isGarbageJSDomain_inDomain h) as Hg.
  destruct (isGarbageJSDomain h).
  - split; [|split].
    + intros e; split; discriminate.
    + intros l re [= <- <-]; auto.
    + intros re; split.
      * intros [= <-]; split; [reflexivity|].
        destruct (proj1 Hg eq_refl) as (d & Hin & Hd); now exists host, d.
      * now intros [-> _].
  - split; [|split].
    + intros e; split; discriminate.
    + intros l re [= <- <-]; auto.
    + intros re; split.
      * intros [= H _]; now elim Hdiff.
      * intros (_ & host' & d & [= <-] & Hin & Hd).
        assert (false = true) by (apply Hg; now exists d); discriminate.
Qed.

(** ** Lines sent *)

Lemma sends_app (a b : list Event) : sends (a ++ b) = (sends a ++ sends b)%list.
Proof.
  induction a as [|e a IH]; [reflexivity|].
  destruct e; cbn [app sends]; now rewrite IH.
Qed.

Lemma sends_logs (lines : list string) : sends (map EvLog lines) = [].
Proof. induction lines; [reflexivity | exact IHlines]. Qed.

Lemma sendsOnly_weaken (P Q : list Message -> Prop) {A} (m : M A) :
  (forall l, P l -> Q l) -> sendsOnly P m -> sendsOnly Q m.
Proof.
  intros HPQ Hm w; destruct (Hm w) as (o & evs & H1 & H2 & H3 & H4).
  exists o, evs; auto.
Qed.

Lemma silent_ret {A} (a : A) : silent (ret a).
Proof.
  intros w; exists (Returned a), []; rewrite after_nil.
  repeat split; discriminate.
Qed.

Lemma silent_panic {A} (v : string) : silent (@panic A v).
Proof.
  intros w; exists (Panicking v), []; rewrite after_nil.
  repeat split; discriminate.
Qed.

Lemma silent_Log_Printf (line : string) : silent (Log_Printf line).
Proof.
  intros w; exists (Returned tt), [EvLog line]; repeat split; discriminate.
Qed.

(** A computation that sends nothing, followed by another. *)
Lemma sendsOnly_bind_silent (P : list Message -> Prop) {A B}
    (m : M A) (f : A -> M B) :
  P [] -> silent m -> (forall a, sendsOnly P (f a)) -> sendsOnly P (bind m f).
Proof.
  intros HP Hm Hf w; unfold bind.
  destruct (Hm w) as (o & evs1 & -> & Ho1 & Hb1 & Hs1).
  destruct o as [a|v|]; [| |now elim Hb1].
  - destruct (Hf a (after evs1 w)) as (o2 & evs2 & -> & Ho2 & Hb2 & Hs2).
    exists o2, (evs2 ++ evs1)%list; rewrite after_after, forallb_app, Ho1, Ho2.
    repeat split; try assumption.
    now rewrite sends_app, Hs1, app_nil_r.
  - exists (Panicking v), evs1; repeat split; try assumption; [discriminate|].
    now rewrite Hs1.
Qed.

(** A computation, followed by one that sends nothing. *)
Lemma sendsOnly_bind_then_silent (P : list Message -> Prop) {A B}
    (m : M A) (f : A -> M B) :
  sendsOnly P m -> (forall a, silent (f a)) -> sendsOnly P (bind m f).
Proof.
  intros Hm Hf w; unfold bind.
  destruct (Hm w) as (o & evs1 & -> & Ho1 & Hb1 & Hs1).
  destruct o as [a|v|]; [| |now elim Hb1].
  - destruct (Hf a (after evs1 w)) as (o2 & evs2 & -> & Ho2 & Hb2 & Hs2).
    exists o2, (evs2 ++ evs1)%list; rewrite after_after, forallb_app, Ho1, Ho2.
    repeat split; try assumption.
    now rewrite sends_app, Hs2.
  - exists (Panicking v), evs1; repeat split; try assumption; discriminate.
Qed.

Lemma oneReply_nil (target msgid : string) : oneReply target msgid [].
Proof. now left. Qed.

Lemma silent_oneReply (target msgid : string) {A} (m : M A) :
  silent m -> sendsOnly (oneReply target msgid) m.
Proof. apply sendsOnly_weaken; intros l ->; apply oneReply_nil. Qed.

Create HintDb sends.
#[export] Hint Resolve silent_ret silent_panic silent_Log_Printf oneReply_nil
  : sends.

Ltac sends_step :=
  match goal with
  | |- sendsOnly (fun l => l = []) ?m => change (silent m)
  | |- sendsOnly _ (match ?x with _ => _ end) => destruct x
  | |- sendsOnly _ (let '(_, _) := ?x in _) => destruct x
  | |- silent (match ?x with _ => _ end) => destruct x
  | |- silent (bind _ _) =>
      apply sendsOnly_bind_silent; [reflexivity| |intros]
  | |- sendsOnly (oneReply _ _) (bind _ _) =>
      first [ apply sendsOnly_bind_silent;
              [apply oneReply_nil | solve [auto with sends] | intros]
            | apply sendsOnly_bind_then_silent; [|intros] ]
  | |- silent _ => solve [auto with sends]
  | |- sendsOnly (oneReply _ _) _ =>
      solve [auto with sends | apply silent_oneReply; auto with sends]
  end.

Section Sends.

Context {lib : Lib}.
Variable irc : Bot.

Lemma silent_checkErr err message : silent (checkErr err message).
Proof. unfold checkErr; repeat sends_step. Qed.

Lemma oneReply_sendReplyNotice (target msgid text : string) :
  text <> "" -> sendsOnly (oneReply target msgid) (sendReplyNotice target msgid text).
Proof.
  intros Hne w; rewrite sendReplyNotice_sends.
  eexists _, [_]; repeat split; [discriminate|].
  right; now exists text.
Qed.

Hint Resolve silent_checkErr : sends.

Lemma silent_resolveBlueskyHandle handle : silent (resolveBlueskyHandle handle).
Proof. unfold resolveBlueskyHandle; cbv zeta; repeat sends_step. Qed.

Lemma silent_getBlueskyPost did postID : silent (getBlueskyPost did postID).
Proof. unfold getBlueskyPost; cbv zeta; repeat sends_step. Qed.

Hint Resolve silent_resolveBlueskyHandle silent_getBlueskyPost : sends.

Lemma oneReply_titleBluesky target msgid handle postid :
  sendsOnly (oneReply target msgid) (titleBluesky target msgid handle postid).
Proof.
  unfold titleBluesky; cbv zeta; repeat sends_step.
  apply oneReply_sendReplyNotice; discriminate.
Qed.

Lemma oneReply_titleGeneric_body target msgid url titleRe body :
  sendsOnly (oneReply target msgid)
    (titleGeneric_body irc target msgid url titleRe body).
Proof.
  intros w; rewrite titleGeneric_body_events.
  eexists _, _; split; [reflexivity|]; unfold titleEvents; cbv zeta.
  assert (Hnot : forall evs : list Event,
    evs = (if Debug irc
           then [EvLog ("Can't title " ++ url ++ " : title not found" ++ nl)]
           else []) ->
    forallb isOutput evs = true /\ Returned tt <> @Blocked unit /\
    oneReply target msgid (sends evs)).
  { intros evs ->; destruct (Debug irc); repeat split;
      solve [discriminate | now left]. }
  destruct (FindStringSubmatch titleRe body) as [|whole [|raw [|x rest]]];
    try (apply Hnot; reflexivity).
  destruct (String.length (sanitizedTitle raw) =? 0)%nat eqn:Hlen;
    [apply Hnot; reflexivity|].
  repeat split; [discriminate|].
  right; exists (sanitizedTitle raw); split; [|reflexivity].
  intros Hempty; rewrite Hempty in Hlen; discriminate.
Qed.

Hint Resolve oneReply_titleBluesky oneReply_titleGeneric_body : sends.

Lemma oneReply_titleGeneric target msgid url :
  sendsOnly (oneReply target msgid) (titleGeneric irc target msgid url).
Proof. unfold titleGeneric; cbv zeta; repeat sends_step. Qed.

Hint Resolve oneReply_titleGeneric : sends.

Lemma oneReply_resolve target msgid url :
  sendsOnly (oneReply target msgid) (resolve irc target msgid url).
Proof. unfold resolve; repeat sends_step. Qed.

End Sends.

Section DispatchSends.

Context {lib : Lib}.
Variable irc : Bot.

Lemma title_sends (target msgid url : string) (w : World) :
  exists w' evs,
    title irc target msgid url w = (Returned tt, w') /\
    history w' = (evs ++ history w)%list /\
    semaphore w' = semaphore w /\
    oneReply target msgid (sends evs).
Proof.
  unfold title, bind, tryAcquireSemaphore.
  destruct (semaphore w <? concurrencyLimit)%nat; cbn [negb].
  2: { eexists _, [_; _]; repeat split; now left. }
  set (w1 := mkWorld (S (semaphore w)) (EvTryAcquire true :: history w)).
  destruct (oneReply_resolve irc target msgid url w1)
    as (o & evr & Hres & Ho & Hb & Hs).
  unfold defer at 1, deferRecover, defer; rewrite Hres.
  pose (dbg := EvLog ("Titled " ++ url ++ " in "
                      ++ Duration_String (time_Since time_Now) ++ nl)).
  assert (Hfin : forall (extra : list Event),
             sends extra = [] ->
             exists w' evs,
               (Returned tt,
                mkWorld (semaphore w)
                  (EvRelease :: extra ++ evr ++ EvTryAcquire true :: history w)%list)
               = (Returned tt, w') /\
               history w' = (evs ++ history w)%list /\
               semaphore w' = semaphore w /\
               oneReply target msgid (sends evs)).
  { intros extra Hex.
    eexists _, (EvRelease :: extra ++ evr ++ [EvTryAcquire true])%list.
    split; [reflexivity|]; cbn [history semaphore app].
    split; [now rewrite <- !List.app_assoc|]; split; [reflexivity|].
    cbn [sends]; rewrite !sends_app, Hex; cbn [sends app].
    now rewrite app_nil_r. }
  destruct o as [[]|v|]; [| |now elim Hb]; destruct (Debug irc);
    unfold Log_Printf, emit, ret, releaseSemaphore, after, w1;
    cbn [semaphore history app].
  - exact (Hfin [dbg] eq_refl).
  - exact (Hfin [] eq_refl).
  - exact (Hfin [panicLine v; dbg] eq_refl).
  - exact (Hfin [panicLine v] eq_refl).
Qed.

Lemma titleAll_loop_sends (target msgid : string) (urls : list string) :
  forall w, exists w' evs,
    titleAll_loop irc target msgid urls w = (Returned tt, w') /\
    history w' = (evs ++ history w)%list /\
    semaphore w' = semaphore w /\
    (List.length (sends evs) <= List.length urls)%nat /\
    Forall (fun msg => exists text,
                text <> "" /\ msg = replyNotice target msgid text)
           (sends evs).
Proof.
  induction urls as [|url rest IH]; intros w.
  - exists w, []; repeat split; auto.
  - destruct (title_sends target msgid url w) as (w1 & evs1 & Ht & Hh1 & Hs1 & Hr1).
    destruct (IH w1) as (w2 & evs2 & Hl & Hh2 & Hs2 & Hlen & Hall).
    exists w2, (evs2 ++ evs1)%list; cbn [titleAll_loop]; unfold bind.
    rewrite Ht, Hl, Hh2, Hh1, List.app_assoc, sends_app, length_app.
    repeat split; [congruence| |].
    + destruct Hr1 as [-> | (text & _ & ->)]; cbn [List.length]; lia.
    + apply Forall_app; split; [exact Hall|].
      destruct Hr1 as [-> | (text & Hne & ->)]; [constructor|].
      constructor; [now exists text | constructor].
Qed.

(** With the channel full, every pipeline of a message is turned away. *)
Lemma titleAll_loop_rejected (target msgid : string) (urls : list string) :
  forall w, semaphore w = concurrencyLimit ->
    titleAll_loop irc target msgid urls w
    = (Returned tt, after (rejections urls) w).
Proof.
  induction urls as [|url rest IH]; intros w Hfull.
  - now rewrite after_nil.
  - cbn [titleAll_loop rejections]; unfold bind.
    rewrite (title_rejected irc target msgid url w Hfull), IH by exact Hfull.
    now rewrite after_after.
Qed.

End DispatchSends.

(** X3: every pipeline sends at most one line, and what it sends is a
    notice to the target of the message with a text that is not empty,
    tagged as a reply exactly when the message had an id; the pipeline
    returns and leaves the channel as it found it. *)
Theorem title_one_reply {lib : Lib} (irc : Bot) (target msgid url : string)
    (w : World) :
  exists w' evs,
    title irc target msgid url w = (Returned tt, w') /\
    history w' = (evs ++ history w)%list /\
    semaphore w' = semaphore w /\
    (sends evs = [] \/
     exists text,
       text <> "" /\
       sends evs
       = [mkMessage (if (msgid =? "")%string then []
                     else [(replyTagName, msgid)])
            "NOTICE" [target; text]]).
Proof.
  destruct (title_sends irc target msgid url w) as (w' & evs & Ht & Hh & Hs & Hr).
  exists w', evs; repeat split; try assumption.
  destruct Hr as [-> | (text & Hne & ->)]; [now left|].
  right; exists text; split; [exact Hne|].
  unfold replyNotice; now destruct (msgid =? "")%string.
Qed.

(** X4: one chat message leads to at most four notices (at most one for
    each of its first four URLs), all of them replies to that message with
    a text that is not empty; the dispatcher returns and leaves the channel
    as it found it. *)
Theorem titleAll_replies {lib : Lib} (irc : Bot) (target msgid : string)
    (urls : list string) (w : World) :
  exists w' evs,
    titleAll irc target msgid urls w = (Returned tt, w') /\
    history w' = (evs ++ history w)%list /\
    semaphore w' = semaphore w /\
    (List.length (sends evs) <= Nat.min 4 (List.length urls))%nat /\
    Forall (fun msg => exists text,
                text <> "" /\ msg = replyNotice target msgid text)
           (sends evs).
Proof.
  rewrite titleAll_firstn; change maxUrlsPerMessage with 4%nat.
  destruct (titleAll_loop_sends irc target msgid (firstn 4 urls) w)
    as (w' & evs & Hl & Hh & Hs & Hlen & Hall).
  exists w', evs; rewrite length_firstn in Hlen; auto.
Qed.

(** X5: while all 128 slots are held, a message's URLs are dropped: for each
    of the first four, in their order, one acquire attempt that fails and
    one log line that names the URL, and nothing is sent. *)
Theorem titleAll_rejected {lib : Lib} (irc : Bot) (target msgid : string)
    (urls : list string) (w : World) :
  semaphore w = concurrencyLimit ->
  titleAll irc target msgid urls w
  = (Returned tt, after (rejections (firstn 4 urls)) w) /\
  sends (rejections (firstn 4 urls)) = [] /\
  logged (rejections (firstn 4 urls))
  = rev (map (fun url => "concurrency limit exceeded, not titling " ++ url ++ nl)
             (firstn 4 urls)).
Proof.
  intros Hfull; rewrite titleAll_firstn; change maxUrlsPerMessage with 4%nat.
  split; [now apply titleAll_loop_rejected|].
  generalize (firstn 4 urls) as us; intros us.
  assert (Hs : forall a b, sends (a ++ b) = (sends a ++ sends b)%list)
    by exact sends_app.
  assert (Hl : forall a b, logged (a ++ b) = (logged a ++ logged b)%list).
  { induction a as [|e a IH]; intros b; [reflexivity|].
    destruct e; cbn [app logged]; now rewrite IH. }
  induction us as [|u us [IHs IHl]]; [split; reflexivity|].
  cbn [rejections map rev]; rewrite Hs, Hl, IHs, IHl; split; reflexivity.
Qed.

Lemma titleAll_rejected_witness :
  semaphore fullWorld = concurrencyLimit /\
  @titleAll exampleLib exampleBot "#chat" "" ["http://a.example/"] fullWorld
  = (Returned tt, after (rejections ["http://a.example/"]) fullWorld).
Proof.
  split; [reflexivity|].
  exact (proj1 (@titleAll_rejected exampleLib exampleBot "#chat" ""
                  ["http://a.example/"] fullWorld eq_refl)).
Defined.

(** ** Generic resolver *)

(** X6: the generic resolver adds at most one event to the history, a log
    line or a notice.  It sends a notice only after the URL parsed, the
    fetch returned 200, the body was read (to its end, to the budget or up
    to [io.ErrUnexpectedEOF]) and matched the title pattern, and the
    sanitized title is not empty; the notice carries that title. *)
Theorem titleGeneric_outcomes {lib : Lib} (irc : Bot)
    (target msgid url : string) (w : World) :
  exists o evs,
    titleGeneric irc target msgid url w = (o, after evs w) /\
    (List.length evs <= 1)%nat /\
    (sends evs = [] \/
     exists byteLimit resp body err whole raw,
       analyzeURL url = Ok (byteLimit, genericTitleRe) /\
       httpClient_Do (genericRequest irc url) = HttpResp resp /\
       StatusCode resp = StatusOK /\
       ReadAll_limited resp byteLimit = (body, err) /\
       (err = None \/ err = Some io_ErrUnexpectedEOF) /\
       FindStringSubmatch genericTitleRe body = [whole; raw] /\
       sanitizedTitle raw <> "" /\
       o = Returned tt /\
       evs = [EvSend (replyNotice target msgid (sanitizedTitle raw))]).
Proof.
  pose (Q := fun (o : Outcome unit) (evs : list Event) =>
    exists byteLimit resp body err whole raw,
      analyzeURL url = Ok (byteLimit, genericTitleRe) /\
      httpClient_Do (genericRequest irc url) = HttpResp resp /\
      StatusCode resp = StatusOK /\
      ReadAll_limited resp byteLimit = (body, err) /\
      (err = None \/ err = Some io_ErrUnexpectedEOF) /\
      FindStringSubmatch genericTitleRe body = [whole; raw] /\
      sanitizedTitle raw <> "" /\
      o = Returned tt /\
      evs = [EvSend (replyNotice target msgid (sanitizedTitle raw))]).
  change (exists o evs,
             titleGeneric irc target msgid url w = (o, after evs w) /\
             (List.length evs <= 1)%nat /\ (sends evs = [] \/ Q o evs)).
  assert (Hlog : forall (o : Outcome unit) line,
             exists o' evs,
               (o, after [EvLog line] w) = (o', after evs w) /\
               (List.length evs <= 1)%nat /\
               (sends evs = [] \/ Q o' evs)).
  { intros o line; exists o, [EvLog line]; repeat split; [cbn; lia | now left]. }
  assert (Hnone : forall (o : Outcome unit),
             exists o' evs,
               (o, w) = (o', after evs w) /\
               (List.length evs <= 1)%nat /\
               (sends evs = [] \/ Q o' evs)).
  { intros o; exists o, []; rewrite after_nil; repeat split; [cbn; lia | now left]. }
  destruct (analyzeURL url) as [[byteLimit titleRe]|e] eqn:Han.
  2: { unfold titleGeneric; rewrite Han; cbn. apply Hlog. }
  destruct (analyzeURL_Ok _ _ _ Han) as (-> & _ & host & Hparse).
  unfold titleGeneric, http_NewRequest; rewrite Han, Hparse.
  cbn [Method URL]; fold (genericRequest irc url).
  destruct (httpClient_Do (genericRequest irc url)) as [resp|e|v] eqn:Hdo.
  2: { cbn; apply Hlog. }
  2: { apply Hnone. }
  destruct (Z.eq_dec (StatusCode resp) StatusOK) as [Hst|Hst].
  2: { rewrite (StatusOK_eqb _ Hst); cbn [negb].
       destruct (Debug irc); [apply Hlog | apply Hnone]. }
  rewrite Hst, Z.eqb_refl; cbn [negb].
  destruct (ReadAll_limited resp byteLimit) as [body err] eqn:Hread.
  assert (Hbody : err = None \/ err = Some io_ErrUnexpectedEOF ->
    exists o evs,
      titleGeneric_body irc target msgid url genericTitleRe body w
      = (o, after evs w) /\
      (List.length evs <= 1)%nat /\ (sends evs = [] \/ Q o evs)).
  { intros Herr; rewrite titleGeneric_body_events.
    eexists _, _; split; [reflexivity|]; unfold titleEvents; cbv zeta.
    assert (Hnot : forall evs : list Event,
      evs = (if Debug irc
             then [EvLog ("Can't title " ++ url ++ " : title not found" ++ nl)]
             else []) ->
      (List.length evs <= 1)%nat /\ (sends evs = [] \/ Q (Returned tt) evs)).
    { intros evs ->; destruct (Debug irc); split;
        solve [cbn; lia | now left]. }
    destruct (FindStringSubmatch genericTitleRe body)
      as [|whole [|raw [|x rest]]] eqn:Hm; try (apply Hnot; reflexivity).
    destruct (String.length (sanitizedTitle raw) =? 0)%nat eqn:Hlen;
      [apply Hnot; reflexivity|].
    split; [cbn; lia|]; right.
    exists byteLimit, resp, body, err, whole, raw.
    repeat split; try assumption.
    intros Hempty; rewrite Hempty in Hlen; discriminate. }
  destruct err as [[|msg]|]; [apply Hbody; now right | cbn; apply Hlog |
                             apply Hbody; now left].
Qed.

(** ** Social resolver *)

(** X7: [resolveBlueskyHandle] returns the decoded identifier after a 200
    response with JSON that decodes, without logging; after a transport
    error, a status other than 200 or JSON that does not decode it returns
    the empty string and logs one line; it sends nothing. *)
Theorem resolveBlueskyHandle_outcomes {lib : Lib} (handle : string) (w : World) :
  (exists did,
      identityResolved handle did /\
      resolveBlueskyHandle handle w = (Returned did, w)) \/
  (exists line,
      (forall did, ~ identityResolved handle did) /\
      resolveBlueskyHandle handle w = (Returned "", after [EvLog line] w)) \/
  (exists v,
      httpClient_Get (resolveHandleURL handle) = HttpPanic v /\
      resolveBlueskyHandle handle w = (Panicking v, w)).
Proof.
  unfold resolveBlueskyHandle, identityResolved; cbv zeta.
  destruct (httpClient_Get (resolveHandleURL handle)) as [resp|e|v] eqn:Hget.
  - destruct (Z.eq_dec (StatusCode resp) StatusOK) as [Hst|Hst].
    + rewrite Hst, Z.eqb_refl; cbn [negb].
      destruct (json_Decode_ResolveHandleResponse (limited resp trustedReadLimit))
        as [did|e] eqn:Hjson.
      * left; exists did; split; [now exists resp | reflexivity].
      * right; left; eexists; split; [|reflexivity].
        intros did (resp' & [= <-] & _ & Hj); congruence.
    + rewrite (StatusOK_eqb _ Hst); cbn [negb].
      right; left; eexists; split; [|reflexivity].
      intros did (resp' & [= <-] & Hst' & _); contradiction.
  - right; left; eexists; split; [|reflexivity].
    intros did (resp' & [=] & _).
  - right; right; exists v; split; reflexivity.
Qed.

(** X8: [getBlueskyPost] returns an error only when the HTTP call itself
    fails, and then logs nothing.  After a status other than 200 and after
    JSON that does not decode it logs (one line, two lines) and returns the
    zero record with a [nil] error; after a 200 response with JSON that
    decodes it returns the decoded record. *)
Theorem getBlueskyPost_outcomes {lib : Lib} (did postID : string) (w : World) :
  match httpClient_Get (getRecordURL did postID) with
  | HttpErr e =>
      getBlueskyPost did postID w = (Returned (zeroRecord, Some e), w)
  | HttpPanic v => getBlueskyPost did postID w = (Panicking v, w)
  | HttpResp resp =>
      if StatusCode resp =? StatusOK then
        match json_Decode_GetRecordResponse (limited resp trustedReadLimit) with
        | Ok decoded =>
            getBlueskyPost did postID w = (Returned (Value decoded, None), w)
        | Err e =>
            exists line1 line2,
              getBlueskyPost did postID w
              = (Returned (zeroRecord, None), after [EvLog line2; EvLog line1] w)
        end
      else
        exists line,
          getBlueskyPost did postID w
          = (Returned (zeroRecord, None), after [EvLog line] w)
  end /\
  (forall record e w',
      getBlueskyPost did postID w = (Returned (record, Some e), w') ->
      httpClient_Get (getRecordURL did postID) = HttpErr e).
Proof.
  unfold getBlueskyPost; cbv zeta.
  destruct (httpClient_Get (getRecordURL did postID)) as [resp|e|v].
  - destruct (StatusCode resp =? StatusOK); cbn [negb].
    + destruct (json_Decode_GetRecordResponse (limited resp trustedReadLimit)).
      * split; [reflexivity | discriminate].
      * split; [eexists _, _; reflexivity | discriminate].
    + split; [eexists; reflexivity | discriminate].
  - split; [reflexivity | now intros record e' w' [= _ <- _]].
  - split; [reflexivity | discriminate].
Qed.

(** X9: two ways in which the social resolver ends without a log line and
    without a notice: the identity call decodes to an empty identifier, or
    the record call fails in transport. *)
Theorem titleBluesky_silent_aborts {lib : Lib}
    (target msgid handle postid : string) (w : World) :
  (identityResolved handle "" ->
   titleBluesky target msgid handle postid w = (Returned tt, w)) /\
  (forall did e,
      identityResolved handle did -> did <> "" ->
      httpClient_Get (getRecordURL did postid) = HttpErr e ->
      titleBluesky target msgid handle postid w = (Returned tt, w)).
Proof.
  split.
  - intros Hid; unfold titleBluesky, bind.
    now rewrite (resolveBlueskyHandle_resolved _ _ _ Hid).
  - intros did e Hid Hdid Hget; unfold titleBluesky, bind.
    rewrite (resolveBlueskyHandle_resolved _ _ _ Hid).
    apply String.eqb_neq in Hdid; rewrite Hdid.
    unfold getBlueskyPost; cbv zeta; now rewrite Hget.
Qed.

Lemma titleBluesky_silent_aborts_witness :
  @identityResolved exampleLib "alice.example" "did:plc:alice" /\
  @httpClient_Get exampleLib (getRecordURL "did:plc:alice" "zz")
  = HttpErr (errorString "no such host") /\
  @titleBluesky exampleLib "#chat" "" "alice.example" "zz" initialWorld
  = (Returned tt, initialWorld).
Proof.
  assert (Hid : @identityResolved exampleLib "alice.example" "did:plc:alice").
  { exists (mkResponse 200 "did:plc:alice" None); repeat split. }
  split; [exact Hid|]; split; [reflexivity|].
  exact (proj2 (@titleBluesky_silent_aborts exampleLib "#chat" ""
                  "alice.example" "zz" initialWorld)
           "did:plc:alice" (errorString "no such host") Hid
           ltac:(discriminate) eq_refl).
Defined.

(** ** Time display *)

Lemma append_nonempty (a b c : string) : b <> "" -> (a ++ b) ++ c <> "".
Proof.
  intros Hb H; destruct a; cbn in H; [|discriminate].
  destruct b; [now elim Hb | discriminate].
Qed.

(** X10: the duration is the empty string exactly for durations of at most
    one millisecond.  Any longer duration starts with the count, at least 1,
    of the first unit of the table that is strictly below it, and goes on
    with at most the unit next to that one. *)
Theorem humanReadableDuration_shape (d : Z) :
  (humanReadableDuration d = "" <-> d <= Millisecond) /\
  (Millisecond < d ->
   exists pre u n post,
     humanDurations = (pre ++ (u, n) :: post)%list /\
     (forall x, In x pre -> d <= fst x) /\
     u < d /\ 1 <= Z.quot d u /\
     humanReadableDuration d
     = (itoa (Z.quot d u) ++ n) ++ secondUnit (Z.rem d u) post).
Proof.
  assert (Hlong : Millisecond < d ->
    exists pre u n post,
      humanDurations = (pre ++ (u, n) :: post)%list /\
      (forall x, In x pre -> d <= fst x) /\
      u < d /\ 1 <= Z.quot d u /\ n <> "" /\
      humanReadableDuration d
      = (itoa (Z.quot d u) ++ n) ++ secondUnit (Z.rem d u) post).
  { intros Hd.
    assert (Hfind : exists pre u n post,
               humanDurations = (pre ++ (u, n) :: post)%list /\
               (forall x, In x pre -> d <= fst x) /\ u < d /\ 0 < u /\ n <> "").
    { unfold humanDurations.
      destruct (Z_lt_le_dec (Hour * 24 * 365) d) as [H1|H1].
      { exists [], (Hour * 24 * 365), "y"; eexists.
        split; [reflexivity|]; split; [now intros x []|].
        split; [exact H1|]; split; [reflexivity | discriminate]. }
      destruct (Z_lt_le_dec (Hour * 24) d) as [H2|H2].
      { exists [(Hour * 24 * 365, "y")], (Hour * 24), "d"; eexists.
        split; [reflexivity|]; split; [intros x [<- | []]; exact H1|].
        split; [exact H2|]; split; [reflexivity | discriminate]. }
      destruct (Z_lt_le_dec Hour d) as [H3|H3].
      { exists [(Hour * 24 * 365, "y"); (Hour * 24, "d")], Hour, "h"; eexists.
        split; [reflexivity|].
        split; [intros x [<- | [<- | []]]; assumption|].
        split; [exact H3|]; split; [reflexivity | discriminate]. }
      destruct (Z_lt_le_dec Minute d) as [H4|H4].
      { exists [(Hour * 24 * 365, "y"); (Hour * 24, "d"); (Hour, "h")],
               Minute, "m"; eexists.
        split; [reflexivity|].
        split; [intros x [<- | [<- | [<- | []]]]; assumption|].
        split; [exact H4|]; split; [reflexivity | discriminate]. }
      destruct (Z_lt_le_dec Second d) as [H5|H5].
      { exists [(Hour * 24 * 365, "y"); (Hour * 24, "d"); (Hour, "h");
                (Minute, "m")], Second, "s"; eexists.
        split; [reflexivity|].
        split; [intros x [<- | [<- | [<- | [<- | []]]]]; assumption|].
        split; [exact H5|]; split; [reflexivity | discriminate]. }
      exists [(Hour * 24 * 365, "y"); (Hour * 24, "d"); (Hour, "h");
              (Minute, "m"); (Second, "s")], Millisecond, "ms"; eexists.
      split; [reflexivity|].
      split; [intros x [<- | [<- | [<- | [<- | [<- | []]]]]]; assumption|].
      split; [exact Hd|]; split; [reflexivity | discriminate]. }
    destruct Hfind as (pre & u & n & post & Hsplit & Hpre & Hu & Hpos & Hn).
    exists pre, u, n, post; repeat split; try assumption.
    - apply Z.quot_le_lower_bound; lia.
    - apply (humanReadableDuration_two_units pre post u n); assumption. }
  split.
  - split.
    + intros Hempty; destruct (Z_lt_le_dec Millisecond d) as [Hd|Hd]; [|exact Hd].
      destruct (Hlong Hd) as (pre & u & n & post & _ & _ & _ & _ & Hn & Heq).
      rewrite Heq in Hempty; now elim (append_nonempty _ _ _ Hn Hempty).
    + apply humanReadableDuration_small.
  - intros Hd.
    destruct (Hlong Hd) as (pre & u & n & post & H1 & H2 & H3 & H4 & _ & H5).
    now exists pre, u, n, post.
Qed.

Lemma humanReadableDuration_shape_witness :
  Millisecond < 90 * Minute /\
  exists pre u n post,
    humanDurations = (pre ++ (u, n) :: post)%list /\
    (forall x, In x pre -> 90 * Minute <= fst x) /\
    u < 90 * Minute /\ 1 <= Z.quot (90 * Minute) u /\
    humanReadableDuration (90 * Minute)
    = (itoa (Z.quot (90 * Minute) u) ++ n)
      ++ secondUnit (Z.rem (90 * Minute) u) post.
Proof.
  split; [reflexivity|].
  exact (proj2 (humanReadableDuration_shape (90 * Minute)) eq_refl).
Defined.

(** ** Text scanner *)

Lemma hasPrefixFold_cut (p : string) :
  forallb (fun l => negb (isSpace l)) (list_ascii_of_string p) = true ->
  forall u c r,
    isSpace c = true ->
    hasPrefixFold p (u ++ String c r) = hasPrefixFold p u.
Proof.
  induction p as [|l p IH]; intros Hp u c r Hc; [now destruct u|].
  cbn [list_ascii_of_string forallb] in Hp.
  apply andb_true_iff in Hp as [Hl Hp]; apply negb_true_iff in Hl.
  destruct u as [|a u]; cbn [append hasPrefixFold].
  - rewrite (isSpace_toLower c Hc).
    destruct (c =? l)%char eqn:E; [|reflexivity].
    apply Ascii.eqb_eq in E; congruence.
  - now rewrite IH.
Qed.

(** Whether a text begins with the scheme is decided before its first
    white space. *)
Lemma startsWithScheme_cut (u : string) (c : ascii) (r : string) :
  isSpace c = true ->
  startsWithScheme (u ++ String c r) = startsWithScheme u.
Proof.
  intros Hc; unfold startsWithScheme.
  now rewrite !hasPrefixFold_cut by (exact Hc || reflexivity).
Qed.

Lemma startsWithScheme_first_noSpace (c : ascii) (s : string) :
  startsWithScheme (String c s) = true -> isSpace c = false.
Proof.
  unfold startsWithScheme, longS; cbn -[toLowerASCII].
  destruct (toLowerASCII c =? "h")%char eqn:E; [|discriminate].
  intros _; exact (fold_not_space c "h" E eq_refl).
Qed.

Lemma scanURLs_urls (str : string) (s : string) :
  forall prev url pre,
    match url with
    | Some u =>
        str = pre ++ u ++ s /\ startsWithScheme (u ++ s) = true /\
        noSpace u = true
    | None => str = pre ++ s
    end ->
    Forall (isURLOf str) (scanURLs prev url s).
Proof.
  induction s as [|c s IH]; intros prev url pre Hinv.
  - destruct url as [u|]; cbn [scanURLs]; [|constructor].
    destruct Hinv as (Hstr & Hsch & Hns).
    rewrite StringFacts.app_empty_r in Hsch.
    constructor; [|constructor].
    split; [exact Hsch|]; split; [exact Hns|].
    exists pre, ""; auto.
  - destruct url as [u|]; cbn [scanURLs].
    + destruct Hinv as (Hstr & Hsch & Hns).
      destruct (isSpace c) eqn:Hc.
      * constructor.
        -- split; [now rewrite startsWithScheme_cut in Hsch|].
           split; [exact Hns|].
           exists pre, (String c s); split; [exact Hstr|].
           right; now exists c, s.
        -- apply (IH (Some c) None (pre ++ u ++ String c "")).
           now rewrite !StringFacts.app_assoc.
      * apply (IH (Some c) (Some (u ++ String c "")) pre).
        rewrite !StringFacts.app_assoc; cbn [append].
        split; [exact Hstr|]; split; [exact Hsch|].
        rewrite noSpace_app, Hns; unfold noSpace.
        cbn [list_ascii_of_string forallb]; now rewrite Hc.
    + destruct (isURLStart prev (String c s)) eqn:Hstart.
      * apply andb_true_iff in Hstart as [_ Hsch].
        apply (IH (Some c) (Some (String c "")) pre).
        split; [exact Hinv|]; split; [exact Hsch|].
        unfold noSpace; cbn [list_ascii_of_string forallb].
        now rewrite (startsWithScheme_first_noSpace c s Hsch).
      * apply (IH (Some c) None (pre ++ String c "")).
        now rewrite StringFacts.app_assoc.
Qed.

(** X11: every URL that [findURL] returns begins with the scheme, has no
    white space in it, and stands in the message before a white space byte
    or at its end. *)
Theorem findURL_urls (str : string) :
  Forall (isURLOf str) (findURL str).
Proof.
  assert (H : findURL str = scanURLs None None str)
    by (unfold findURL, FindAllStringSubmatch;
        apply (allMatches_urlRe str (S (String.length str)) str "");
        [reflexivity | lia]).
  rewrite H; now apply (scanURLs_urls str str None None "").
Qed.

Lemma scanURLs_prev (s : string) (p q : option ascii) :
  isWordAt p = isWordAt q -> scanURLs p None s = scanURLs q None s.
Proof.
  intros Hpq; destruct s as [|c s]; [reflexivity|].
  cbn [scanURLs]; unfold isURLStart; now rewrite Hpq.
Qed.

Lemma isSpace_not_word (c : ascii) : isSpace c = true -> isWord c = false.
Proof. each_byte c; intros H; try reflexivity; discriminate H. Qed.

Lemma scanURLs_app_space (a b : string) (c : ascii) :
  isSpace c = true ->
  forall prev url,
    scanURLs prev url (a ++ String c b)
    = (scanURLs prev url a ++ scanURLs None None b)%list.
Proof.
  intros Hc; induction a as [|x a IH]; intros prev url.
  - cbn [append scanURLs].
    assert (Hb : scanURLs (Some c) None b = scanURLs None None b)
      by (apply scanURLs_prev; cbn [isWordAt]; now apply isSpace_not_word).
    destruct url as [u|]; [now rewrite Hc, Hb|].
    unfold isURLStart.
    replace (startsWithScheme (String c b)) with false.
    + now rewrite andb_false_r, Hb.
    + symmetry; destruct (startsWithScheme (String c b)) eqn:E; [|reflexivity].
      apply startsWithScheme_first_noSpace in E; congruence.
  - cbn [append scanURLs]; destruct url as [u|].
    + destruct (isSpace x); [now rewrite IH | apply IH].
    + unfold isURLStart.
      change (String x (a ++ String c b)) with (String x a ++ String c b).
      rewrite (startsWithScheme_cut (String x a) c b Hc).
      destruct (negb (isWordAt prev) && startsWithScheme (String x a)); apply IH.
Qed.

(** X12: scanning two texts joined by a white space byte finds the URLs of
    the first followed by the URLs of the second. *)
Theorem findURL_app_space (a b : string) (c : ascii) :
  isSpace c = true ->
  findURL (a ++ String c b) = (findURL a ++ findURL b)%list.
Proof.
  intros Hc.
  assert (H : forall str, findURL str = scanURLs None None str)
    by (intros str; unfold findURL, FindAllStringSubmatch;
        apply (allMatches_urlRe str (S (String.length str)) str "");
        [reflexivity | lia]).
  rewrite !H; now apply scanURLs_app_space.
Qed.

Lemma findURL_app_space_witness :
  isSpace " " = true /\
  findURL ("see http://a.example/" ++ String " " "and HTTPS://b.example/x")
  = (findURL "see http://a.example/" ++ findURL "and HTTPS://b.example/x")%list.
Proof.
  split; [reflexivity|].
  exact (findURL_app_space "see http://a.example/" "and HTTPS://b.example/x"
           " " eq_refl).
Defined.

(** ** Prefixes and pieces *)

Lemma HasPrefix_iff (s prefix : string) :
  Strings.HasPrefix s prefix = true <-> exists r, s = prefix ++ r.
Proof.
  unfold Strings.HasPrefix; split.
  - intros H; apply andb_true_iff in H as [Hlen Heq].
    apply Nat.leb_le in Hlen; apply String.eqb_eq in Heq.
    exists (substring (length prefix) (length s - length prefix) s).
    pose proof (StringFacts.substring_split s (length prefix) Hlen) as E.
    now rewrite Heq in E.
  - intros [r ->].
    rewrite StringFacts.length_app, StringFacts.substring_0_app.
    rewrite String.eqb_refl, andb_true_r; apply Nat.leb_le; lia.
Qed.

Lemma TrimPrefix_app (prefix r : string) :
  Strings.TrimPrefix (prefix ++ r) prefix = r.
Proof.
  unfold Strings.TrimPrefix.
  rewrite (proj2 (HasPrefix_iff (prefix ++ r) prefix)) by now exists r.
  rewrite StringFacts.length_app, StringFacts.substring_skip_app.
  replace (length prefix + length r - length prefix)%nat with (length r) by lia.
  apply StringFacts.substring_0_all.
Qed.

Lemma Split_length (s : string) (sep : ascii) :
  List.length (Strings.Split s sep) = S (countByte sep s).
Proof.
  induction s as [|c s IH]; [reflexivity|].
  cbn [Strings.Split countByte].
  destruct (c =? sep)%char; cbn [List.length]; [now rewrite IH|].
  destruct (Strings.Split s sep); cbn [List.length] in *; [discriminate | lia].
Qed.

(** ** Messages from the server *)

Lemma ownerMatches_iff (e : Message) (owner : string) :
  ownerMatches e owner = true <->
  owner <> "" /\ GetTag e "account" = (true, owner).
Proof.
  unfold ownerMatches.
  destruct (owner =? "")%string eqn:Ho.
  - apply String.eqb_eq in Ho; split; [discriminate | now intros [H _]].
  - apply String.eqb_neq in Ho.
    destruct (GetTag e "account") as [present account].
    destruct present; cbn [andb].
    + destruct (account =? owner)%string eqn:Ha.
      * apply String.eqb_eq in Ha; subst; tauto.
      * apply String.eqb_neq in Ha; split; [discriminate|].
        intros [_ [= H]]; contradiction.
    + split; [discriminate | intros [_ [= ]]].
Qed.

Section CallbackFacts.

Context {lib : Lib}.
Variable irc : Bot.
Variable strings_Fields : string -> list string.
Variable QuitMessage : string.
Variable CurrentNick : string.
Variable ISupport : string -> string.
Variable channels : string.

(** An owner command sends nothing, or one line; it sends nothing unless
    the text begins with the bot's nick. *)
Lemma handleOwnerCommand_lines (target command : string) (w : World) :
  handleOwnerCommand irc strings_Fields QuitMessage target command w
  = (Returned tt, w) \/
  Strings.HasPrefix command (Nick irc) = true /\
  exists l,
    ownerLine QuitMessage target l /\
    handleOwnerCommand irc strings_Fields QuitMessage target command w
    = (Returned tt, after [EvSend l] w).
Proof.
  unfold handleOwnerCommand.
  destruct (Strings.HasPrefix command (Nick irc)); cbn [negb]; [|now left].
  destruct (strings_Fields _) as [|f0 f']; [now left|].
  destruct (strings_ToLower f0 =? "abuse")%string.
  - destruct f' as [|f1 f'']; [now left|].
    right; split; [reflexivity|].
    eexists; split; [left; now exists f1 | reflexivity].
  - destruct (strings_ToLower f0 =? "quit")%string; [|now left].
    right; split; [reflexivity|].
    eexists; split; [now right | reflexivity].
Qed.

(** X13: a [PRIVMSG] with its two parameters is always handled to the
    end.  The callback starts the titling of the URLs of the text exactly
    when there are some and the message is to a channel or from the owner.
    It sends at most one line itself: the reproach to somebody other than
    the owner who addresses the bot in a channel, or the line of an owner
    command to the owner who addresses the bot. *)
Theorem onPrivmsg_outcomes (e : Message) (target message : string)
    (rest : list string) (w : World) :
  Params e = target :: message :: rest ->
  exists started evs,
    onPrivmsg irc strings_Fields QuitMessage e w
    = (Returned started, after evs w) /\
    (forall task,
       started = Some task <->
       task = (target, snd (GetTag e "msgid"), findURL message) /\
       findURL message <> [] /\
       (Strings.HasPrefix target "#" = true \/
        ownerMatches e (Owner irc) = true)) /\
    (evs = [] \/
     (ownerMatches e (Owner irc) = false /\
      Strings.HasPrefix target "#" = true /\
      Strings.HasPrefix message (Nick irc) = true /\
      evs = [EvSend (mortalNotice target (snd (GetTag e "msgid")))]) \/
     (ownerMatches e (Owner irc) = true /\
      Strings.HasPrefix message (Nick irc) = true /\
      exists l, ownerLine QuitMessage target l /\ evs = [EvSend l])).
Proof.
  intros Hp; destruct w as [sem hist].
  unfold onPrivmsg; rewrite Hp; cbv zeta.
  assert (Hstarted : forall task,
    Strings.HasPrefix target "#" = true \/ ownerMatches e (Owner irc) = true ->
    match findURL message with
    | [] => None
    | _ :: _ => Some (target, snd (GetTag e "msgid"), findURL message)
    end = Some task <->
    task = (target, snd (GetTag e "msgid"), findURL message) /\
    findURL message <> [] /\
    (Strings.HasPrefix target "#" = true \/
     ownerMatches e (Owner irc) = true)).
  { intros task Hor; destruct (findURL message) as [|u us].
    - split; [discriminate | now intros (_ & H & _)].
    - split.
      + intros [= <-]; split; [reflexivity|]; split; [discriminate | exact Hor].
      + now intros [-> _]. }
  destruct (ownerMatches e (Owner irc)) eqn:Hown.
  - rewrite andb_false_r; unfold bind.
    destruct (handleOwnerCommand_lines target message (mkWorld sem hist))
      as [-> | (Hnick & l & Hl & ->)].
    + eexists _, []; split; [reflexivity|].
      split; [intros task; apply Hstarted; now right | now left].
    + eexists _, [EvSend l]; split; [reflexivity|].
      split; [intros task; apply Hstarted; now right|].
      right; right; split; [reflexivity|]; split; [exact Hnick|].
      now exists l.
  - destruct (Strings.HasPrefix target "#") eqn:Hch; cbn [negb andb].
    + unfold bind.
      destruct (Strings.HasPrefix message (Nick irc)) eqn:Hnick.
      * rewrite sendReplyNotice_sends.
        eexists _, [_]; split; [reflexivity|].
        split; [intros task; apply Hstarted; now left|].
        right; left; repeat split.
      * eexists _, []; split; [reflexivity|].
        split; [intros task; apply Hstarted; now left | now left].
    + exists None, []; split; [reflexivity|]; split; [|now left].
      intros task; split; [discriminate|].
      intros (_ & _ & [H | H]); discriminate H.
Qed.

(** X14: whoever is not the owner cannot make the bot send anything but
    its reproach.  When no owner is configured, or the message does not
    carry the owner's account, an [INVITE] has no effect, and all that a
    [PRIVMSG] makes the callback send is the notice for those who address
    the bot. *)
Theorem commands_need_owner (e : Message) (w : World) :
  Owner irc = "" \/ GetTag e "account" <> (true, Owner irc) ->
  onInvite irc e w = (Returned tt, w) /\
  exists o evs,
    onPrivmsg irc strings_Fields QuitMessage e w = (o, after evs w) /\
    forall m, In m (sends evs) ->
      exists target, m = mortalNotice target (snd (GetTag e "msgid")).
Proof.
  intros Hno.
  assert (Hown : ownerMatches e (Owner irc) = false).
  { destruct (ownerMatches e (Owner irc)) eqn:E; [|reflexivity].
    apply ownerMatches_iff in E as [Hne Htag]; destruct Hno; contradiction. }
  split; [unfold onInvite; now rewrite Hown|].
  destruct w as [sem hist].
  unfold onPrivmsg; rewrite Hown; cbn [negb].
  destruct (Params e) as [|target [|message rest]].
  - eexists _, []; split; [reflexivity | intros m []].
  - eexists _, []; split; [reflexivity | intros m []].
  - cbv zeta; rewrite andb_true_r.
    destruct (Strings.HasPrefix target "#"); cbn [negb];
      [|eexists _, []; split; [reflexivity | intros m []]].
    unfold bind.
    destruct (Strings.HasPrefix message (Nick irc)).
    + rewrite sendReplyNotice_sends.
      eexists _, [_]; split; [reflexivity|].
      intros m [<- | []]; now exists target.
    + eexists _, []; split; [reflexivity | intros m []].
Qed.

(** X15: a message with fewer than two parameters.  The [PRIVMSG] callback
    panics on it before it does anything, whoever sent it; the [INVITE]
    callback panics on it only when it is from the owner, and ignores it
    otherwise. *)
Theorem short_params (e : Message) (w : World) :
  (List.length (Params e) < 2)%nat ->
  onPrivmsg irc strings_Fields QuitMessage e w
  = (Panicking (indexOutOfRange (List.length (Params e))
                                (List.length (Params e))), w) /\
  onInvite irc e w
  = if ownerMatches e (Owner irc)
    then (Panicking (indexOutOfRange 1 (List.length (Params e))), w)
    else (Returned tt, w).
Proof.
  intros Hlen; unfold onPrivmsg, onInvite.
  destruct (Params e) as [|target [|message rest]];
    cbn [List.length] in Hlen; try lia;
    (split; [reflexivity|]);
    destruct (ownerMatches e (Owner irc)); reflexivity.
Qed.

Lemma onConnect_loop_joins (pieces : list string) (w : World) :
  exists evs,
    onConnect_loop pieces w = (Returned tt, after evs w) /\
    rev (sends evs)
    = map (fun channel => mkMessage [] "JOIN" [strings_TrimSpace channel])
          pieces.
Proof.
  revert w; induction pieces as [|channel pieces IH]; intros w.
  - exists []; split; [destruct w|]; reflexivity.
  - cbn [onConnect_loop]; unfold bind, Join, Send, emit; cbv beta iota.
    destruct (IH (mkWorld (semaphore w)
                    (EvSend (mkMessage [] "JOIN" [strings_TrimSpace channel])
                     :: history w))) as (evs & -> & Hs).
    exists (evs ++ [EvSend (mkMessage [] "JOIN" [strings_TrimSpace channel])])%list.
    split.
    + unfold after; cbn [semaphore history]; now rewrite <- app_assoc.
    + rewrite sends_app, rev_app_distr, Hs; reflexivity.
Qed.

(** X16: on connection the bot announces its bot mode, if the server names
    one, and then joins the pieces of the channel list in their order, one
    [JOIN] for each: one more than the list has commas, so at least one,
    even for an empty list. *)
Theorem onConnect_joins (e : Message) (w : World) :
  exists evs joins,
    onConnect CurrentNick ISupport channels e w
    = (Returned tt, after evs w) /\
    rev (sends evs)
    = ((if (ISupport "BOT" =? "")%string then []
        else [mkMessage [] "MODE"
                [CurrentNick; ("+" ++ ISupport "BOT")%string]])
       ++ joins)%list /\
    joins
    = map (fun channel => mkMessage [] "JOIN" [strings_TrimSpace channel])
          (Strings.Split channels ",") /\
    List.length joins = S (countByte "," channels).
Proof.
  unfold onConnect; cbv zeta; unfold bind.
  destruct (ISupport "BOT" =? "")%string; cbn [negb].
  - unfold ret.
    destruct (onConnect_loop_joins (Strings.Split channels ",") w)
      as (evs & -> & Hs).
    exists evs, (rev (sends evs)); split; [reflexivity|].
    split; [reflexivity|]; split; [exact Hs|].
    now rewrite Hs, length_map, Split_length.
  - unfold Send, emit.
    destruct (onConnect_loop_joins (Strings.Split channels ",")
                (mkWorld (semaphore w)
                   (EvSend (mkMessage [] "MODE"
                              [CurrentNick; "+" ++ ISupport "BOT"])
                    :: history w))) as (evs & -> & Hs).
    exists (evs ++ [EvSend (mkMessage [] "MODE"
                             [CurrentNick; ("+" ++ ISupport "BOT")%string])])%list,
           (rev (sends evs)).
    split; [unfold after; cbn [semaphore history]; now rewrite <- app_assoc|].
    split; [now rewrite sends_app, rev_app_distr|].
    split; [exact Hs|].
    now rewrite Hs, length_map, Split_length.
Qed.

(** X17: the colon after the nick is optional in an owner command: text
    that does not begin with a colon is handled alike after the nick and
    after the nick and a colon. *)
Theorem handleOwnerCommand_colon (target text : string) :
  Strings.HasPrefix text ":" = false ->
  handleOwnerCommand irc strings_Fields QuitMessage target
    (Nick irc ++ ":" ++ text)
  = handleOwnerCommand irc strings_Fields QuitMessage target
      (Nick irc ++ text).
Proof.
  intros Hno; unfold handleOwnerCommand; cbv zeta.
  rewrite !(proj2 (HasPrefix_iff _ (Nick irc))) by (eexists; reflexivity).
  rewrite !TrimPrefix_app.
  unfold Strings.TrimPrefix; rewrite Hno; reflexivity.
Qed.

End CallbackFacts.

Lemma onPrivmsg_outcomes_witness :
  Params (mkMessage [("msgid", "m1")] "PRIVMSG" ["#chat"; "titlebot: hi"])
  = ["#chat"; "titlebot: hi"] /\
  exists started evs,
    @onPrivmsg exampleLib exampleBot (fun _ => []) "bye"
      (mkMessage [("msgid", "m1")] "PRIVMSG" ["#chat"; "titlebot: hi"])
      initialWorld
    = (Returned started, after evs initialWorld).
Proof.
  split; [reflexivity|].
  destruct (@onPrivmsg_outcomes exampleLib exampleBot (fun _ => []) "bye"
              (mkMessage [("msgid", "m1")] "PRIVMSG" ["#chat"; "titlebot: hi"])
              "#chat" "titlebot: hi" [] initialWorld eq_refl)
    as (started & evs & H & _).
  now exists started, evs.
Defined.

Lemma commands_need_owner_witness :
  (Owner exampleBot = "" \/
   GetTag (mkMessage [("account", "")] "INVITE" ["titlebot"; "#ops"]) "account"
   <> (true, Owner exampleBot)) /\
  @onInvite exampleBot
    (mkMessage [("account", "")] "INVITE" ["titlebot"; "#ops"]) initialWorld
  = (Returned tt, initialWorld).
Proof.
  split; [now left|].
  exact (proj1 (@commands_need_owner exampleLib exampleBot (fun _ => []) "bye"
                  (mkMessage [("account", "")] "INVITE" ["titlebot"; "#ops"])
                  initialWorld (or_introl eq_refl))).
Defined.

Lemma short_params_witness :
  (List.length (Params (mkMessage [] "PRIVMSG" ["#chat"])) < 2)%nat /\
  @onPrivmsg exampleLib exampleBot (fun _ => []) "bye"
    (mkMessage [] "PRIVMSG" ["#chat"]) initialWorld
  = (Panicking "runtime error: index out of range [1] with length 1",
     initialWorld).
Proof.
  split; [cbn; lia|].
  exact (proj1 (@short_params exampleLib exampleBot (fun _ => []) "bye"
                  (mkMessage [] "PRIVMSG" ["#chat"]) initialWorld
                  (le_n 2))).
Defined.

Lemma handleOwnerCommand_colon_witness :
  Strings.HasPrefix " quit" ":" = false /\
  @handleOwnerCommand exampleLib exampleBot (fun _ => ["quit"]) "bye" "#chat"
    (Nick exampleBot ++ ":" ++ " quit")
  = @handleOwnerCommand exampleLib exampleBot (fun _ => ["quit"]) "bye" "#chat"
      (Nick exampleBot ++ " quit").
Proof.
  split; [reflexivity|].
  exact (@handleOwnerCommand_colon exampleLib exampleBot (fun _ => ["quit"])
           "bye" "#chat" " quit" eq_refl).
Defined.

(** ** Platform classifier: the shape of a link *)

Lemma matches_lit (t : string) :
  forall x y, matches (lit t) x y -> consumed x y t.
Proof.
  induction t as [|c t IH]; intros x y.
  - cbn [lit chars matches]; intros ->; apply consumed_refl.
  - destruct t as [|c2 t].
    + cbn [lit chars matches lit1].
      intros (c' & s' & Hs & Hc & ->).
      apply Ascii.eqb_eq in Hc; subst c'; now apply consumed_step.
    + change (lit (String c (String c2 t)))
        with (Seq (lit1 c) (lit (String c2 t))).
      cbn [matches lit1]; intros (z & (c' & s' & Hs & Hc & ->) & H2).
      apply Ascii.eqb_eq in Hc; subst c'.
      exact (consumed_trans _ _ _ _ _ (consumed_step _ _ _ Hs) (IH _ _ H2)).
Qed.

Lemma starRel_all (p : ascii -> bool) (x y : Pos) :
  starRel p x y ->
  exists t, consumed x y t /\ forallb p (list_ascii_of_string t) = true.
Proof.
  induction 1 as [x|x c s' y Hs Hp Hrel (t & Ht & Hall)].
  - exists ""; split; [apply consumed_refl | reflexivity].
  - exists (String c "" ++ t); split.
    + eapply consumed_trans; [apply consumed_step, Hs | exact Ht].
    + cbn [append list_ascii_of_string forallb]; now rewrite Hp.
Qed.

Lemma matches_Plus_all (p : ascii -> bool) (x y : Pos) :
  matches (Plus p) x y ->
  posCaps y = posCaps x /\
  exists t, consumed x y t /\ t <> "" /\
            forallb p (list_ascii_of_string t) = true.
Proof.
  cbn [Plus matches]; intros (z & (c & s' & Hs & Hp & ->) & Hstar).
  split; [exact (starRel_caps _ _ _ Hstar)|].
  destruct (starRel_all _ _ _ Hstar) as (t & Ht & Hall).
  exists (String c "" ++ t); split; [|split; [discriminate|]].
  - eapply consumed_trans; [apply consumed_step, Hs | exact Ht].
  - cbn [append list_ascii_of_string forallb]; now rewrite Hp.
Qed.

Lemma starGreedy_total (p : ascii -> bool) (k : Cont) (s : string) :
  (forall y, k y <> None) ->
  forall prev off caps, starGreedy p k prev off s caps <> None.
Proof.
  intros Hk; induction s as [|c s IH]; intros prev off caps;
    cbn [starGreedy]; [apply Hk|].
  destruct (p c); [|apply Hk].
  destruct (starGreedy p k (Some c) (S off) s caps) eqn:E;
    [discriminate | now apply IH in E].
Qed.

(** Before a rest of the pattern that cannot fail, [x*] takes all the bytes
    of the class that there are. *)
Lemma starGreedy_max (p : ascii -> bool) (k : Cont) (s : string) :
  (forall y, k y <> None) ->
  forall prev off caps m,
    starGreedy p k prev off s caps = Some m ->
    exists y,
      k y = Some m /\ starRel p (mkPos prev off s caps) y /\
      (posRest y = "" \/
       exists c r, posRest y = String c r /\ p c = false).
Proof.
  intros Hk; induction s as [|c s IH]; intros prev off caps m;
    cbn [starGreedy].
  - intros H; eexists; split; [exact H|].
    split; [apply star_done | now left].
  - destruct (p c) eqn:Hp.
    + destruct (starGreedy p k (Some c) (S off) s caps) as [m'|] eqn:E.
      * intros [= <-]; destruct (IH _ _ _ _ E) as (y & Hy & Hrel & Hend).
        exists y; split; [exact Hy|]; split; [|exact Hend].
        eapply star_more; [reflexivity | exact Hp | exact Hrel].
      * now apply starGreedy_total in E.
    + intros H; eexists; split; [exact H|].
      split; [apply star_done | right; now exists c, s].
Qed.

(** A match of [blueskyRe] in [url]: the link it lies on, and its
    submatches. *)
Lemma blueskyRe_shape (url : string) (x m : Pos) :
  located url x ->
  posCaps x = [] ->
  run blueskyRe Some x = Some m ->
  exists handle postid pre post,
    url = pre ++ blueskyLink handle postid ++ post /\
    endsAt "/" post /\
    handle <> "" /\ postid <> "" /\
    lacks "/" handle = true /\ lacks "/" postid = true /\
    submatches blueskyRe url (posOff x) m
    = [blueskyLink handle postid; handle; postid].
Proof.
  intros Hloc Hcaps Hrun.
  change (run blueskyRe Some x)
    with (run (lit "https://bsky.app/profile/")
            (run (Group 1 (Plus (byteIsNot "/")))
               (run (lit "/post/")
                  (run (Group 2 (Plus (byteIsNot "/"))) Some))) x) in Hrun.
  destruct (run_sound _ _ _ _ Hrun) as (z1 & M1 & H1).
  destruct (run_sound _ _ _ _ H1) as (z2 & M2 & H2).
  destruct (run_sound _ _ _ _ H2) as (z3 & M3 & H3).
  clear Hrun H1 H2.
  (* the second group takes all there is *)
  cbn [run Plus] in H3.
  destruct (posRest z3) as [|c s'] eqn:Hz3; [discriminate|].
  destruct (byteIsNot "/" c) eqn:Hc; [|discriminate].
  cbn [step posPrev posOff posRest posCaps] in H3.
  apply starGreedy_max in H3; [|discriminate].
  destruct H3 as (y & Hm & Hrel & Hend); injection Hm as <-.
  destruct (starRel_all _ _ _ Hrel) as (t2' & Ct2 & Hall2).
  pose proof (starRel_caps _ _ _ Hrel) as Capy.
  cbn [posCaps] in Capy.
  assert (C4 : consumed z3 y (String c "" ++ t2')).
  { eapply consumed_trans; [apply (consumed_step z3 c s' Hz3) | exact Ct2]. }
  set (t2 := String c "" ++ t2') in *.
  (* the first group *)
  cbn [matches] in M2; destruct M2 as (a & M2 & ->).
  fold (matches (Plus (byteIsNot "/"))) in M2.
  destruct (matches_Plus_all _ _ _ M2) as (Capa & t1 & C2 & Ne1 & Hall1).
  pose proof (matches_lit _ _ _ M1) as C1.
  pose proof (matches_lit _ _ _ M3) as C3.
  pose proof (matches_caps _ (numSubexp_lit _) _ _ M1) as Cap1.
  pose proof (matches_caps _ (numSubexp_lit _) _ _ M3) as Cap3.
  cbn [posCaps] in Cap3.
  set (z2 := mkPos (posPrev a) (posOff a) (posRest a)
                   ((1%nat, (posOff z1, posOff a)) :: posCaps a)) in *.
  assert (C2' : consumed z1 z2 t1) by exact C2.
  pose proof (consumed_trans _ _ _ _ _ C1
                (consumed_trans _ _ _ _ _ C2'
                   (consumed_trans _ _ _ _ _ C3 C4))) as Call.
  pose proof (located_consumed _ _ _ _ Hloc C1) as Loc1.
  pose proof (located_consumed _ _ _ _ Loc1 C2') as Loc2.
  pose proof (located_consumed _ _ _ _ Loc2 C3) as Loc3.
  destruct Hloc as (pre & Hurl & Hpre).
  exists t1, t2, pre, (posRest y).
  split; [|split; [|split; [exact Ne1|]; split; [discriminate|];
                    split; [exact Hall1|]; split]].
  - destruct Call as [Hrest _]; rewrite Hurl, Hrest.
    unfold blueskyLink; now rewrite !StringFacts.app_assoc.
  - destruct Hend as [Hend | (c' & r & Hend & Hc')]; [now left|].
    right; exists r; rewrite Hend; f_equal.
    unfold byteIsNot in Hc'; apply negb_false_iff, Ascii.eqb_eq in Hc'.
    exact Hc'.
  - unfold lacks, t2; cbn [append list_ascii_of_string forallb].
    now rewrite Hc.
  - unfold submatches.
    change (numSubexp blueskyRe) with 2%nat; cbn [seq map posOff posCaps].
    rewrite Capy, Cap3; cbn [capture Nat.eqb].
    f_equal; [|f_equal; [|f_equal]].
    + rewrite (slice_consumed url x _ _ (ex_intro _ pre (conj Hurl Hpre))
                 (conj (proj1 Call) (proj2 Call))).
      reflexivity.
    + exact (slice_consumed _ _ _ _ Loc1 C2).
    + exact (slice_consumed _ _ _ _ Loc3 C4).
Qed.

(** X18: what the classifier takes for the handle and the post id of a
    link is the text around [/post/] of a link in the URL, after
    [https://bsky.app/profile/]: neither is empty, neither has a slash in
    it, and the post id goes on to the next slash or to the end of the
    URL. *)
Theorem extractBlueskyData_link (url handle postid : string) :
  extractBlueskyData url = (handle, postid) ->
  (handle, postid) <> ("", "") ->
  exists pre post,
    url = pre ++ blueskyLink handle postid ++ post /\
    endsAt "/" post /\
    handle <> "" /\ postid <> "" /\
    lacks "/" handle = true /\ lacks "/" postid = true.
Proof.
  unfold extractBlueskyData, FindStringSubmatch; cbv zeta.
  destruct (search blueskyRe None 0 url) as [[start m]|] eqn:Hsearch.
  - destruct (search_found _ _ _ _ _ _ Hsearch)
      as (prev & s' & skipped & Hrun & Hs & Hst).
    assert (Hloc : located url (mkPos prev start s' [])).
    { exists skipped; split; [exact Hs | cbn; lia]. }
    destruct (blueskyRe_shape url _ _ Hloc eq_refl Hrun)
      as (h & q & pre & post & Hurl & Hend & Hh & Hq & Sh & Sq & Hsub).
    cbn [posOff] in Hsub; rewrite Hsub; cbn [List.length Nat.eqb nth].
    intros [= <- <-] _; now exists pre, post.
  - cbn [List.length Nat.eqb]; intros <- Hne; now destruct Hne.
Qed.

Lemma extractBlueskyData_link_witness :
  extractBlueskyData "see https://bsky.app/profile/a.example/post/3k/likes"
  = ("a.example", "3k") /\
  ("a.example", "3k") <> ("", "") /\
  exists pre post,
    "see https://bsky.app/profile/a.example/post/3k/likes"
    = pre ++ blueskyLink "a.example" "3k" ++ post.
Proof.
  split; [reflexivity|]; split; [discriminate|].
  destruct (extractBlueskyData_link
              "see https://bsky.app/profile/a.example/post/3k/likes"
              "a.example" "3k" eq_refl ltac:(discriminate))
    as (pre & post & H & _).
  now exists pre, post.
Defined.

(** *** Running the pattern on a link *)

Lemma run_lit (t : string) :
  forall (x : Pos) (r : string),
    posRest x = t ++ r ->
    exists prev',
      forall k : Cont,
        run (lit t) k x
        = k (mkPos prev' (posOff x + String.length t) r (posCaps x)).
Proof.
  induction t as [|c t IH]; intros x r Hx.
  - exists (posPrev x); intros k; cbn [lit chars run String.length].
    rewrite Nat.add_0_r; destruct x; cbn in Hx |- *; now subst.
  - destruct t as [|c2 t].
    + exists (Some c); intros k; cbn [lit chars run lit1 String.length].
      rewrite Hx; cbn [append]; unfold byteIs; rewrite Ascii.eqb_refl.
      unfold step; now rewrite Nat.add_1_r.
    + destruct (IH (step c (String c2 t ++ r) x) r eq_refl) as [prev' Hrun].
      exists prev'; intros k.
      change (lit (String c (String c2 t)))
        with (Seq (lit1 c) (lit (String c2 t))).
      cbn [run lit1]; rewrite Hx.
      change (String c (String c2 t) ++ r) with (String c (String c2 t ++ r)).
      cbv iota; unfold byteIs at 1; rewrite Ascii.eqb_refl.
      rewrite Hrun; cbn [step posOff posCaps String.length].
      do 2 f_equal; lia.
Qed.

Lemma starGreedy_first (p : ascii -> bool) (h r : string) :
  forallb p (list_ascii_of_string h) = true ->
  (r = "" \/ exists c r', r = String c r' /\ p c = false) ->
  forall prev off caps,
  exists prev',
    forall k : Cont,
      k (mkPos prev' (off + String.length h) r caps) <> None ->
      starGreedy p k prev off (h ++ r) caps
      = k (mkPos prev' (off + String.length h) r caps).
Proof.
  intros Hall Hend; induction h as [|c h IH]; intros prev off caps.
  - exists prev; intros k _; cbn [append String.length].
    rewrite Nat.add_0_r.
    destruct Hend as [-> | (c & r' & -> & Hc)]; cbn [starGreedy];
      [reflexivity | now rewrite Hc].
  - cbn [list_ascii_of_string forallb] in Hall.
    apply andb_true_iff in Hall as [Hc Hall].
    destruct (IH Hall (Some c) (S off) caps) as [prev' Hrun].
    exists prev'; intros k Hk.
    cbn [append starGreedy String.length] in Hk |- *.
    replace (off + S (String.length h))%nat
      with (S off + String.length h)%nat in Hk |- * by lia.
    rewrite Hc, (Hrun k Hk).
    destruct (k _); [reflexivity | now destruct Hk].
Qed.

(** [(x+)] as group [n] before text that ends the bytes of the class. *)
Lemma run_Group_Plus (n : nat) (p : ascii -> bool) (x : Pos) (h r : string) :
  posRest x = h ++ r ->
  h <> "" ->
  forallb p (list_ascii_of_string h) = true ->
  (r = "" \/ exists c r', r = String c r' /\ p c = false) ->
  exists prev',
    forall k : Cont,
      k (mkPos prev' (posOff x + String.length h) r
           ((n, (posOff x, posOff x + String.length h)%nat) :: posCaps x))
      <> None ->
      run (Group n (Plus p)) k x
      = k (mkPos prev' (posOff x + String.length h) r
             ((n, (posOff x, posOff x + String.length h)%nat) :: posCaps x)).
Proof.
  intros Hx Hne Hall Hend.
  destruct h as [|c h]; [now destruct Hne|].
  cbn [list_ascii_of_string forallb] in Hall.
  apply andb_true_iff in Hall as [Hc Hall].
  destruct (starGreedy_first p h r Hall Hend (Some c) (S (posOff x))
              (posCaps x)) as [prev' Hrun].
  exists prev'; intros k Hk.
  cbn [run Plus]; rewrite Hx; cbn [append]; rewrite Hc.
  cbn [step posPrev posOff posRest posCaps String.length] in Hk |- *.
  replace (posOff x + S (String.length h))%nat
    with (S (posOff x) + String.length h)%nat in Hk |- * by lia.
  rewrite Hrun; [reflexivity | exact Hk].
Qed.

Lemma search_here (r : regex) (prev : option ascii) (off : nat)
    (s : string) (m : Pos) :
  run r Some (mkPos prev off s []) = Some m ->
  search r prev off s = Some (off, m).
Proof. intros H; destruct s; cbn [search]; now rewrite H. Qed.

Lemma slice_at (str a t b : string) (i j : nat) :
  str = a ++ t ++ b ->
  i = String.length a -> j = (i + String.length t)%nat ->
  slice str (i, j) = t.
Proof.
  intros -> -> ->; unfold slice; cbn [fst snd].
  rewrite StringFacts.substring_skip_app.
  replace (String.length a + String.length t - String.length a)%nat
    with (String.length t) by lia.
  apply StringFacts.substring_0_app.
Qed.

Lemma run_blueskyRe_unfold (k : Cont) (x : Pos) :
  run blueskyRe k x
  = run (lit "https://bsky.app/profile/")
      (run (Group 1 (Plus (byteIsNot "/")))
         (run (lit "/post/")
            (run (Group 2 (Plus (byteIsNot "/"))) k))) x.
Proof. reflexivity. Qed.

(** X19: from a link that begins the URL, the classifier gets back the
    handle and the post id it was made of, if neither is empty nor has a
    slash in it and the link ends the URL or a slash follows it. *)
Theorem extractBlueskyData_of_link (handle postid post : string) :
  handle <> "" -> postid <> "" ->
  lacks "/" handle = true -> lacks "/" postid = true ->
  endsAt "/" post ->
  extractBlueskyData (blueskyLink handle postid ++ post) = (handle, postid).
Proof.
  intros Hh Hq Sh Sq Hend.
  remember (blueskyLink handle postid ++ post) as url eqn:Hdef.
  assert (Hurl : url = "https://bsky.app/profile/"
                       ++ handle ++ "/post/" ++ postid ++ post).
  { rewrite Hdef; unfold blueskyLink; now rewrite !StringFacts.app_assoc. }
  clear Hdef.
  assert (Hend' : post = "" \/
                  exists c r', post = String c r' /\ byteIsNot "/" c = false).
  { destruct Hend as [-> | [r ->]]; [now left | right; now exists "/"%char, r]. }
  destruct (run_lit "https://bsky.app/profile/" (mkPos None 0 url [])
              (handle ++ "/post/" ++ postid ++ post) Hurl) as [p1 E1].
  cbn [posOff posCaps String.length Nat.add] in E1.
  destruct (run_Group_Plus 1 (byteIsNot "/")
              (mkPos p1 25 (handle ++ "/post/" ++ postid ++ post) [])
              handle ("/post/" ++ postid ++ post) eq_refl Hh Sh
              ltac:(right; now exists "/"%char, ("post/" ++ postid ++ post)))
    as [p2 E2].
  cbn [posOff posCaps] in E2.
  set (c1 := [(1%nat, (25, 25 + String.length handle)%nat)]) in *.
  destruct (run_lit "/post/"
              (mkPos p2 (25 + String.length handle)
                 ("/post/" ++ postid ++ post) c1)
              (postid ++ post) eq_refl) as [p3 E3].
  cbn [posOff posCaps String.length] in E3.
  destruct (run_Group_Plus 2 (byteIsNot "/")
              (mkPos p3 (25 + String.length handle + 6) (postid ++ post) c1)
              postid post eq_refl Hq Sq Hend') as [p4 E4].
  cbn [posOff posCaps] in E4.
  assert (Hrun : run blueskyRe Some (mkPos None 0 url [])
                 = Some (mkPos p4
                           (25 + String.length handle + 6
                            + String.length postid) post
                           ((2%nat, (25 + String.length handle + 6,
                                     25 + String.length handle + 6
                                     + String.length postid)%nat) :: c1))).
  { rewrite run_blueskyRe_unfold, E1.
    assert (E34 : run (lit "/post/")
                    (run (Group 2 (Plus (byteIsNot "/"))) Some)
                    (mkPos p2 (25 + String.length handle)
                       ("/post/" ++ postid ++ post) c1)
                  = Some (mkPos p4
                            (25 + String.length handle + 6
                             + String.length postid) post
                            ((2%nat, (25 + String.length handle + 6,
                                      25 + String.length handle + 6
                                      + String.length postid)%nat) :: c1)))
      by (rewrite E3; apply E4; discriminate).
    rewrite E2; [exact E34 | rewrite E34; discriminate]. }
  unfold extractBlueskyData, FindStringSubmatch; cbv zeta.
  rewrite (search_here _ _ _ _ _ Hrun).
  unfold submatches.
  change (numSubexp blueskyRe) with 2%nat.
  cbn [seq map posCaps capture Nat.eqb c1 List.length nth].
  f_equal.
  - apply (slice_at url "https://bsky.app/profile/" handle
             ("/post/" ++ postid ++ post)); [exact Hurl | reflexivity..].
  - apply (slice_at url ("https://bsky.app/profile/" ++ handle ++ "/post/")
             postid post).
    + rewrite Hurl, !StringFacts.app_assoc; reflexivity.
    + rewrite !StringFacts.length_app; cbn [String.length]; lia.
    + reflexivity.
Qed.

Lemma extractBlueskyData_of_link_witness :
  "a.example" <> "" /\ "3k" <> "" /\
  lacks "/" "a.example" = true /\ lacks "/" "3k" = true /\
  endsAt "/" "/likes" /\
  extractBlueskyData (blueskyLink "a.example" "3k" ++ "/likes")
  = ("a.example", "3k").
Proof.
  repeat (split; [first [discriminate | reflexivity
                        | right; now exists "likes"]|]).
  apply extractBlueskyData_of_link;
    first [discriminate | reflexivity | right; now exists "likes"].
Defined.

(** ** Generic resolver: the title pattern *)

(** Before a rest of the pattern that matches wherever the byte [c0]
    comes next, and nowhere else, [x*?] stops at the first [c0]. *)
Lemma starLazy_min (p : ascii -> bool) (k : Cont) (c0 : ascii) :
  (forall y r, posRest y = String c0 r -> k y <> None) ->
  forall s prev off caps m,
    starLazy p k prev off s caps = Some m ->
    exists t y,
      consumed (mkPos prev off s caps) y t /\ posCaps y = caps /\
      k y = Some m /\ lacks c0 t = true.
Proof.
  intros Hk; induction s as [|c s IH]; intros prev off caps m;
    cbn [starLazy].
  - destruct (k (mkPos prev off "" caps)) as [m'|] eqn:E; [|discriminate].
    intros [= <-]; exists "", (mkPos prev off "" caps).
    split; [apply consumed_refl | now repeat split].
  - destruct (k (mkPos prev off (String c s) caps)) as [m'|] eqn:E.
    + intros [= <-]; exists "", (mkPos prev off (String c s) caps).
      split; [apply consumed_refl | now repeat split].
    + destruct (p c); [|discriminate].
      intros H; destruct (IH _ _ _ _ H) as (t & y & Ht & Hcaps & Hy & Hl).
      exists (String c "" ++ t), y; split; [|split; [exact Hcaps|split]].
      * exact (consumed_trans _ _ _ _ _
                 (consumed_step (mkPos prev off (String c s) caps) c s eq_refl)
                 Ht).
      * exact Hy.
      * unfold lacks in *; cbn [append list_ascii_of_string forallb].
        rewrite Hl, andb_true_r; unfold byteIsNot.
        apply negb_true_iff, Ascii.eqb_neq; intros ->.
        exact (Hk (mkPos prev off (String c0 s) caps) s eq_refl E).
Qed.

Lemma run_genericTitleRe_unfold (k : Cont) (x : Pos) :
  run genericTitleRe k x
  = run (lit1 "<")
      (run (Cat [Star isSpace; litFold "title"; WordBoundary;
                 StarLazy anyByte])
         (run (lit1 ">")
            (run (Group 1 (StarLazy anyByte)) (run (lit1 "<") k)))) x.
Proof. reflexivity. Qed.

Lemma matches_lit1 (c : ascii) (x y : Pos) :
  matches (lit1 c) x y -> consumed x y (String c "") /\ posCaps y = posCaps x.
Proof.
  cbn [lit1 matches]; intros (c' & s' & Hs & Hc & ->).
  apply Ascii.eqb_eq in Hc; subst c'; split; [now apply consumed_step|].
  reflexivity.
Qed.

(** A match of [genericTitleRe] in [body]: an opening tag, text without
    [<], and the [<] after it. *)
Lemma genericTitleRe_shape (body : string) (x m : Pos) :
  located body x ->
  posCaps x = [] ->
  run genericTitleRe Some x = Some m ->
  exists pre tag raw post,
    body = pre ++ "<" ++ tag ++ ">" ++ raw ++ "<" ++ post /\
    lacks "<" raw = true /\
    submatches genericTitleRe body (posOff x) m
    = ["<" ++ tag ++ ">" ++ raw ++ "<"; raw].
Proof.
  intros Hloc Hcaps Hrun; rewrite run_genericTitleRe_unfold in Hrun.
  destruct (run_sound _ _ _ _ Hrun) as (z1 & M1 & H1).
  destruct (run_sound _ _ _ _ H1) as (z2 & M2 & H2).
  destruct (run_sound _ _ _ _ H2) as (z3 & M3 & H3).
  clear Hrun H1 H2.
  destruct (matches_lit1 _ _ _ M1) as [C1 Cap1].
  destruct (matches_consumed _ _ _ M2) as [tag C2].
  pose proof (matches_caps
                (Cat [Star isSpace; litFold "title"; WordBoundary;
                      StarLazy anyByte]) eq_refl _ _ M2) as Cap2.
  destruct (matches_lit1 _ _ _ M3) as [C3 Cap3].
  cbn [run] in H3.
  apply (starLazy_min anyByte _ "<") in H3.
  - destruct H3 as (raw & y & C4 & Capy & Hy & Hraw).
    cbn [run lit1 posRest posPrev posOff posCaps] in Hy.
    destruct (posRest y) as [|c post] eqn:Hpost; [discriminate|].
    destruct (byteIs "<" c) eqn:Hc; [|discriminate].
    apply Ascii.eqb_eq in Hc; subst c.
    injection Hy as <-.
    assert (C4' : consumed z3 y raw) by (destruct z3; exact C4).
    assert (C5 : consumed y (step "<" post y) "<")
      by (now apply consumed_step).
    pose proof (consumed_trans _ _ _ _ _ C1
                  (consumed_trans _ _ _ _ _ C2
                     (consumed_trans _ _ _ _ _ C3
                        (consumed_trans _ _ _ _ _ C4' C5)))) as Call.
    pose proof (located_consumed _ _ _ _ Hloc C1) as Loc1.
    pose proof (located_consumed _ _ _ _ Loc1 C2) as Loc2.
    pose proof (located_consumed _ _ _ _ Loc2 C3) as Loc3.
    destruct Hloc as (pre & Hbody & Hpre).
    exists pre, tag, raw, post; split; [|split; [exact Hraw|]].
    + destruct Call as [Hrest _]; rewrite Hbody, Hrest.
      cbn [step posRest]; now rewrite !StringFacts.app_assoc.
    + unfold submatches.
      change (numSubexp genericTitleRe) with 1%nat.
      cbn [seq map step posOff posCaps capture Nat.eqb].
      f_equal; [|f_equal].
      * exact (slice_consumed body x _ _
                 (ex_intro _ pre (conj Hbody Hpre)) Call).
      * exact (slice_consumed _ _ _ _ Loc3 C4').
  - intros y r Hr; cbn [run lit1 posRest]; rewrite Hr.
    unfold byteIs; rewrite Ascii.eqb_refl; discriminate.
Qed.

(** X20: the title pattern finds nothing in a body, or the whole match and
    the title: an opening tag, the title, and the [<] that follows it in
    the body.  The title has no [<] in it. *)
Theorem genericTitleRe_title (body : string) :
  FindStringSubmatch genericTitleRe body = [] \/
  exists pre tag raw post,
    body = pre ++ "<" ++ tag ++ ">" ++ raw ++ "<" ++ post /\
    lacks "<" raw = true /\
    FindStringSubmatch genericTitleRe body
    = ["<" ++ tag ++ ">" ++ raw ++ "<"; raw].
Proof.
  unfold FindStringSubmatch.
  destruct (search genericTitleRe None 0 body) as [[start m]|] eqn:Hsearch;
    [right | now left].
  destruct (search_found _ _ _ _ _ _ Hsearch)
    as (prev & s' & skipped & Hrun & Hs & Hst).
  assert (Hloc : located body (mkPos prev start s' [])).
  { exists skipped; split; [exact Hs | cbn; lia]. }
  exact (genericTitleRe_shape body _ _ Hloc eq_refl Hrun).
Qed.

(** ** Making a title safe for IRC *)

Lemma lacks_app (c : ascii) (a b : string) :
  lacks c (a ++ b) = lacks c a && lacks c b.
Proof.
  unfold lacks; induction a as [|x a IH]; [reflexivity|].
  cbn [append list_ascii_of_string forallb]; now rewrite IH, andb_assoc.
Qed.

Lemma lookupReplacement_In (oldnew : list (string * string)) (s old new : string) :
  Strings.lookupReplacement oldnew s = Some (old, new) -> In (old, new) oldnew.
Proof.
  induction oldnew as [|[o n] rest IH]; cbn [Strings.lookupReplacement];
    [discriminate|].
  destruct (Strings.HasPrefix s o).
  - intros [= <- <-]; now left.
  - intros H; right; now apply IH.
Qed.

Lemma lookupReplacement_None (oldnew : list (string * string)) (s old new : string) :
  Strings.lookupReplacement oldnew s = None ->
  In (old, new) oldnew -> Strings.HasPrefix s old = false.
Proof.
  induction oldnew as [|[o n] rest IH]; cbn [Strings.lookupReplacement];
    [intros _ []|].
  destruct (Strings.HasPrefix s o) eqn:E; [discriminate|].
  intros H [[= <- <-] | Hin]; [exact E | now apply IH].
Qed.

(** A byte that the replacer replaces, by texts without it, is not in what
    the replacer returns. *)
Lemma Replace_from_lacks (oldnew : list (string * string)) (bad : ascii) :
  (exists new, In (String bad "", new) oldnew) ->
  (forall old new, In (old, new) oldnew -> lacks bad new = true) ->
  forall s skip, lacks bad (Strings.Replace_from oldnew skip s) = true.
Proof.
  intros [new0 Hbad] Hnew; induction s as [|c s IH]; intros skip;
    cbn [Strings.Replace_from]; [reflexivity|].
  destruct skip as [|skip]; [|apply IH].
  destruct (Strings.lookupReplacement oldnew (String c s))
    as [[old new]|] eqn:E.
  - rewrite lacks_app, IH, andb_true_r.
    exact (Hnew _ _ (lookupReplacement_In _ _ _ _ E)).
  - change (String c (Strings.Replace_from oldnew 0 s))
      with (String c "" ++ Strings.Replace_from oldnew 0 s).
    rewrite lacks_app, IH, andb_true_r.
    unfold lacks, byteIsNot; cbn [list_ascii_of_string forallb].
    rewrite andb_true_r; apply negb_true_iff, Ascii.eqb_neq; intros ->.
    pose proof (lookupReplacement_None _ _ _ _ E Hbad) as Hno.
    rewrite (proj2 (HasPrefix_iff (String bad s) (String bad "")))
      in Hno by now exists s.
    discriminate Hno.
Qed.

Lemma Replace_from_length (oldnew : list (string * string)) (n : nat) :
  (forall old new, In (old, new) oldnew -> (String.length new <= n)%nat) ->
  (1 <= n)%nat ->
  forall s skip,
    (String.length (Strings.Replace_from oldnew skip s)
     <= n * String.length s)%nat.
Proof.
  intros Hnew Hn; induction s as [|c s IH]; intros skip;
    cbn [Strings.Replace_from String.length]; [lia|].
  destruct skip as [|skip]; [|specialize (IH skip); lia].
  destruct (Strings.lookupReplacement oldnew (String c s))
    as [[old new]|] eqn:E.
  - rewrite StringFacts.length_app.
    pose proof (Hnew _ _ (lookupReplacement_In _ _ _ _ E)).
    specialize (IH (String.length old - 1)%nat); lia.
  - cbn [String.length]; specialize (IH 0%nat); lia.
Qed.

(** X21: a normalized message has none of the bytes NUL, line feed,
    carriage return, tab, vertical tab and form feed in it, and is at most
    twice as long as the message. *)
Theorem normalizeMessage_safe (message : string) :
  (forall n, In n [0; 10; 13; 9; 11; 12]%nat ->
             lacks (ascii_of_nat n) (normalizeMessage message) = true) /\
  (String.length (normalizeMessage message)
   <= 2 * String.length message)%nat.
Proof.
  split.
  - intros n Hn; unfold normalizeMessage, Strings.Replace.
    apply Replace_from_lacks.
    + cbn [In] in Hn.
      destruct Hn as [<- | [<- | [<- | [<- | [<- | [<- | []]]]]]];
        eexists; unfold normalizeReplacer, oneByte; cbn [In]; eauto 10.
    + intros old new Hin; unfold normalizeReplacer in Hin; cbn [In] in Hin.
      cbn [In] in Hn.
      destruct Hn as [<- | [<- | [<- | [<- | [<- | [<- | []]]]]]];
        repeat (destruct Hin as [[= <- <-] | Hin]; [reflexivity|]);
        destruct Hin.
  - unfold normalizeMessage, Strings.Replace.
    apply Replace_from_length; [|lia].
    intros old new Hin; unfold normalizeReplacer in Hin; cbn [In] in Hin.
    repeat (destruct Hin as [[= <- <-] | Hin]; [cbn; lia|]); destruct Hin.
Qed.

(** ** The meta tags of a page *)

Section MetaTags.

Context {lib : Lib}.

Import htmlutil.

Lemma setAttr_fields (metaTag : MetaTag) (attr : Attribute) (v : string) :
  In v (fields (setAttr metaTag attr)) ->
  In v (fields metaTag) \/ v = Val attr.
Proof.
  unfold setAttr; cbv zeta.
  repeat match goal with
         | |- context [if ?b then _ else _] => destruct b
         end;
    unfold fields; cbn [In Name Property Content HttpEquiv Charset];
    intuition auto.
Qed.

Lemma fold_setAttr_fields (attrs : list Attribute) :
  forall (metaTag : MetaTag) (v : string),
    In v (fields (fold_left setAttr attrs metaTag)) ->
    In v (fields metaTag) \/ In v (map Val attrs).
Proof.
  induction attrs as [|attr attrs IH]; intros metaTag v; cbn [fold_left map In];
    [now left|].
  intros H; destruct (IH _ _ H) as [H1 | H1]; [|now right; right].
  destruct (setAttr_fields _ _ _ H1) as [H2 | ->]; [now left | right; now left].
Qed.

Lemma notZero_zero (metaTag : MetaTag) :
  notZero metaTag = true -> metaTag <> zero.
Proof. intros H ->; discriminate H. Qed.

Lemma ExtractMetaTags_loop_acc (tokens : list Token) :
  forall metaTags,
    ExtractMetaTags_loop tokens metaTags
    = (metaTags ++ ExtractMetaTags_loop tokens [])%list.
Proof.
  induction tokens as [|token rest IH]; intros metaTags;
    cbn [ExtractMetaTags_loop]; [now rewrite app_nil_r|].
  destruct (isStartTag (Type_ token)); [|apply IH].
  destruct (Data token =? "meta")%string; [|apply IH].
  cbv zeta; destruct (notZero _); [|apply IH].
  rewrite IH, (IH ([] ++ _)%list), <- app_assoc; reflexivity.
Qed.

(** X22: the tags that [ExtractMetaTags] returns are those found before
    the stream of tokens ended, the same whether it ended with [io.EOF]
    (and no error is returned) or with an error (which is returned).  None
    of them is the zero tag; there is at most one for each [meta] start
    tag; each value of a tag is empty or the value of an attribute of its
    token. *)
Theorem ExtractMetaTags_tags (tokens : list Token) (err : tokenizerErr) :
  fst (ExtractMetaTags tokens err) = fst (ExtractMetaTags tokens io_EOF) /\
  (snd (ExtractMetaTags tokens err) = None <-> err = io_EOF) /\
  (List.length (fst (ExtractMetaTags tokens err))
   <= List.length (filter isMeta tokens))%nat /\
  Forall (fun metaTag =>
            metaTag <> zero /\
            exists token,
              In token tokens /\ isMeta token = true /\
              forall v, In v (fields metaTag) ->
                        v = "" \/ In v (map Val (Attr token)))
         (fst (ExtractMetaTags tokens err)).
Proof.
  unfold ExtractMetaTags; cbn [fst snd].
  split; [reflexivity|]; split; [destruct err; split; congruence|].
  induction tokens as [|token rest [IHlen IH]];
    cbn [ExtractMetaTags_loop filter List.length]; [split; [lia | constructor]|].
  assert (IH' : Forall (fun metaTag =>
            metaTag <> zero /\
            exists token0,
              In token0 (token :: rest) /\ isMeta token0 = true /\
              forall v, In v (fields metaTag) ->
                        v = "" \/ In v (map Val (Attr token0)))
         (ExtractMetaTags_loop rest [])).
  { eapply Forall_impl; [|exact IH].
    intros m (Hz & t & Hin & Hmeta & Hv); split; [exact Hz|].
    exists t; split; [now right | now split]. }
  unfold isMeta at 1.
  destruct (isStartTag (Type_ token)) eqn:Hstart; cbn [andb];
    [|split; [exact IHlen | exact IH']].
  destruct (Data token =? "meta")%string eqn:Hdata;
    [|split; [exact IHlen | exact IH']].
  cbv zeta; destruct (notZero _) eqn:Hnz;
    [|split; [cbn [List.length]; lia | exact IH']].
  rewrite ExtractMetaTags_loop_acc; cbn [app List.length].
  split; [lia|].
  constructor; [|exact IH'].
  split; [now apply notZero_zero|].
  exists token; split; [now left|].
  split; [unfold isMeta; now rewrite Hstart, Hdata|].
  intros v Hv; destruct (fold_setAttr_fields _ _ _ Hv) as [H | H];
    [left | now right].
  unfold fields, zero in H; cbn in H; intuition auto.
Qed.

(** X23: the tags of a stream of tokens are the tags of its beginning
    followed by the tags of its end. *)
Theorem ExtractMetaTags_app (a b : list Token) (err : tokenizerErr) :
  fst (ExtractMetaTags (a ++ b) err)
  = (fst (ExtractMetaTags a err) ++ fst (ExtractMetaTags b err))%list.
Proof.
  unfold ExtractMetaTags; cbn [fst].
  induction a as [|token a IH]; [reflexivity|].
  cbn [app ExtractMetaTags_loop].
  destruct (isStartTag (Type_ token)); [|exact IH].
  destruct (Data token =? "meta")%string; [|exact IH].
  cbv zeta; destruct (notZero _); [|exact IH].
  rewrite (ExtractMetaTags_loop_acc (a ++ b)), (ExtractMetaTags_loop_acc a).
  now rewrite IH, app_assoc.
Qed.

End MetaTags.
